(** * Wire length and voltage drop helper

    A shallow embedding of the calculation core of [wire_calculator_app.py]:
    gauge extraction from text ([parse_awg]), the gauge label ([awg_label]),
    the voltage-drop gauge selector ([suggest_awg]) over the two resistance
    tables, and the three computations of the "Calculate Wire Needs" handler
    (run aggregation, the per-run voltage-drop row, the packaging plan).
    Part 3 adds the other text functions ([normalize_space],
    [parse_pack_length], [detect_material], [generic_scrape] on the text of
    the page) and the handler's assumed material and ampacity note.

    Conventions.
    - A Python [str] is a [list ascii]; the 256 values of [ascii] are read as
      the code points U+0000..U+00FF, and the character classes below are the
      ones Python uses on that range.
    - A Python [int] is a [Z].
    - A Python [float] is an element of a type [F] with the operations of the
      class [PyFloat] (arithmetic and comparison) and, for the code that
      rounds, of the class [PyFloatRound] (floor division, [int()],
      [round()]).  [PyFloat] is implemented twice: by [Q], exact arithmetic,
      and by Rocq's primitive [float], IEEE 754 binary64, which is what
      CPython computes with.  [PyFloatRound] is implemented by both as well.
      The packaging plan is studied in binary64: for whole pack sizes and a
      footage up to 2^53 every operation of its loop is exact, so that the
      plan is the one exact arithmetic gives.
    - A blank cell of the runs table (NaN) is [None].
    - A computation that can raise returns a [result]. *)

From Stdlib Require Import ZArith QArith Qround Qpower List Ascii String Bool Lia.
From Stdlib Require Import DecimalString Floats Permutation Sorted Lqa.
Import ListNotations.

Set Warnings "-inexact-float".
Close Scope Q_scope.
Open Scope Z_scope.

(* ================================================================== *)
(** * Part 1. The embedding *)
(* ================================================================== *)

(** ** Exceptions *)

Inductive exn : Set :=
| ZeroDivisionError
| ValueError
| KeyError
| IndexError
| OverflowError.

Inductive result (A : Type) : Type :=
| Ok (a : A)
| Raise (e : exn).

Arguments Ok {A} a.
Arguments Raise {A} e.

Definition bind {A B : Type} (c : result A) (k : A -> result B) : result B :=
  match c with
  | Ok a => k a
  | Raise e => Raise e
  end.

Notation "x <- c ;; k" := (bind c (fun x => k))
  (at level 61, c at next level, right associativity).
Notation "' pat <- c ;; k" := (bind c (fun x => match x with pat => k end))
  (at level 61, pat pattern, c at next level, right associativity).

(** [[f(x) for x in xs]], stopping at the first exception. *)
Fixpoint mapM {A B : Type} (f : A -> result B) (xs : list A) : result (list B) :=
  match xs with
  | [] => Ok []
  | x :: xs' => y <- f x ;; ys <- mapM f xs' ;; Ok (y :: ys)
  end.

(** ** Python built-ins on strings and integers *)

Module Py.

Definition str : Set := list ascii.

(** A string literal as a sequence of code points. *)
Definition text (s : string) : str := list_ascii_of_string s.

Definition code (c : ascii) : N := N_of_ascii c.

Definition between (lo hi : N) (c : ascii) : bool :=
  ((lo <=? code c) && (code c <=? hi))%N.

(** [\d] and [str.isdecimal]: below U+0100 only 0-9 are decimal digits. *)
Definition is_digit (c : ascii) : bool := between 48 57 c.

(** [\s] and the characters [str.strip()] removes: TAB..CR, FS..US, space,
    NEL and the no-break space. *)
Definition is_space (c : ascii) : bool :=
  between 9 13 c || between 28 31 c || (code c =? 32)%N
  || (code c =? 133)%N || (code c =? 160)%N.

(** [\w]: alphanumeric (letters, digits and other numeric characters) or
    the underscore. *)
Definition is_word (c : ascii) : bool :=
  between 48 57 c || between 65 90 c || between 97 122 c || (code c =? 95)%N
  || (code c =? 170)%N || (code c =? 178)%N || (code c =? 179)%N
  || (code c =? 181)%N || (code c =? 185)%N || (code c =? 186)%N
  || between 188 190 c || between 192 214 c || between 216 246 c
  || between 248 255 c.

(** Lower case of an ASCII letter; the letters of the patterns below have no
    other case variants under U+0100. *)
Definition lower (c : ascii) : ascii :=
  if between 65 90 c then ascii_of_N (code c + 32) else c.

(** Dropping the leading characters of a class, and the characters of a
    class at both ends. *)
Fixpoint lstrip_of (drop : ascii -> bool) (s : str) : str :=
  match s with
  | c :: s' => if drop c then lstrip_of drop s' else s
  | [] => []
  end.

Definition strip_of (drop : ascii -> bool) (s : str) : str :=
  rev (lstrip_of drop (rev (lstrip_of drop s))).

(** [s.strip()] *)
Definition strip (s : str) : str := strip_of is_space s.

(** The whitespace [int()] itself ignores around the digits: [is_space]
    without FS..US. *)
Definition is_int_space (c : ascii) : bool :=
  between 9 13 c || (code c =? 32)%N || (code c =? 133)%N || (code c =? 160)%N.

(** [s.split(sep)] for a one-character separator. *)
Fixpoint split (sep : ascii) (s : str) : list str :=
  match s with
  | [] => [[]]
  | c :: s' =>
      if Ascii.eqb c sep then [] :: split sep s'
      else match split sep s' with
           | h :: t => (c :: h) :: t
           | [] => [[c]]
           end
  end.

(** Truth value of a string. *)
Definition truthy (s : str) : bool :=
  match s with
  | [] => false
  | _ :: _ => true
  end.

Definition digit_val (c : ascii) : Z := Z.of_N (code c) - 48.

(** The digits of an integer literal after the first one: digits, each
    optionally preceded by a single underscore. *)
Fixpoint int_digits (acc : Z) (s : str) : result Z :=
  match s with
  | [] => Ok acc
  | c :: s' =>
      if is_digit c then int_digits (acc * 10 + digit_val c) s'
      else if Ascii.eqb c "_"%char then
        match s' with
        | d :: s'' =>
            if is_digit d then int_digits (acc * 10 + digit_val d) s''
            else Raise ValueError
        | [] => Raise ValueError
        end
      else Raise ValueError
  end.

Definition int_unsigned (s : str) : result Z :=
  match s with
  | d :: s' => if is_digit d then int_digits (digit_val d) s' else Raise ValueError
  | [] => Raise ValueError
  end.

(** [int(s)] in base 10: surrounding whitespace is ignored, then an optional
    sign and the digits.  (CPython's limit on the number of digits is not
    modelled.) *)
Definition int (s : str) : result Z :=
  match strip_of is_int_space s with
  | c :: s' =>
      if Ascii.eqb c "+"%char then int_unsigned s'
      else if Ascii.eqb c "-"%char then n <- int_unsigned s' ;; Ok (- n)
      else int_unsigned (c :: s')
  | [] => Raise ValueError
  end.

(** [str(n)] for an [int]. *)
Definition str_of_int (n : Z) : string := NilZero.string_of_int (Z.to_int n).

(** [sorted(xs, reverse=True)] on integers. *)
Fixpoint insert_desc (x : Z) (l : list Z) : list Z :=
  match l with
  | [] => [x]
  | y :: l' => if y <? x then x :: l else y :: insert_desc x l'
  end.

Definition sorted_reverse (l : list Z) : list Z := fold_right insert_desc [] l.

(** The elements of [set(xs)], in some order. *)
Definition set_of (l : list Z) : list Z := nodup Z.eq_dec l.

(** [d[k]] on a dict written as the list of its items. *)
Fixpoint getitem {V : Type} (d : list (Z * V)) (k : Z) : result V :=
  match d with
  | [] => Raise KeyError
  | (k', v) :: d' => if k' =? k then Ok v else getitem d' k
  end.

Definition keys {V : Type} (d : list (Z * V)) : list Z := map fst d.

(** [xs[-1]] *)
Fixpoint last_item {A : Type} (xs : list A) : result A :=
  match xs with
  | [] => Raise IndexError
  | [x] => Ok x
  | _ :: xs' => last_item xs'
  end.

End Py.

(** ** Floats *)

(** The float operations the program uses.  [of_int] is the promotion of an
    [int] operand in mixed arithmetic, [of_lit] the value of a decimal
    literal, [fdiv] the quotient by a non-zero divisor, [ffloordiv] the
    floor quotient by a non-zero divisor, [ftrunc] is [int(x)] and [fround]
    is [round(x, ndigits)].  [int_to_float] is the promotion of an [int]
    operand with its error: mixed arithmetic raises OverflowError for an
    [int] beyond the float range. *)
Class PyFloat (F : Type) : Type := {
  of_int : Z -> F;
  of_lit : Q -> F;
  fadd : F -> F -> F;
  fsub : F -> F -> F;
  fmul : F -> F -> F;
  fdiv : F -> F -> F;
  is_zero : F -> bool;
  fltb : F -> F -> bool;
  fleb : F -> F -> bool
}.

Class PyFloatRound (F : Type) : Type := {
  ffloordiv : F -> F -> F;
  ftrunc : F -> result Z;
  fround : F -> Z -> F;
  int_to_float : Z -> result F
}.

(** The two facts about comparison with zero that the handler's guard relies
    on. *)
Class PyFloatOrder (F : Type) `{PyFloat F} : Prop := {
  gt0_nonzero : forall x : F, fltb (of_int 0) x = true -> is_zero x = false;
  le0_not_gt0 : forall x : F, fleb x (of_int 0) = true -> fltb (of_int 0) x = false
}.

Section FloatOps.

Context {F : Type} `{PyFloat F} `{PyFloatRound F}.

(** [x / y] *)
Definition truediv (x y : F) : result F :=
  if is_zero y then Raise ZeroDivisionError else Ok (fdiv x y).

(** [x // y] *)
Definition floordiv (x y : F) : result F :=
  if is_zero y then Raise ZeroDivisionError else Ok (ffloordiv x y).

(** [sum(xs)]: the additions run left to right from the integer 0.  (From
    CPython 3.12 on, floats are added with a compensated sum; the two agree
    when the partial sums are exact.) *)
Definition py_sum (xs : list F) : F := fold_left fadd xs (of_int 0).

(** [x > 0] for a table cell; a blank cell (NaN) compares false. *)
Definition cell_gt0 (x : option F) : bool :=
  match x with
  | Some v => fltb (of_int 0) v
  | None => false
  end.

End FloatOps.

(** *** Exact arithmetic *)

Definition Qround_half_even (x : Q) : Z :=
  let f := Qfloor x in
  match Qcompare (x - inject_Z f)%Q (1 # 2)%Q with
  | Lt => f
  | Gt => f + 1
  | Eq => if Z.even f then f else f + 1
  end.

Definition Qround_digits (x : Q) (ndigits : Z) : Q :=
  let scale := Qpower 10%Q ndigits in
  (inject_Z (Qround_half_even (x * scale)%Q) / scale)%Q.

#[export] Instance Q_float : PyFloat Q := {
  of_int := inject_Z;
  of_lit := fun q => q;
  fadd := Qplus;
  fsub := Qminus;
  fmul := Qmult;
  fdiv := Qdiv;
  is_zero := fun x => Qeq_bool x 0%Q;
  fltb := fun x y => negb (Qle_bool y x);
  fleb := Qle_bool
}.

#[export] Instance Q_float_round : PyFloatRound Q := {
  ffloordiv := fun x y => inject_Z (Qfloor (x / y)%Q);
  ftrunc := fun x => Ok (Z.quot (Qnum x) (Zpos (Qden x)));
  fround := Qround_digits;
  int_to_float := fun z => Ok (inject_Z z)
}.

(** *** IEEE 754 binary64 *)

(** The float nearest to an integer (ties to even). *)
Definition float_of_Z (z : Z) : float :=
  SF2Prim (binary_normalize prec emax z 0 false).

(** The float nearest to the literal [n/d]: both are written with few enough
    digits to be floats themselves, and the division rounds once. *)
Definition float_of_lit (q : Q) : float :=
  PrimFloat.div (float_of_Z (Qnum q)) (float_of_Z (Zpos (Qden q))).

#[export] Instance binary64 : PyFloat float := {
  of_int := float_of_Z;
  of_lit := float_of_lit;
  fadd := PrimFloat.add;
  fsub := PrimFloat.sub;
  fmul := PrimFloat.mul;
  fdiv := PrimFloat.div;
  is_zero := fun x => PrimFloat.eqb x PrimFloat.zero;
  fltb := PrimFloat.ltb;
  fleb := PrimFloat.leb
}.

(** The value of a float as a rational.  The infinities and NaN have none;
    [float_to_Q] gives them 0, as it gives the zeros, so that a float whose
    value is not 0 is finite. *)
Definition float_finite (x : float) : bool :=
  match Prim2SF x with
  | S754_zero _ | S754_finite _ _ _ => true
  | S754_infinity _ | S754_nan => false
  end.

Definition float_to_Q (x : float) : Q :=
  match Prim2SF x with
  | S754_finite s m e => (inject_Z (cond_Zopp s (Zpos m)) * 2 ^ e)%Q
  | _ => 0%Q
  end.

(** The promotion of an [int] operand ([PyLong_AsDouble]): the nearest
    float, OverflowError when it is beyond the largest float. *)
Definition float_of_int (z : Z) : result float :=
  match binary_normalize prec emax z 0 false with
  | S754_infinity _ => Raise OverflowError
  | x => Ok (SF2Prim x)
  end.

(** [int(x)]: truncation toward zero; ValueError for NaN, OverflowError for
    an infinity. *)
Definition float_int (x : float) : result Z :=
  match Prim2SF x with
  | S754_nan => Raise ValueError
  | S754_infinity _ => Raise OverflowError
  | S754_zero _ => Ok 0
  | S754_finite s m e =>
      Ok (cond_Zopp s (if 0 <=? e then Zpos m * 2 ^ e else Zpos m / 2 ^ (- e)))
  end.

(** C's [fmod], which is exact: the remainder of the truncated quotient,
    with the sign of [x]. *)
Definition c_fmod (x y : float) : float :=
  match Prim2SF x, Prim2SF y with
  | S754_nan, _ | _, S754_nan => nan
  | S754_infinity _, _ => nan
  | _, S754_zero _ => nan
  | _, S754_infinity _ => x
  | S754_zero _, _ => x
  | S754_finite sx mx ex, S754_finite _ my ey =>
      let e := Z.min ex ey in
      let r := (Zpos mx * 2 ^ (ex - e)) mod (Zpos my * 2 ^ (ey - e)) in
      SF2Prim (binary_normalize prec emax (cond_Zopp sx r) e sx)
  end.

(** C's [floor]. *)
Definition c_floor (x : float) : float :=
  match Prim2SF x with
  | S754_finite s m e =>
      if 0 <=? e then x
      else SF2Prim (binary_normalize prec emax
                      (cond_Zopp s (Zpos m) / 2 ^ (- e)) 0 s)
  | _ => x
  end.

Definition sign_bit (x : float) : bool :=
  match Prim2SF x with
  | S754_zero s | S754_infinity s | S754_finite s _ _ => s
  | S754_nan => false
  end.

(** C's [copysign(0.0, y)]. *)
Definition copysign_zero (y : float) : float :=
  if sign_bit y then neg_zero else zero.

(** C's truth value of a double: [if (x)]. *)
Definition c_nonzero (x : float) : bool := negb (PrimFloat.eqb x zero).

(** CPython's floor division of floats ([_float_div_mod] in
    [floatobject.c]), after its check that the divisor is not zero:
    [mod = fmod(vx, wx); div = (vx - mod) / wx;] one is subtracted from
    [div] when [mod] is not zero and has not the sign of [wx]; then
    [floor(div)], plus one when [div - floor(div) > 0.5]; a zero [div] gets
    the sign of [vx / wx]. *)
Definition float_floor_div (vx wx : float) : float :=
  let fmod_ := c_fmod vx wx in
  let div := PrimFloat.div (PrimFloat.sub vx fmod_) wx in
  let div :=
    if c_nonzero fmod_
       && negb (Bool.eqb (PrimFloat.ltb wx zero) (PrimFloat.ltb fmod_ zero))
    then PrimFloat.sub div one else div in
  if c_nonzero div then
    let floordiv := c_floor div in
    if PrimFloat.ltb 0.5%float (PrimFloat.sub div floordiv)
    then PrimFloat.add floordiv one else floordiv
  else copysign_zero (PrimFloat.div vx wx).

(** The float nearest to a rational (ties to even): the correctly rounded
    quotient of numerator by denominator. *)
Definition float_of_Q (q : Q) (negative_zero : bool) : float :=
  match Qnum q with
  | Z0 => if negative_zero then neg_zero else zero
  | Zpos n =>
      SF2Prim (SFdiv prec emax (S754_finite false n 0)
                 (S754_finite false (Qden q) 0))
  | Zneg n =>
      SF2Prim (SFdiv prec emax (S754_finite true n 0)
                 (S754_finite false (Qden q) 0))
  end.

(** [round(x, ndigits)] ([float___round___impl] and [double_round]): the
    value of [x] is rounded to [ndigits] decimals, ties to even, and the
    result is the float nearest to that decimal; a zero result keeps the
    sign of [x].  (For a negative [ndigits] [round] can raise OverflowError;
    the program rounds to 2 decimals, where it cannot.) *)
Definition float_round (x : float) (ndigits : Z) : float :=
  match Prim2SF x with
  | S754_finite s _ _ =>
      if 323 <? ndigits then x
      else if ndigits <? -308 then PrimFloat.mul zero x
      else float_of_Q (Qround_digits (float_to_Q x) ndigits) s
  | _ => x
  end.

#[export] Instance binary64_round : PyFloatRound float := {
  ffloordiv := float_floor_div;
  ftrunc := float_int;
  fround := float_round;
  int_to_float := float_of_int
}.

(** A positive rational that is a float: at most 53 bits at an exponent
    within the range of binary64. *)
Definition representable (v : Q) : Prop :=
  exists (m : positive) (e : Z),
    (v == inject_Z (Zpos m) * 2 ^ e)%Q /\ Zpos m < 2 ^ 53 /\ -1074 <= e <= 971.

(** [x] is +0.0 or a finite float above zero, and [v] is its value. *)
Definition nonneg_float (x : float) (v : Q) : Prop :=
  (Prim2SF x = S754_zero false /\ (v == 0)%Q) \/
  exists m e,
    Prim2SF x = S754_finite false m e /\ (v == inject_Z (Zpos m) * 2 ^ e)%Q.

(** ** Regular expressions: the fragment of [re] the program uses *)

Module Re.

Import Py.

Inductive regex : Set :=
| Lit (c : ascii)               (* a literal character *)
| Digit                         (* \d *)
| Space                         (* \s *)
| WordB                         (* \b *)
| Cat (r1 r2 : regex)           (* r1 r2 *)
| Alt (r1 r2 : regex)           (* r1|r2 *)
| Star (r : regex)              (* r*, greedy *)
| Rep (lo hi : nat) (r : regex) (* r{lo,hi}, greedy *)
| Grp (r : regex).              (* (r), capturing group 1 *)

(** A position in the subject string: the characters before it (nearest
    first), the characters after it, and what group 1 holds. *)
Record pos : Set := mkpos {
  before : str;
  after : str;
  grp1 : option str
}.

(** A literal under [re.I] matches both cases of its letter. *)
Definition lit_eq (ignorecase : bool) (c x : ascii) : bool :=
  if ignorecase then Ascii.eqb (lower c) (lower x) else Ascii.eqb c x.

Definition step (p : ascii -> bool) (q : pos) : list pos :=
  match after q with
  | x :: rest => if p x then [mkpos (x :: before q) rest (grp1 q)] else []
  | [] => []
  end.

Definition word_at (s : str) : bool :=
  match s with
  | x :: _ => is_word x
  | [] => false
  end.

(** [\b]: exactly one of the two neighbours is a word character. *)
Definition at_boundary (q : pos) : bool :=
  xorb (word_at (before q)) (word_at (after q)).

Definition consumed (p q : pos) : str :=
  firstn (List.length (after p) - List.length (after q)) (after p).

(** Greedy repetition of a matcher [body]: one more iteration is tried
    before stopping.  An iteration of [r*] that consumes nothing is not
    repeated. *)
Fixpoint star_iter (body : pos -> list pos) (fuel : nat) (p : pos) : list pos :=
  match fuel with
  | O => [p]
  | S fuel' =>
      flat_map
        (fun q =>
           if (List.length (after q) <? List.length (after p))%nat
           then star_iter body fuel' q else [])
        (body p)
      ++ [p]
  end.

Fixpoint rep_iter (body : pos -> list pos) (lo hi : nat) (p : pos) : list pos :=
  match hi with
  | O => match lo with O => [p] | S _ => [] end
  | S hi' =>
      flat_map (rep_iter body (pred lo) hi') (body p)
      ++ match lo with O => [p] | S _ => [] end
  end.

(** All the ways [r] matches at position [p], in the order the backtracking
    matcher tries them: the first element is the match [re] reports. *)
Fixpoint matches (ic : bool) (r : regex) (p : pos) : list pos :=
  match r with
  | Lit c => step (lit_eq ic c) p
  | Digit => step is_digit p
  | Space => step is_space p
  | WordB => if at_boundary p then [p] else []
  | Cat r1 r2 => flat_map (matches ic r2) (matches ic r1 p)
  | Alt r1 r2 => matches ic r1 p ++ matches ic r2 p
  | Star r1 => star_iter (matches ic r1) (List.length (after p)) p
  | Rep lo hi r1 => rep_iter (matches ic r1) lo hi p
  | Grp r1 =>
      map (fun q => mkpos (before q) (after q) (Some (consumed p q)))
          (matches ic r1 p)
  end.

(** [re.search]: the first match at the leftmost position that has one. *)
Fixpoint search_from (ic : bool) (r : regex) (bef aft : str) : option pos :=
  match matches ic r (mkpos bef aft None) with
  | m :: _ => Some m
  | [] =>
      match aft with
      | [] => None
      | c :: aft' => search_from ic r (c :: bef) aft'
      end
  end.

Definition search (ic : bool) (r : regex) (s : str) : option pos :=
  search_from ic r [] s.

(** What it means for [r] to match from position [p] to position [m],
    without the order of the attempts. *)
Inductive Step (ok : ascii -> bool) (p : pos) : pos -> Prop :=
| Step_char (x : ascii) (rest : str) :
    after p = x :: rest -> ok x = true ->
    Step ok p (mkpos (x :: before p) rest (grp1 p)).

Inductive Iter (R : pos -> pos -> Prop) : pos -> pos -> Prop :=
| Iter_stop (p : pos) : Iter R p p
| Iter_more (p q m : pos) :
    R p q -> (List.length (after q) < List.length (after p))%nat ->
    Iter R q m -> Iter R p m.

Inductive Upto (R : pos -> pos -> Prop) : nat -> nat -> pos -> pos -> Prop :=
| Upto_stop (hi : nat) (p : pos) : Upto R 0 hi p p
| Upto_more (lo hi : nat) (p q m : pos) :
    R p q -> Upto R (pred lo) hi q m -> Upto R lo (S hi) p m.

Fixpoint Matches (ic : bool) (r : regex) : pos -> pos -> Prop :=
  match r with
  | Lit c => Step (lit_eq ic c)
  | Digit => Step is_digit
  | Space => Step is_space
  | WordB => fun p m => at_boundary p = true /\ m = p
  | Cat r1 r2 => fun p m => exists q, Matches ic r1 p q /\ Matches ic r2 q m
  | Alt r1 r2 => fun p m => Matches ic r1 p m \/ Matches ic r2 p m
  | Star r1 => Iter (Matches ic r1)
  | Rep lo hi r1 => Upto (Matches ic r1) lo hi
  | Grp r1 =>
      fun p m =>
        exists q, Matches ic r1 p q /\
                  m = mkpos (before q) (after q) (Some (consumed p q))
  end.

(** A word as a pattern. *)
Fixpoint word (w : str) : regex :=
  match w with
  | [] => Rep 0 0 Digit
  | [c] => Lit c
  | c :: w' => Cat (Lit c) (word w')
  end.

End Re.

(** ** Text spec extraction *)

Import Py Re.

(** The gauge pattern, token by token: (?: #? \s* ) ( \d{1,2} ) \s* AWG \b *)
Definition AWG_PATTERN : regex :=
  Cat (Cat (Rep 0 1 (Lit "#"%char)) (Star Space))
      (Cat (Grp (Rep 1 2 Digit))
           (Cat (Star Space) (Cat (word (text "AWG")) WordB))).

(** The kcmil pattern, token by token: ( \d{2,4} ) \s* (?: kcmil | MCM ) \b *)
Definition KCMIL_PATTERN : regex :=
  Cat (Grp (Rep 2 4 Digit))
      (Cat (Star Space)
           (Cat (Alt (word (text "kcmil")) (word (text "MCM"))) WordB)).

(** [int(m.group(1))] *)
Definition int_group1 (m : pos) : result Z :=
  match grp1 m with
  | Some g => Py.int g
  | None => Raise ValueError
  end.

Definition parse_awg (txt : str) : result (option Z) :=
  if negb (truthy txt) then Ok None
  else
    match search true AWG_PATTERN txt with
    | Some m => n <- int_group1 m ;; Ok (Some n)
    | None =>
        match search true KCMIL_PATTERN txt with
        | Some m2 => n <- int_group1 m2 ;; Ok (Some n)
        | None => Ok None
        end
    end.

(** ** Gauge label *)

Definition awg_label (n : Z) : string :=
  if 0 <=? n then (str_of_int n ++ " AWG")%string
  else
    match n with
    | -1 => "2/0 AWG"%string
    | -2 => "3/0 AWG"%string
    | -3 => "4/0 AWG"%string
    | _ => str_of_int n
    end.

(** ** Resistance tables and the gauge selector *)

(** The items of the two dict literals, in source order: size code and ohms
    per 1000 ft as written. *)
Definition COPPER_OHMS_PER_KFT_ITEMS : list (Z * Q) :=
  [(14, 2.525%Q); (12, 1.588%Q); (10, 0.999%Q); (8, 0.6282%Q); (6, 0.3951%Q);
   (4, 0.2485%Q); (3, 0.1970%Q); (2, 0.1563%Q); (1, 0.1239%Q); (0, 0.0983%Q);
   (-1, 0.0779%Q); (-2, 0.0618%Q); (-3, 0.0490%Q)].

Definition AL_OHMS_PER_KFT_ITEMS : list (Z * Q) :=
  [(12, 2.52%Q); (10, 1.588%Q); (8, 0.999%Q); (6, 0.6282%Q); (4, 0.3951%Q);
   (3, 0.3133%Q); (2, 0.2485%Q); (1, 0.1970%Q); (0, 0.1563%Q); (-1, 0.1239%Q);
   (-2, 0.0983%Q); (-3, 0.0779%Q)].

Section Selector.

Context {F : Type} `{PyFloat F}.

Definition dict_of_items (items : list (Z * Q)) : list (Z * F) :=
  map (fun kv => (fst kv, of_lit (snd kv))) items.

Definition COPPER_OHMS_PER_KFT : list (Z * F) :=
  dict_of_items COPPER_OHMS_PER_KFT_ITEMS.

Definition AL_OHMS_PER_KFT : list (Z * F) :=
  dict_of_items AL_OHMS_PER_KFT_ITEMS.

(** The table [suggest_awg] picks: aluminum, or copper for anything else. *)
Definition table_of (material : string) : list (Z * F) :=
  if String.eqb material "aluminum" then AL_OHMS_PER_KFT
  else COPPER_OHMS_PER_KFT.

(** [2 * amps * r_per_ft * one_way_length_ft] with [r_per_ft = r / 1000.0] *)
Definition v_drop_of (amps one_way_length_ft r : F) : F :=
  let r_per_ft := fdiv r (of_lit 1000.0%Q) in
  fmul (fmul (fmul (of_int 2) amps) r_per_ft) one_way_length_ft.

(** [(v_drop / volts) * 100.0] *)
Definition drop_pct (v_drop volts : F) : result F :=
  q <- truediv v_drop volts ;; Ok (fmul q (of_lit 100.0%Q)).

(** The [for size in sizes] loop; [None] when it runs to the end. *)
Fixpoint suggest_loop (table : list (Z * F)) (sizes : list Z)
    (amps volts one_way_length_ft max_drop_pct : F) : result (option (Z * F)) :=
  match sizes with
  | [] => Ok None
  | size :: sizes' =>
      r <- getitem table size ;;
      let v_drop := v_drop_of amps one_way_length_ft r in
      pct <- drop_pct v_drop volts ;;
      if fleb pct max_drop_pct then Ok (Some (size, v_drop))
      else suggest_loop table sizes' amps volts one_way_length_ft max_drop_pct
  end.

Definition suggest_awg (material : string)
    (amps volts one_way_length_ft max_drop_pct : F) : result (Z * F) :=
  let table := table_of material in
  let sizes := sorted_reverse (keys table) in
  found <- suggest_loop table sizes amps volts one_way_length_ft max_drop_pct ;;
  match found with
  | Some answer => Ok answer
  | None =>
      size <- last_item sizes ;;
      r <- getitem table size ;;
      Ok (size, v_drop_of amps one_way_length_ft r)
  end.

(** ** The "Calculate Wire Needs" handler: run aggregation *)

Record Aggregate : Type := mkAggregate {
  sum_runs : F;
  total_slack : F;
  total_cable_feet : F;
  total_conductor_feet : F
}.

(** [fillna(0)]: a blank length counts as 0. *)
Definition fillna0 (cell : option F) : F :=
  match cell with
  | Some x => x
  | None => of_int 0
  end.

Definition aggregate (lengths : list (option F)) (use_round_trip : bool)
    (conductor_count terminations : Z)
    (slack_per_termination vertical_allowance : F) (waste_pct : Z) : Aggregate :=
  let run_lengths := map fillna0 lengths in
  let effective_runs :=
    if use_round_trip then map (fun r => fmul r (of_int 2)) run_lengths
    else run_lengths in
  let sum_runs := py_sum effective_runs in
  let total_slack :=
    fmul (of_int terminations) (fadd slack_per_termination vertical_allowance) in
  let base_total := fadd sum_runs total_slack in
  let total_with_waste :=
    fmul base_total (fadd (of_int 1) (fdiv (of_int waste_pct) (of_lit 100.0%Q))) in
  let total_cable_feet := total_with_waste in
  let total_conductor_feet := fmul total_with_waste (of_int conductor_count) in
  mkAggregate sum_runs total_slack total_cable_feet total_conductor_feet.

End Selector.

Arguments Aggregate F : clear implicits.

Section Handler.

Context {F : Type} `{PyFloat F} `{PyFloatRound F}.

(** ** The handler: per-run voltage drop table *)

(** A row of the runs table; a blank length cell is [None]. *)
Record Run : Type := mkRun {
  run_label : string;
  run_length : option F
}.

(** A row of the voltage-drop table; [""] and [None] are blank cells. *)
Record VdropRow : Type := mkVdropRow {
  vd_label : string;
  vd_one_way : option F;
  vd_size_label : string;
  vd_v_drop : option F;
  vd_pct : option F
}.

(** The body of [for _, row in runs_df.iterrows()].  A blank length cell is
    NaN and fails [length_for_drop > 0], so the call of [suggest_awg] always
    has a length. *)
Definition vdrop_row (mat : string) (amps volts max_drop : F) (row : Run)
    : result VdropRow :=
  let label := run_label row in
  let one_way := run_length row in
  let length_for_drop := one_way in
  let blank := mkVdropRow label one_way ""%string None None in
  if fltb (of_int 0) amps && fltb (of_int 0) volts && cell_gt0 length_for_drop
  then
    match length_for_drop with
    | Some len =>
        ' (size, vdrop) <- suggest_awg mat amps volts len max_drop ;;
        let size_label := awg_label size in
        q <- truediv vdrop volts ;;
        let pct := fmul q (of_int 100) in
        Ok (mkVdropRow label one_way size_label
              (Some (fround vdrop 2)) (Some (fround pct 2)))
    | None => Ok blank
    end
  else Ok blank.

(** ** The handler: packaging plan *)

(** What the handler shows: [st.error], the two [st.success] messages and
    [st.warning]. *)
Inductive notice : Set :=
| ParseError          (* Couldn't parse packaging override. ... *)
| RecommendedPlan     (* Recommended buy plan (rounded up): *)
| SoldByTheFoot       (* Detected sold by the foot. ... *)
| NotDetected.        (* Packaging not detected. ... *)

Record Packaging : Set := mkPackaging {
  notices : list notice;
  plan_rows : list (Z * Z)     (* pack length (ft), quantity *)
}.

(** [sorted({int(x.strip()) for x in manual_pack.split(",") if x.strip()},
    reverse=True)] *)
Definition parse_packs (manual_pack : str) : result (list Z) :=
  let pieces := filter (fun x => truthy (strip x)) (split "," manual_pack) in
  ints <- mapM (fun x => Py.int (strip x)) pieces ;;
  Ok (sorted_reverse (set_of ints)).

(** The [for p in packs] loop: the remaining footage and the plan so far.
    (The loop's [if remaining % p != 0: pass] does nothing.) *)
Fixpoint plan_loop (packs : list Z) (remaining : F) (purchase_plan : list (Z * Z))
    : result (F * list (Z * Z)) :=
  match packs with
  | [] => Ok (remaining, purchase_plan)
  | p :: packs' =>
      size <- int_to_float p ;;
      q <- floordiv remaining size ;;
      count <- ftrunc q ;;
      bought <- int_to_float (count * p) ;;
      plan_loop packs' (fsub remaining bought) (purchase_plan ++ [(p, count)])
  end.

(** [purchase_plan[-1][1] += 1] *)
Fixpoint add_one_smallest (purchase_plan : list (Z * Z)) : list (Z * Z) :=
  match purchase_plan with
  | [] => []
  | [(p, count)] => [(p, count + 1)]
  | row :: rest => row :: add_one_smallest rest
  end.

(** The greedy plan and the rows of [plan_df] with a positive quantity. *)
Definition purchase_plan (packs : list Z) (total_cable_feet : F)
    : result (list (Z * Z)) :=
  ' (remaining, plan) <- plan_loop packs total_cable_feet [] ;;
  let plan := if fltb (of_int 0) remaining then add_one_smallest plan else plan in
  Ok (filter (fun row => 0 <? snd row) plan).

(** The pack sizes the handler plans with, and whether the override failed
    to parse. *)
Definition choose_packs (manual_pack : str) (detected_pack : option Z)
    (detected_pack_unit : option string) : list Z * list notice :=
  if truthy (strip manual_pack) then
    match parse_packs manual_pack with
    | Ok packs => (packs, [])
    | Raise _ => ([], [ParseError])
    end
  else
    match detected_pack, detected_pack_unit with
    | Some p, Some u =>
        if negb (p =? 0) && String.eqb u "ft" then ([p], []) else ([], [])
    | _, _ => ([], [])
    end.

Definition unit_is (detected_pack_unit : option string) (u : string) : bool :=
  match detected_pack_unit with
  | Some v => String.eqb v u
  | None => false
  end.

(** The "Packaging / Buy Helper" part of the handler. *)
Definition packaging (manual_pack : str) (detected_pack : option Z)
    (detected_pack_unit : option string) (total_cable_feet : F)
    : result Packaging :=
  let '(packs, shown) := choose_packs manual_pack detected_pack detected_pack_unit in
  match packs with
  | _ :: _ =>
      plan <- purchase_plan packs total_cable_feet ;;
      Ok (mkPackaging (shown ++ [RecommendedPlan]) plan)
  | [] =>
      if unit_is detected_pack_unit "ft_each"
      then Ok (mkPackaging (shown ++ [SoldByTheFoot]) [])
      else Ok (mkPackaging (shown ++ [NotDetected]) [])
  end.

End Handler.

Arguments Run F : clear implicits.
Arguments VdropRow F : clear implicits.

(** ** The claims' vocabulary *)

Section Vocabulary.

Context {F : Type} `{PyFloat F}.

(** The drop constraint as the specification writes it, for a size code of
    the material's table:
    [(2*amps*(table[size]/1000)*one_way_ft / volts)*100 <= max_drop_pct]. *)
Definition meets_drop (material : string)
    (amps volts one_way_ft max_drop_pct : F) (size : Z) : Prop :=
  exists r,
    getitem (table_of material) size = Ok r /\
    fleb (fmul (fdiv (fmul (fmul (fmul (of_int 2) amps)
                                 (fdiv r (of_lit 1000.0%Q))) one_way_ft) volts)
               (of_lit 100.0%Q))
         max_drop_pct = true.

(** Resistance strictly decreases as the size code decreases. *)
Definition thicker_is_lower (table : list (Z * F)) : Prop :=
  forall a b ra rb,
    getitem table a = Ok ra -> getitem table b = Ok rb ->
    b < a -> fltb rb ra = true.

Definition codes_within (lo hi : Z) (table : list (Z * F)) : Prop :=
  forall a, In a (keys table) -> lo <= a <= hi.

(** The same, decided pair by pair over the size codes of the table. *)
Definition check_pair (table : list (Z * F)) (a b : Z) : bool :=
  match getitem table a, getitem table b with
  | Ok ra, Ok rb => if b <? a then fltb rb ra else true
  | _, _ => true
  end.

Definition check_table (table : list (Z * F)) : bool :=
  forallb (fun a => forallb (check_pair table a) (keys table)) (keys table).

(** The test of the selector's loop body for a resistance [r], when the
    division by [volts] is defined. *)
Definition passes_test (amps volts one_way_ft max_drop_pct r : F) : bool :=
  fleb (fmul (fdiv (v_drop_of amps one_way_ft r) volts) (of_lit 100.0%Q))
       max_drop_pct.

(** The aggregation formulas as the specification writes them. *)
Definition effective_run_ft (round_trip : bool) (run : F) : F :=
  if round_trip then fmul run (of_int 2) else run.

End Vocabulary.

(** The greedy packaging plan as the specification describes it, in exact
    arithmetic: for each size in order take [floor(remaining / size)] packs;
    then one more of the last size when something remains; then drop the
    rows with quantity 0. *)
Fixpoint greedy_counts (packs : list Z) (remaining : Q) : list (Z * Z) * Q :=
  match packs with
  | [] => ([], remaining)
  | size :: packs' =>
      let count := Qfloor (remaining / inject_Z size)%Q in
      let rest := greedy_counts packs' (remaining - inject_Z (count * size))%Q in
      ((size, count) :: fst rest, snd rest)
  end.

Definition greedy_plan (packs : list Z) (total_ft : Q) : list (Z * Z) :=
  let counted := greedy_counts packs total_ft in
  let rows :=
    if Qle_bool (snd counted) 0%Q then fst counted
    else match rev (fst counted) with
         | (size, count) :: earlier => rev earlier ++ [(size, count + 1)]
         | [] => []
         end in
  filter (fun row => 0 <? snd row) rows.

(** Footage a plan covers: the sum of pack length times quantity. *)
Definition plan_feet (plan : list (Z * Z)) : Z :=
  fold_right (fun row acc => fst row * snd row + acc) 0 plan.

(** An override string that reads as a set of positive integers. *)
Definition positive_int_set (manual_pack : str) : Prop :=
  exists packs, parse_packs manual_pack = Ok packs /\ Forall (fun p => 0 < p) packs.

(** Shapes of text. *)
Definition digits (s : str) : Prop := Forall (fun c => is_digit c = true) s.
Definition no_digit (s : str) : Prop := Forall (fun c => is_digit c = false) s.
Definition spaces (s : str) : Prop := Forall (fun c => is_space c = true) s.

(** [s] is the word [w] in some mix of upper and lower case. *)
Definition any_case (w s : str) : Prop := map lower s = map lower w.

(** [s] is empty or starts with a character that is not a word character:
    a word that ends just before [s] ends at a word boundary. *)
Definition word_ends_before (s : str) : Prop := word_at s = false.

(** A gauge that the pattern finds inside [s]: a digit, optional whitespace,
    AWG in any letter case, and then a character of [s] that is not a word
    character. *)
Definition gauge_occurs (s : str) : Prop :=
  exists a d w u c b,
    s = a ++ d :: w ++ u ++ c :: b /\ is_digit d = true /\ spaces w /\
    any_case (text "AWG") u /\ is_word c = false.

(** The same, decided from left to right: [s] starts with AWG and a
    character that is not a word character; a gauge starts at the head of
    [s]; a gauge starts somewhere in [s]. *)
Definition awg_then_other (s : str) : bool :=
  match s with
  | x1 :: x2 :: x3 :: c :: _ =>
      lit_eq true "A" x1 && lit_eq true "W" x2 && lit_eq true "G" x3
      && negb (is_word c)
  | _ => false
  end.

Definition gauge_here (s : str) : bool :=
  match s with
  | d :: s' => is_digit d && awg_then_other (lstrip_of is_space s')
  | [] => false
  end.

Fixpoint has_gauge (s : str) : bool :=
  match s with
  | [] => false
  | _ :: s' => gauge_here s || has_gauge s'
  end.

(** ** Text spec extraction: packaging and material *)

(** One or more: [r+], greedy. *)
Definition plus (r : regex) : regex := Cat r (Star r).

(** The pack length pattern, token by token:
    ( \d{2,5} ) \s* ( ft | feet | FT ) \b
    (its second group is never read, so it is not recorded). *)
Definition PACK_LENGTH_PATTERN : regex :=
  Cat (Grp (Rep 2 5 Digit))
      (Cat (Star Space)
           (Cat (Alt (word (text "ft")) (Alt (word (text "feet")) (word (text "FT"))))
                WordB)).

(** The sold-by-the-foot pattern, token by token:
    \b ( per \s+ foot | by \s+ the \s+ foot | sold \s+ by \s+ foot ) \b *)
Definition PER_FOOT_PATTERN : regex :=
  Cat WordB
      (Cat (Grp (Alt (Cat (word (text "per")) (Cat (plus Space) (word (text "foot"))))
                (Alt (Cat (word (text "by"))
                          (Cat (plus Space)
                               (Cat (word (text "the"))
                                    (Cat (plus Space) (word (text "foot"))))))
                     (Cat (word (text "sold"))
                          (Cat (plus Space)
                               (Cat (word (text "by"))
                                    (Cat (plus Space) (word (text "foot")))))))))
           WordB).

(** Returns [(length_in_ft, unit_label)]. *)
Definition parse_pack_length (txt : str) : result (option Z * option string) :=
  if negb (truthy txt) then Ok (None, None)
  else
    match search true PACK_LENGTH_PATTERN txt with
    | Some m => n <- int_group1 m ;; Ok (Some n, Some "ft"%string)
    | None =>
        match search true PER_FOOT_PATTERN txt with
        | Some _ => Ok (Some 1, Some "ft_each"%string)
        | None => Ok (None, None)
        end
    end.

(** [\b w \b] for a word [w]. *)
Definition whole_word (w : string) : regex :=
  Cat WordB (Cat (word (text w)) WordB).

(** The two material patterns: \bcopper\b|\bcu\b and
    \baluminum\b|\balum\b|\bal\b *)
Definition COPPER_WORDS : regex :=
  Alt (whole_word "copper") (whole_word "cu").

Definition ALUMINUM_WORDS : regex :=
  Alt (whole_word "aluminum") (Alt (whole_word "alum") (whole_word "al")).

Definition detect_material (txt : str) : option string :=
  if negb (truthy txt) then None
  else
    match search true COPPER_WORDS txt with
    | Some _ => Some "copper"%string
    | None =>
        match search true ALUMINUM_WORDS txt with
        | Some _ => Some "aluminum"%string
        | None => None
        end
    end.

(** [re.sub(r, repl, s)] for a pattern [r] that matches no empty string: the
    text is read left to right, each match is replaced and reading goes on
    after it.  (A pattern that can match the empty string is replaced by
    other rules, which are not modelled: such a match is skipped here.) *)
Fixpoint sub_from (ic : bool) (r : regex) (repl : str) (fuel : nat)
    (bef aft : str) : str :=
  match fuel with
  | O => aft
  | S fuel' =>
      let skip :=
        match aft with
        | [] => []
        | c :: aft' => c :: sub_from ic r repl fuel' (c :: bef) aft'
        end in
      match matches ic r (mkpos bef aft None) with
      | m :: _ =>
          if (List.length (after m) <? List.length aft)%nat
          then repl ++ sub_from ic r repl fuel' (before m) (after m)
          else skip
      | [] => skip
      end
  end.

Definition sub (ic : bool) (r : regex) (repl s : str) : str :=
  sub_from ic r repl (S (List.length s)) [] s.

(** [re.sub(r"\s+", " ", s or "").strip()]; [None] is Python's [None]. *)
Definition normalize_space (s : option str) : str :=
  let s := match s with Some x => x | None => [] end in
  strip (sub false (plus Space) (text " ") s).

(** [text[:n]] *)
Definition slice_to (n : nat) (s : str) : str := firstn n s.

(** What [generic_scrape] returns, for the text [soup.get_text(" ")] of the
    page. *)
Record Specs : Set := mkSpecs {
  page_text_preview : str;
  detected_awg : option Z;
  material : option string;
  pack_length_ft : option Z;
  pack_unit : option string
}.

Definition generic_scrape (page_text : str) : result Specs :=
  let txt := normalize_space (Some page_text) in
  awg <- parse_awg txt ;;
  pack0 <- parse_pack_length txt ;;
  pack1 <- parse_pack_length txt ;;
  Ok (mkSpecs (slice_to 4000 txt) awg (detect_material txt)
              (fst pack0) (snd pack1)).

(** ** Ampacity quick reference *)

Definition COPPER_AMPACITY_75C : list (Z * Z) :=
  [(14, 20); (12, 25); (10, 35); (8, 50); (6, 65); (4, 85); (3, 100);
   (2, 115); (1, 130); (0, 150); (-1, 175); (-2, 200); (-3, 230)].

(** ** Vocabulary of the further properties *)

(** The number a string of decimal digits writes. *)
Definition decimal (s : str) : Z :=
  fold_left (fun acc c => acc * 10 + digit_val c) s 0.

(** [s] occurs in [txt] as a whole word, in any letter case: the characters
    next to it, if any, are not word characters. *)
Definition occurs_as_word (w : string) (txt : str) : Prop :=
  exists a s b,
    txt = a ++ s ++ b /\ any_case (text w) s /\
    word_at (rev a) = false /\ word_at b = false.

(** [p] is the given words, each in any letter case, with whitespace (at
    least one character) between one word and the next. *)
Fixpoint phrase (words : list string) (p : str) : Prop :=
  match words with
  | [] => p = []
  | [w] => any_case (text w) p
  | w :: words' =>
      exists s sp p',
        p = s ++ sp ++ p' /\ any_case (text w) s /\
        spaces sp /\ sp <> [] /\ phrase words' p'
  end.

(** The three sold-by-the-foot phrases. *)
Definition per_foot_phrase (p : str) : Prop :=
  phrase ["per"; "foot"]%string p \/ phrase ["by"; "the"; "foot"]%string p \/
  phrase ["sold"; "by"; "foot"]%string p.

(** Every value of a table is above zero. *)
Definition check_positive (table : list (Z * Q)) : bool :=
  forallb (fun kv => negb (Qle_bool (snd kv) 0%Q)) table.

(** [s] starts with a whitespace character. *)
Definition space_at (s : str) : bool :=
  match s with
  | x :: _ => is_space x
  | [] => false
  end.

(** Each run of whitespace replaced by one space, written by recursion on
    the text: a whitespace character followed by another is dropped, the last
    one of a run becomes a space. *)
Fixpoint squeeze (s : str) : str :=
  match s with
  | [] => []
  | c :: s' =>
      if is_space c
      then if space_at s' then squeeze s' else " "%char :: squeeze s'
      else c :: squeeze s'
  end.

(** The characters of [s] that are not whitespace, in order. *)
Definition non_space (s : str) : str := filter (fun c => negb (is_space c)) s.

(** ** The handler: assumed material and ampacity sanity *)

(** [mat]: the override unless it is "auto-detect", else
    [detected_material or "copper"]. *)
Definition assumed_material (material_override : string)
    (detected_material : option string) : string :=
  if negb (String.eqb material_override "auto-detect") then material_override
  else
    match detected_material with
    | Some m => if String.eqb m EmptyString then "copper"%string else m
    | None => "copper"%string
    end.

(** [d.get(k)] *)
Definition get {V : Type} (d : list (Z * V)) (k : Z) : option V :=
  match getitem d k with
  | Ok v => Some v
  | Raise _ => None
  end.

(** What the ampacity block shows: [st.warning], [st.info] or [st.caption],
    with the gauge and the quick-reference ampacity the message names. *)
Inductive ampacity_note : Set :=
| MayBeUndersized (awg ampacity : Z)
| QuickCheck (awg ampacity : Z)
| CopperOnly.

Definition ampacity_sanity {F : Type} `{PyFloat F}
    (detected_awg : option Z) (mat : string) (amps : F) : option ampacity_note :=
  match detected_awg with
  | Some awg =>
      let ampacity :=
        if String.eqb mat "copper" then get COPPER_AMPACITY_75C awg else None in
      match ampacity with
      | Some a =>
          if negb (a =? 0) then
            if fltb (of_int a) amps then Some (MayBeUndersized awg a)
            else Some (QuickCheck awg a)
          else Some CopperOnly
      | None => Some CopperOnly
      end
  | None => None
  end.

(* ================================================================== *)
(** * Part 2. Properties *)
(* ================================================================== *)

(** ** Comparison with zero in the two float implementations *)

#[export] Instance Q_float_order : PyFloatOrder Q.
Proof.
  split; cbn; intros x Hx.
  - apply negb_true_iff in Hx.
    destruct (Qeq_bool x 0) eqn:E; [|reflexivity].
    apply Qeq_bool_iff in E.
    assert (Hle : (x <= inject_Z 0)%Q) by (rewrite E; apply Qle_refl).
    apply Qle_bool_iff in Hle. congruence.
  - apply negb_false_iff. exact Hx.
Qed.

Lemma float_of_Z_0 : float_of_Z 0 = PrimFloat.zero.
Proof. reflexivity. Qed.

#[export] Instance binary64_order : PyFloatOrder float.
Proof.
  split; intros x; cbn [of_int is_zero fltb fleb binary64];
    rewrite float_of_Z_0.
  - rewrite ltb_spec, eqb_spec.
    change (Prim2SF PrimFloat.zero) with (S754_zero false).
    destruct (Prim2SF x) as [s| s | |s m e]; cbn; try discriminate;
      destruct s; intros; try discriminate; reflexivity.
  - rewrite ltb_spec, leb_spec.
    change (Prim2SF PrimFloat.zero) with (S754_zero false).
    destruct (Prim2SF x) as [s| s | |s m e]; cbn; try reflexivity;
      destruct s; intros; try discriminate; reflexivity.
Qed.

(** ** Facts about the built-ins *)

Lemma bind_Ok {A B : Type} (c : result A) (k : A -> result B) (b : B) :
  bind c k = Ok b -> exists a, c = Ok a /\ k a = Ok b.
Proof.
  destruct c as [a|e]; cbn; intros Hk; [now exists a | discriminate].
Qed.

Lemma insert_desc_perm (x : Z) (l : list Z) :
  Permutation (x :: l) (insert_desc x l).
Proof.
  induction l as [|y l IH]; cbn; [reflexivity|].
  destruct (y <? x); [reflexivity|].
  rewrite perm_swap. now constructor.
Qed.

Lemma sorted_reverse_perm (l : list Z) : Permutation l (sorted_reverse l).
Proof.
  induction l as [|x l IH]; cbn; [constructor|].
  rewrite <- insert_desc_perm. now constructor.
Qed.

Lemma sorted_reverse_In (x : Z) (l : list Z) :
  In x (sorted_reverse l) <-> In x l.
Proof.
  split; apply Permutation_in;
    [symmetry|]; apply sorted_reverse_perm.
Qed.

Lemma insert_desc_sorted (x : Z) (l : list Z) :
  StronglySorted Z.ge l -> StronglySorted Z.ge (insert_desc x l).
Proof.
  induction 1 as [|y l Hs IH Hy]; cbn.
  - repeat constructor.
  - destruct (y <? x) eqn:E.
    + apply Z.ltb_lt in E. constructor; [now constructor|].
      constructor; [lia|].
      rewrite Forall_forall in *. intros z Hz. specialize (Hy z Hz). lia.
    + apply Z.ltb_ge in E. constructor; [exact IH|].
      rewrite Forall_forall in *. intros z Hz.
      apply (Permutation_in _ (Permutation_sym (insert_desc_perm x l))) in Hz.
      destruct Hz as [<- | Hz]; [lia | now apply Hy].
Qed.

Lemma sorted_reverse_sorted (l : list Z) : StronglySorted Z.ge (sorted_reverse l).
Proof.
  induction l as [|x l IH]; cbn; [constructor | now apply insert_desc_sorted].
Qed.

Lemma last_item_least (l : list Z) (m : Z) :
  StronglySorted Z.ge l -> last_item l = Ok m ->
  In m l /\ forall x, In x l -> m <= x.
Proof.
  induction 1 as [|y l Hs IH Hy]; cbn; [discriminate|].
  destruct l as [|z l'].
  - intros [= <-]. split; [now left|]. intros x [<- | []]. lia.
  - intros Hm. destruct (IH Hm) as [Hin Hle]. split; [now right|].
    intros x [<- | Hx]; [|now apply Hle].
    rewrite Forall_forall in Hy. specialize (Hy m Hin). lia.
Qed.

Lemma getitem_of_key {V : Type} (d : list (Z * V)) (k : Z) :
  In k (keys d) -> exists v, getitem d k = Ok v.
Proof.
  induction d as [|[k' v'] d IH]; cbn; [tauto|].
  intros [<- | Hin].
  - rewrite Z.eqb_refl. now exists v'.
  - destruct (k' =? k); [now exists v' | now apply IH].
Qed.

Lemma getitem_is_key {V : Type} (d : list (Z * V)) (k : Z) (v : V) :
  getitem d k = Ok v -> In k (keys d).
Proof.
  induction d as [|[k' v'] d IH]; cbn; [discriminate|].
  destruct (k' =? k) eqn:E; [apply Z.eqb_eq in E; now left | right; now apply IH].
Qed.

(** ** Gauge label *)

(** C9: every non-negative size code [n] renders as its decimal numeral
    followed by " AWG" (0 as "0 AWG", 6 as "6 AWG"), and the codes -1, -2 and
    -3 render as "2/0 AWG", "3/0 AWG" and "4/0 AWG". *)
Theorem awg_label_renders :
  (forall n, 0 <= n -> awg_label n = (str_of_int n ++ " AWG")%string) /\
  awg_label 0 = "0 AWG"%string /\
  awg_label 6 = "6 AWG"%string /\
  awg_label (-1) = "2/0 AWG"%string /\
  awg_label (-2) = "3/0 AWG"%string /\
  awg_label (-3) = "4/0 AWG"%string.
Proof.
  split.
  - intros n Hn. unfold awg_label.
    apply Z.leb_le in Hn. now rewrite Hn.
  - repeat split; reflexivity.
Qed.

Lemma awg_label_renders_witness :
  0 <= 14 /\ awg_label 14 = "14 AWG"%string.
Proof.
  split; [lia|].
  exact (proj1 awg_label_renders 14 ltac:(lia)).
Defined.

(** ** Resistance tables *)

Section TableCheck.

Context {F : Type} `{PyFloat F}.

Lemma check_table_sound (table : list (Z * F)) :
  check_table table = true -> thicker_is_lower table.
Proof.
  unfold check_table. rewrite forallb_forall.
  intros Hall a b ra rb Ha Hb Hlt.
  specialize (Hall a (getitem_is_key _ _ _ Ha)).
  rewrite forallb_forall in Hall.
  specialize (Hall b (getitem_is_key _ _ _ Hb)).
  unfold check_pair in Hall. rewrite Ha, Hb in Hall.
  apply Z.ltb_lt in Hlt. now rewrite Hlt in Hall.
Qed.

Lemma codes_within_check (lo hi : Z) (table : list (Z * F)) :
  forallb (fun a => (lo <=? a) && (a <=? hi)) (keys table) = true ->
  codes_within lo hi table.
Proof.
  rewrite forallb_forall. intros Hall a Ha.
  specialize (Hall a Ha). apply andb_true_iff in Hall. lia.
Qed.

End TableCheck.

(** C7: in the copper and in the aluminum table the size codes lie between
    -3 and 14, and whenever [a > b] are two codes of a table the resistance
    at [a] is strictly greater than the resistance at [b]; this holds for the
    table values read exactly and read as binary64 floats. *)
Theorem resistance_decreases_with_size_code :
  (thicker_is_lower (COPPER_OHMS_PER_KFT (F := Q)) /\
   thicker_is_lower (AL_OHMS_PER_KFT (F := Q))) /\
  (thicker_is_lower (COPPER_OHMS_PER_KFT (F := float)) /\
   thicker_is_lower (AL_OHMS_PER_KFT (F := float))) /\
  (codes_within (-3) 14 (COPPER_OHMS_PER_KFT (F := Q)) /\
   codes_within (-3) 14 (AL_OHMS_PER_KFT (F := Q))).
Proof.
  split; [|split]; split.
  - apply check_table_sound. vm_compute. reflexivity.
  - apply check_table_sound. vm_compute. reflexivity.
  - apply check_table_sound. vm_compute. reflexivity.
  - apply check_table_sound. vm_compute. reflexivity.
  - apply codes_within_check. vm_compute. reflexivity.
  - apply codes_within_check. vm_compute. reflexivity.
Qed.

(** The table values as binary64 floats are the floats the literals denote. *)
Lemma tables_binary64 :
  map snd (COPPER_OHMS_PER_KFT (F := float)) =
    [2.525; 1.588; 0.999; 0.6282; 0.3951; 0.2485; 0.1970; 0.1563; 0.1239;
     0.0983; 0.0779; 0.0618; 0.0490]%float /\
  map snd (AL_OHMS_PER_KFT (F := float)) =
    [2.52; 1.588; 0.999; 0.6282; 0.3951; 0.3133; 0.2485; 0.1970; 0.1563;
     0.1239; 0.0983; 0.0779]%float.
Proof. split; vm_compute; reflexivity. Qed.

(** ** The gauge selector *)

Section SelectorFacts.

Context {F : Type} `{PyFloat F} `{!PyFloatOrder F}.

Variables (table : list (Z * F)) (amps volts one_way_ft max_drop_pct : F).

Hypothesis volts_nonzero : is_zero volts = false.

Local Abbreviation fits := (passes_test amps volts one_way_ft max_drop_pct).

Lemma drop_pct_defined (v : F) :
  drop_pct v volts = Ok (fmul (fdiv v volts) (of_lit 100.0%Q)).
Proof.
  unfold drop_pct, truediv. now rewrite volts_nonzero.
Qed.

(** The loop returns the first size that fits, or runs to the end when none
    does. *)
Lemma suggest_loop_first (sizes : list Z) :
  (forall s, In s sizes -> In s (keys table)) ->
  (exists pre s post r,
      sizes = pre ++ s :: post /\
      getitem table s = Ok r /\ fits r = true /\
      (forall x rx, In x pre -> getitem table x = Ok rx -> fits rx = false) /\
      suggest_loop table sizes amps volts one_way_ft max_drop_pct
        = Ok (Some (s, v_drop_of amps one_way_ft r)))
  \/
  ((forall x rx, In x sizes -> getitem table x = Ok rx -> fits rx = false) /\
   suggest_loop table sizes amps volts one_way_ft max_drop_pct = Ok None).
Proof.
  induction sizes as [|s sizes IH]; intros Hkeys.
  - right. split; [intros x rx []|reflexivity].
  - destruct (getitem_of_key table s (Hkeys s (or_introl eq_refl))) as [r Hr].
    cbn [suggest_loop]. rewrite Hr. cbn [bind]. rewrite drop_pct_defined.
    cbn [bind]. fold (passes_test amps volts one_way_ft max_drop_pct r).
    destruct (fits r) eqn:Hfit.
    + left. exists [], s, sizes, r. cbn. repeat split; auto.
      intros x rx [].
    + destruct IH as [(pre & s' & post & r' & Hsplit & Hr' & Hfit' & Hpre & Hrun)
                     | (Hnone & Hrun)].
      * intros x Hx. apply Hkeys. now right.
      * left. exists (s :: pre), s', post, r'. subst sizes.
        repeat split; auto.
        intros x rx [<- | Hx] Hgx; [congruence | eauto].
      * right. split; [|exact Hrun].
        intros x rx [<- | Hx] Hgx; [congruence | eauto].
Qed.

End SelectorFacts.

Lemma sorted_app_ge (pre post : list Z) (s x : Z) :
  StronglySorted Z.ge (pre ++ s :: post) -> In x (s :: post) -> x <= s.
Proof.
  induction pre as [|y pre IH]; cbn; intros Hs Hx.
  - inversion Hs as [|? ? _ Hall]; subst.
    destruct Hx as [<- | Hx]; [lia|].
    rewrite Forall_forall in Hall. specialize (Hall x Hx). lia.
  - inversion Hs; subst. now apply IH.
Qed.

(** Both tables end, in descending order of size code, at -3. *)
Lemma thickest_is_4_0 {F : Type} `{PyFloat F} (material : string) :
  last_item (sorted_reverse (keys (table_of (F := F) material))) = Ok (-3).
Proof.
  unfold table_of. destruct (String.eqb material "aluminum"); reflexivity.
Qed.

(** C1: for amps, volts and one-way length above zero, when some size code
    of the material's table meets the drop constraint, [suggest_awg] returns
    the largest size code that meets it, with the drop in volts
    [2*amps*(table[size]/1000)*one_way_ft] of that code. *)
Theorem suggest_awg_largest_fitting_code
    {F : Type} `{PyFloat F} `{!PyFloatOrder F}
    (material : string) (amps volts one_way_ft max_drop_pct : F) :
  fltb (of_int 0) amps = true ->
  fltb (of_int 0) volts = true ->
  fltb (of_int 0) one_way_ft = true ->
  (exists size, In size (keys (table_of (F := F) material)) /\
                meets_drop material amps volts one_way_ft max_drop_pct size) ->
  exists size r,
    suggest_awg material amps volts one_way_ft max_drop_pct
      = Ok (size, fmul (fmul (fmul (of_int 2) amps) (fdiv r (of_lit 1000.0%Q)))
                       one_way_ft) /\
    getitem (table_of material) size = Ok r /\
    meets_drop material amps volts one_way_ft max_drop_pct size /\
    forall size',
      meets_drop material amps volts one_way_ft max_drop_pct size' ->
      size' <= size.
Proof.
  intros _ Hvolts _ (s0 & Hs0 & r0 & Hr0 & Hfit0).
  apply gt0_nonzero in Hvolts.
  set (table := table_of material) in *.
  set (sizes := sorted_reverse (keys table)).
  assert (Hkeys : forall s, In s sizes -> In s (keys table))
    by (intros s; apply sorted_reverse_In).
  destruct (suggest_loop_first table amps volts one_way_ft max_drop_pct
              Hvolts sizes Hkeys)
    as [(pre & s & post & r & Hsplit & Hr & Hfit & Hpre & Hrun) | (Hnone & _)].
  - exists s, r. repeat split.
    + unfold suggest_awg. fold table. fold sizes. rewrite Hrun. reflexivity.
    + exact Hr.
    + exists r. split; [exact Hr | exact Hfit].
    + intros s' (r' & Hr' & Hfit').
      assert (Hin : In s' sizes)
        by (apply sorted_reverse_In; eapply getitem_is_key; eauto).
      rewrite Hsplit in Hin. apply in_app_or in Hin.
      destruct Hin as [Hin | Hin].
      * specialize (Hpre s' r' Hin Hr'). unfold passes_test, v_drop_of in Hpre.
        congruence.
      * eapply sorted_app_ge; [|exact Hin].
        rewrite <- Hsplit. apply sorted_reverse_sorted.
  - exfalso.
    assert (Hin : In s0 sizes) by (now apply sorted_reverse_In).
    specialize (Hnone s0 r0 Hin Hr0). unfold passes_test, v_drop_of in Hnone.
    congruence.
Qed.

(** C4: for amps, volts and one-way length above zero, when no size code of
    the material's table meets the drop constraint, [suggest_awg] still
    returns: the size code -3 (4/0), which is the smallest code of the table,
    with the drop in volts computed for it, which exceeds the constraint. *)
Theorem suggest_awg_falls_back_to_thickest
    {F : Type} `{PyFloat F} `{!PyFloatOrder F}
    (material : string) (amps volts one_way_ft max_drop_pct : F) :
  fltb (of_int 0) amps = true ->
  fltb (of_int 0) volts = true ->
  fltb (of_int 0) one_way_ft = true ->
  (forall size, In size (keys (table_of (F := F) material)) ->
                ~ meets_drop material amps volts one_way_ft max_drop_pct size) ->
  exists r,
    suggest_awg material amps volts one_way_ft max_drop_pct
      = Ok (-3, fmul (fmul (fmul (of_int 2) amps) (fdiv r (of_lit 1000.0%Q)))
                     one_way_ft) /\
    getitem (table_of material) (-3) = Ok r /\
    (forall size, In size (keys (table_of (F := F) material)) -> -3 <= size) /\
    fleb (fmul (fdiv (fmul (fmul (fmul (of_int 2) amps)
                                 (fdiv r (of_lit 1000.0%Q))) one_way_ft) volts)
               (of_lit 100.0%Q))
         max_drop_pct = false.
Proof.
  intros _ Hvolts _ Hnone.
  apply gt0_nonzero in Hvolts.
  set (table := table_of material) in *.
  set (sizes := sorted_reverse (keys table)).
  assert (Hkeys : forall s, In s sizes -> In s (keys table))
    by (intros s; apply sorted_reverse_In).
  pose proof (thickest_is_4_0 (F := F) material) as Hlast.
  fold table in Hlast. fold sizes in Hlast.
  destruct (last_item_least sizes (-3) (sorted_reverse_sorted _) Hlast)
    as [Hin3 Hleast].
  destruct (getitem_of_key table (-3) (Hkeys _ Hin3)) as [r Hr].
  exists r.
  destruct (suggest_loop_first table amps volts one_way_ft max_drop_pct
              Hvolts sizes Hkeys)
    as [(pre & s & post & r' & Hsplit & Hr' & Hfit & _ & _) | (Hall & Hrun)].
  - exfalso. apply (Hnone s).
    + eapply getitem_is_key; eauto.
    + exists r'. split; [exact Hr' | exact Hfit].
  - repeat split.
    + unfold suggest_awg. fold table. fold sizes. rewrite Hrun. cbn [bind].
      rewrite Hlast. cbn [bind]. rewrite Hr. reflexivity.
    + exact Hr.
    + intros size Hsize. apply Hleast. now apply sorted_reverse_In.
    + exact (Hall (-3) r Hin3 Hr).
Qed.

Ltac is_key :=
  cbv; repeat (first [left; reflexivity | right]).

Lemma suggest_awg_largest_fitting_code_witness :
  suggest_awg (F := float) "copper" 20%float 120%float 100%float 3%float = Ok (8, 2.5128%float) /\
  exists size r,
    suggest_awg (F := float) "copper" 20%float 120%float 100%float 3%float
      = Ok (size, fmul (fmul (fmul (of_int 2) 20%float)
                             (fdiv r (of_lit 1000.0%Q))) 100%float) /\
    getitem (table_of "copper") size = Ok r /\
    meets_drop (F := float) "copper" 20%float 120%float 100%float 3%float size /\
    forall size',
      meets_drop (F := float) "copper" 20%float 120%float 100%float 3%float size' -> size' <= size.
Proof.
  split; [vm_compute; reflexivity|].
  apply (suggest_awg_largest_fitting_code (F := float) "copper" 20%float 120%float 100%float 3%float);
    try (vm_compute; reflexivity).
  exists 8. split; [is_key|].
  exists 0.6282%float. split; vm_compute; reflexivity.
Defined.

Lemma suggest_awg_falls_back_to_thickest_witness :
  suggest_awg (F := float) "copper" 200%float 12%float 1000%float 1%float = Ok (-3, 19.6%float) /\
  exists r,
    suggest_awg (F := float) "copper" 200%float 12%float 1000%float 1%float
      = Ok (-3, fmul (fmul (fmul (of_int 2) 200%float)
                           (fdiv r (of_lit 1000.0%Q))) 1000%float) /\
    getitem (table_of "copper") (-3) = Ok r /\
    (forall size, In size (keys (table_of (F := float) "copper")) -> -3 <= size) /\
    fleb (fmul (fdiv (fmul (fmul (fmul (of_int 2) 200%float)
                                 (fdiv r (of_lit 1000.0%Q))) 1000%float)
                     12%float)
               (of_lit 100.0%Q))
         1%float = false.
Proof.
  split; [vm_compute; reflexivity|].
  apply (suggest_awg_falls_back_to_thickest (F := float) "copper" 200%float 12%float 1000%float 1%float);
    try (vm_compute; reflexivity).
  intros size Hin (r & Hr & Hle).
  vm_compute in Hin.
  repeat (destruct Hin as [<- | Hin];
          [vm_compute in Hr; injection Hr as <-; vm_compute in Hle; discriminate|]).
  exact Hin.
Defined.

(** ** Run aggregation *)

Lemma map_effective_run {F : Type} `{PyFloat F} (round_trip : bool) (runs : list F) :
  (if round_trip then map (fun r => fmul r (of_int 2)) runs else runs)
  = map (effective_run_ft round_trip) runs.
Proof.
  destruct round_trip; cbn.
  - reflexivity.
  - induction runs as [|r runs IH]; cbn; [reflexivity | now rewrite <- IH].
Qed.

(** C2: the aggregation computes [sum_runs] as the sum of the effective runs
    ([run*2] when round-trip, [run] otherwise),
    [slack = terminations * (slack_per_termination + vertical_allowance)],
    [total_cable = (sum_runs + slack) * (1 + waste_pct/100)] and
    [total_conductor = total_cable * conductor_count]; the runs 50, 75, 100
    with round-trip on give [sum_runs = 450], in binary64 and in exact
    arithmetic. *)
Theorem aggregate_formulas :
  (forall (F : Type) (PF : PyFloat F) (lengths : list (option F))
          (round_trip : bool) (conductor_count terminations : Z)
          (slack_per_termination vertical_allowance : F) (waste_pct : Z),
      let a := aggregate lengths round_trip conductor_count terminations
                 slack_per_termination vertical_allowance waste_pct in
      sum_runs a
        = py_sum (map (effective_run_ft round_trip) (map fillna0 lengths)) /\
      total_slack a
        = fmul (of_int terminations)
               (fadd slack_per_termination vertical_allowance) /\
      total_cable_feet a
        = fmul (fadd (sum_runs a) (total_slack a))
               (fadd (of_int 1) (fdiv (of_int waste_pct) (of_lit 100.0%Q))) /\
      total_conductor_feet a
        = fmul (total_cable_feet a) (of_int conductor_count)) /\
  (forall (conductor_count terminations : Z) (slack vertical : float)
          (waste_pct : Z),
      sum_runs (aggregate (F := float) [Some 50; Some 75; Some 100]%float true
                  conductor_count terminations slack vertical waste_pct)
      = 450%float) /\
  (forall (conductor_count terminations : Z) (slack vertical : Q)
          (waste_pct : Z),
      sum_runs (aggregate (F := Q) [Some 50; Some 75; Some 100]%Q true
                  conductor_count terminations slack vertical waste_pct)
      = 450%Q).
Proof.
  split; [|split].
  - intros F PF lengths round_trip cc terms slack vert waste a.
    subst a. unfold aggregate. cbn [sum_runs total_slack total_cable_feet
                                    total_conductor_feet].
    rewrite map_effective_run. repeat split; reflexivity.
  - intros. vm_compute. reflexivity.
  - intros. vm_compute. reflexivity.
Qed.

(** ** Per-run voltage drop row *)

(** C6: for a run row, when amps <= 0, volts <= 0 or the one-way length
    <= 0, the handler does not call the selector: the row comes out with the
    suggested gauge and both drop cells blank, and nothing is raised. *)
Theorem vdrop_row_blank_without_positive_inputs
    {F : Type} `{PyFloat F} `{PyFloatRound F} `{!PyFloatOrder F}
    (mat : string) (amps volts max_drop : F) (row : Run F) :
  fleb amps (of_int 0) = true \/
  fleb volts (of_int 0) = true \/
  (exists one_way, run_length row = Some one_way /\
                   fleb one_way (of_int 0) = true) ->
  vdrop_row mat amps volts max_drop row
  = Ok (mkVdropRow (run_label row) (run_length row) "" None None).
Proof.
  intros Hnot. unfold vdrop_row.
  assert (Hguard : fltb (of_int 0) amps && fltb (of_int 0) volts
                   && cell_gt0 (run_length row) = false).
  { destruct Hnot as [Ha | [Hv | (l & Hl & Hle)]].
    - now rewrite (le0_not_gt0 _ Ha).
    - rewrite (le0_not_gt0 _ Hv). now rewrite andb_false_r.
    - rewrite Hl. cbn [cell_gt0]. rewrite (le0_not_gt0 _ Hle).
      now rewrite andb_false_r. }
  now rewrite Hguard.
Qed.

Lemma vdrop_row_blank_without_positive_inputs_witness :
  suggest_awg (F := Q) "copper" 15%Q 0%Q 50%Q 3%Q = Raise ZeroDivisionError /\
  vdrop_row (F := Q) "copper" 15%Q 0%Q 3%Q (mkRun "Run 1" (Some 50%Q))
  = Ok (mkVdropRow "Run 1" (Some 50%Q) "" None None).
Proof.
  split; [vm_compute; reflexivity|].
  apply (vdrop_row_blank_without_positive_inputs (F := Q)
           "copper" 15%Q 0%Q 3%Q (mkRun "Run 1" (Some 50%Q))).
  right. left. vm_compute. reflexivity.
Defined.

(** ** Packaging plan, in exact arithmetic *)

Lemma inject_Z_nonzero (p : Z) : p <> 0 -> Qeq_bool (inject_Z p) 0%Q = false.
Proof.
  intros Hp. destruct (Qeq_bool (inject_Z p) 0%Q) eqn:E; [|reflexivity].
  apply Qeq_bool_iff in E. unfold Qeq in E. cbn in E. lia.
Qed.

(** One step of the greedy loop: the count is not negative, and what remains
    lies in [0, size). *)
Lemma floor_step (r : Q) (p : Z) :
  (0 <= r)%Q -> 0 < p ->
  let count := Qfloor (r / inject_Z p)%Q in
  0 <= count /\
  (inject_Z (count * p) <= r)%Q /\
  (r < inject_Z (count * p) + inject_Z p)%Q.
Proof.
  intros Hr Hp count.
  assert (HpQ : (inject_Z 0 < inject_Z p)%Q) by (now rewrite <- Zlt_Qlt).
  change (inject_Z 0) with 0%Q in HpQ.
  assert (Hne : ~ (inject_Z p == 0)%Q) by (intros E; rewrite E in HpQ; lra).
  set (x := (r / inject_Z p)%Q) in *.
  assert (Hx : (x * inject_Z p == r)%Q).
  { unfold x. rewrite Qmult_comm. now apply Qmult_div_r. }
  assert (Hx0 : (0 <= x)%Q).
  { unfold x. apply Qle_shift_div_l; [exact HpQ | lra]. }
  repeat split.
  - change 0 with (Qfloor 0%Q). now apply Qfloor_resp_le.
  - rewrite inject_Z_mult, <- Hx.
    apply Qmult_le_compat_r; [apply Qfloor_le | lra].
  - rewrite inject_Z_mult, <- Hx.
    setoid_replace (inject_Z count * inject_Z p + inject_Z p)%Q
      with (inject_Z (count + 1) * inject_Z p)%Q
      by (rewrite inject_Z_plus; ring).
    apply Qmult_lt_compat_r; [exact HpQ | apply Qlt_floor].
Qed.

(** The loop of the handler computes the counts of the specification. *)
Lemma plan_loop_counts (packs : list Z) :
  Forall (fun p => 0 < p) packs ->
  forall (remaining : Q) (acc : list (Z * Z)),
    plan_loop (F := Q) packs remaining acc
    = Ok (snd (greedy_counts packs remaining),
          acc ++ fst (greedy_counts packs remaining)).
Proof.
  induction 1 as [|p packs Hp _ IH]; intros remaining acc.
  - cbn. now rewrite app_nil_r.
  - cbn [plan_loop greedy_counts fst snd int_to_float Q_float_round bind].
    unfold floordiv. cbn [is_zero Q_float].
    rewrite inject_Z_nonzero by lia.
    cbn [bind ffloordiv ftrunc int_to_float Q_float_round inject_Z Qnum Qden].
    rewrite Z.quot_1_r.
    cbn [fsub Q_float].
    rewrite IH. now rewrite <- app_assoc.
Qed.

Lemma add_one_smallest_last (rows : list (Z * Z)) (p count : Z) :
  add_one_smallest (rows ++ [(p, count)]) = rows ++ [(p, count + 1)].
Proof.
  induction rows as [|row rows IH]; [reflexivity|].
  cbn [app add_one_smallest]. rewrite IH.
  destruct row as [p' c']. destruct (rows ++ [(p, count)]) eqn:E; [|reflexivity].
  now destruct rows.
Qed.

Lemma add_one_smallest_rev (rows : list (Z * Z)) :
  add_one_smallest rows
  = match rev rows with
    | (size, count) :: earlier => rev earlier ++ [(size, count + 1)]
    | [] => []
    end.
Proof.
  destruct (rev rows) as [|[p c] earlier] eqn:E.
  - apply (f_equal (@rev _)) in E. rewrite rev_involutive in E. now subst.
  - apply (f_equal (@rev _)) in E. rewrite rev_involutive in E. cbn in E.
    subst rows. apply add_one_smallest_last.
Qed.

Lemma purchase_plan_greedy (packs : list Z) (total_ft : Q) :
  Forall (fun p => 0 < p) packs ->
  purchase_plan (F := Q) packs total_ft = Ok (greedy_plan packs total_ft).
Proof.
  intros Hpos. unfold purchase_plan, greedy_plan.
  rewrite (plan_loop_counts packs Hpos). cbn [bind app].
  cbn [fltb of_int Q_float].
  change (inject_Z 0) with 0%Q.
  destruct (Qle_bool (snd (greedy_counts packs total_ft)) 0%Q); cbn [negb].
  - reflexivity.
  - now rewrite add_one_smallest_rev.
Qed.

Lemma greedy_counts_sizes (packs : list Z) (r : Q) :
  map fst (fst (greedy_counts packs r)) = packs.
Proof.
  revert r. induction packs as [|p packs IH]; intros r; cbn; [reflexivity|].
  now rewrite IH.
Qed.

(** What the counts add up to, and what is left over. *)
Lemma greedy_counts_sum (packs : list Z) :
  Forall (fun p => 0 < p) packs ->
  forall r : Q, (0 <= r)%Q ->
    let rows := fst (greedy_counts packs r) in
    let left := snd (greedy_counts packs r) in
    (r == inject_Z (plan_feet rows) + left)%Q /\
    (0 <= left)%Q /\
    Forall (fun row => 0 <= snd row) rows /\
    (forall earlier p count,
        rows = earlier ++ [(p, count)] -> (left < inject_Z p)%Q).
Proof.
  induction 1 as [|p packs Hp Hpacks IH]; intros r Hr.
  - cbn. repeat split; [ring | exact Hr | constructor |].
    intros earlier p count E. now destruct earlier.
  - cbn [greedy_counts fst snd].
    destruct (floor_step r p Hr Hp) as (Hc & Hlo & Hhi).
    set (count := Qfloor (r / inject_Z p)%Q) in *.
    set (r' := (r - inject_Z (count * p))%Q).
    assert (Hdef : (r' == r - inject_Z (count * p))%Q) by reflexivity.
    clearbody r'.
    assert (Hr' : (0 <= r')%Q) by lra.
    destruct (IH r' Hr') as (Hsum & Hleft & Hnn & Hlast).
    repeat split.
    + cbn [plan_feet fold_right fst snd]. fold (plan_feet (fst (greedy_counts packs r'))).
      rewrite inject_Z_plus, (Z.mul_comm p count). lra.
    + exact Hleft.
    + constructor; [exact Hc | exact Hnn].
    + intros earlier q c E.
      destruct earlier as [|row earlier]; cbn in E.
      * injection E as <- <- Hnil.
        destruct packs as [|p2 packs]; [|discriminate Hnil].
        cbn. lra.
      * injection E as _ E. exact (Hlast earlier q c E).
Qed.

Lemma plan_feet_app (rows rows' : list (Z * Z)) :
  plan_feet (rows ++ rows') = plan_feet rows + plan_feet rows'.
Proof.
  induction rows as [|row rows IH]; cbn; [reflexivity|].
  fold (plan_feet (rows ++ rows')). fold (plan_feet rows). lia.
Qed.

Lemma plan_feet_filter (rows : list (Z * Z)) :
  Forall (fun row => 0 <= snd row) rows ->
  plan_feet (filter (fun row => 0 <? snd row) rows) = plan_feet rows.
Proof.
  induction 1 as [|row rows Hrow _ IH]; [reflexivity|].
  cbn [filter]. destruct (0 <? snd row) eqn:E; cbn [plan_feet fold_right].
  - fold (plan_feet rows). fold (plan_feet (filter (fun row => 0 <? snd row) rows)).
    now rewrite IH.
  - fold (plan_feet rows). apply Z.ltb_ge in E.
    replace (snd row) with 0 by lia. lia.
Qed.

Lemma set_of_nonempty (sizes : list Z) :
  sizes <> [] -> sorted_reverse (set_of sizes) <> [].
Proof.
  intros Hne. destruct sizes as [|p sizes]; [congruence|].
  intros E.
  assert (Hin : In p (sorted_reverse (set_of (p :: sizes)))).
  { apply (proj2 (sorted_reverse_In _ _)). unfold set_of.
    apply (proj2 (nodup_In _ _ _)). now left. }
  now rewrite E in Hin.
Qed.

Lemma set_of_Forall (P : Z -> Prop) (sizes : list Z) :
  Forall P sizes -> Forall P (sorted_reverse (set_of sizes)).
Proof.
  intros HP. rewrite Forall_forall in *. intros p Hp. apply HP.
  apply (proj1 (sorted_reverse_In _ _)) in Hp. unfold set_of in Hp.
  now apply (proj1 (nodup_In _ _ _)) in Hp.
Qed.

(** The plan of the specification covers the total. *)
Lemma greedy_plan_covers (packs : list Z) (total_ft : Q) :
  (0 < total_ft)%Q ->
  packs <> [] ->
  Forall (fun p => 0 < p) packs ->
  (total_ft <= inject_Z (plan_feet (greedy_plan packs total_ft)))%Q.
Proof.
  intros Htotal Hpacks_ne Hpacks_pos.
  assert (H0 : (0 <= total_ft)%Q) by lra.
  destruct (greedy_counts_sum packs Hpacks_pos total_ft H0)
    as (Hsum & Hleft & Hnn & Hlast).
  unfold greedy_plan.
  set (rows := fst (greedy_counts packs total_ft)) in *.
  set (left := snd (greedy_counts packs total_ft)) in *.
  destruct (Qle_bool left 0%Q) eqn:E.
  - apply Qle_bool_iff in E. rewrite plan_feet_filter by exact Hnn. lra.
  - assert (Hpos_left : (0 < left)%Q).
    { apply Qnot_le_lt. intros Hle. apply Qle_bool_iff in Hle. congruence. }
    destruct (rev rows) as [|[p count] earlier] eqn:Erev.
    + apply (f_equal (@rev _)) in Erev. rewrite rev_involutive in Erev.
      cbn in Erev. exfalso. apply Hpacks_ne.
      rewrite <- (greedy_counts_sizes packs total_ft). fold rows.
      now rewrite Erev.
    + apply (f_equal (@rev _)) in Erev. rewrite rev_involutive in Erev.
      cbn in Erev.
      specialize (Hlast (rev earlier) p count Erev).
      rewrite Erev in Hnn. apply Forall_app in Hnn. destruct Hnn as [Hnn1 Hnn2].
      inversion Hnn2 as [|? ? Hc _]; subst. cbn in Hc.
      rewrite plan_feet_filter.
      * rewrite Erev, plan_feet_app in Hsum. rewrite plan_feet_app.
        cbn [plan_feet fold_right fst snd] in *.
        rewrite !inject_Z_plus, !inject_Z_mult in *.
        rewrite !inject_Z_plus.
        change (inject_Z 0) with 0%Q in *. change (inject_Z 1) with 1%Q.
        setoid_replace (inject_Z p * (inject_Z count + 1))%Q
          with (inject_Z p * inject_Z count + inject_Z p)%Q by ring.
        lra.
      * apply Forall_app. split; [exact Hnn1|].
        constructor; [cbn; lia | constructor].
Qed.

Lemma sizes_above_zero (packs : list Z) :
  Forall (fun p => 0 < p <= 2 ^ 53) packs -> Forall (fun p => 0 < p) packs.
Proof. apply Forall_impl. intros p Hp. apply Hp. Qed.

(** ** Binary64: powers of two and the size of a mantissa *)

Lemma pow2_pos (e : Z) : (0 < 2 ^ e)%Q.
Proof. now apply Qpower_0_lt. Qed.

Lemma pow2_plus (a b : Z) : (2 ^ (a + b) == 2 ^ a * 2 ^ b)%Q.
Proof. apply Qpower_plus. discriminate. Qed.

Lemma pow2_inject (k : Z) : 0 <= k -> (inject_Z (2 ^ k) == 2 ^ k)%Q.
Proof. intros Hk. now rewrite Zpower_Qpower. Qed.

(** The same value at a higher exponent. *)
Lemma scale_value (b ea eb : Z) :
  ea <= eb ->
  (inject_Z (b * 2 ^ (eb - ea)) * 2 ^ ea == inject_Z b * 2 ^ eb)%Q.
Proof.
  intros Hle. rewrite inject_Z_mult, pow2_inject by lia.
  replace eb with ((eb - ea) + ea) at 2 by lia. rewrite pow2_plus. ring.
Qed.

Lemma scale_eq (a b ea eb : Z) :
  (inject_Z a * 2 ^ ea == inject_Z b * 2 ^ eb)%Q -> ea <= eb ->
  a = b * 2 ^ (eb - ea).
Proof.
  intros E Hle. apply inject_Z_injective.
  rewrite <- (scale_value b ea eb Hle) in E.
  apply Qmult_inj_r in E; [exact E|].
  pose proof (pow2_pos ea). lra.
Qed.

Lemma digits2_size (m : positive) : digits2_pos m = Pos.size m.
Proof. induction m; cbn; now rewrite ?IHm. Qed.

Lemma Zdigits2_log2 (m : positive) :
  Zdigits2 (Zpos m) = Z.succ (Z.log2 (Zpos m)).
Proof.
  cbn [Zdigits2]. rewrite digits2_size.
  destruct m; cbn [Pos.size Z.log2]; lia.
Qed.

Lemma Zdigits2_bounds (m : positive) :
  2 ^ (Zdigits2 (Zpos m) - 1) <= Zpos m < 2 ^ Zdigits2 (Zpos m).
Proof.
  rewrite Zdigits2_log2. replace (Z.succ (Z.log2 (Zpos m)) - 1) with (Z.log2 (Zpos m)) by lia.
  apply Z.log2_spec. lia.
Qed.

Lemma Zdigits2_unique (n d : Z) :
  2 ^ (d - 1) <= n < 2 ^ d -> Zdigits2 n = d.
Proof.
  intros Hb.
  destruct (Z.lt_trichotomy d 0) as [Hd | [-> | Hd]].
  - rewrite !Z.pow_neg_r in Hb by lia. lia.
  - rewrite Z.pow_neg_r in Hb by lia. cbn in Hb.
    assert (n = 0) by lia. now subst n.
  - assert (Hn : 0 < 2 ^ (d - 1)) by (apply Z.pow_pos_nonneg; lia).
    destruct n as [|m|m]; try lia.
    rewrite Zdigits2_log2.
    replace d with (Z.succ (d - 1)) in Hb at 2 by lia.
    rewrite (Z.log2_unique (Zpos m) (d - 1)); lia.
Qed.

Lemma Zdigits2_shift (m : positive) (k : Z) :
  0 <= k -> Zdigits2 (Zpos m * 2 ^ k) = Zdigits2 (Zpos m) + k.
Proof.
  intros Hk. apply Zdigits2_unique.
  pose proof (Zdigits2_bounds m) as [Hlo Hhi].
  assert (Hd : 1 <= Zdigits2 (Zpos m)) by (cbn; lia).
  replace (Zdigits2 (Zpos m) + k - 1) with ((Zdigits2 (Zpos m) - 1) + k) by lia.
  rewrite !Z.pow_add_r by lia.
  assert (0 < 2 ^ k) by (apply Z.pow_pos_nonneg; lia).
  split; [apply Z.mul_le_mono_nonneg_r; lia | apply Z.mul_lt_mono_pos_r; lia].
Qed.

Lemma Zdigits2_le_prec (m : positive) :
  Zpos m < 2 ^ 53 -> Zdigits2 (Zpos m) <= 53.
Proof.
  intros Hm. pose proof (Zdigits2_bounds m) as [Hlo _].
  destruct (Z.le_gt_cases (Zdigits2 (Zpos m)) 53) as [|Hgt]; [assumption|].
  assert (2 ^ 53 <= 2 ^ (Zdigits2 (Zpos m) - 1)) by (apply Z.pow_le_mono_r; lia).
  lia.
Qed.

Lemma Zdigits2_prec_lt (m : positive) :
  Zdigits2 (Zpos m) <= 53 -> Zpos m < 2 ^ 53.
Proof.
  intros Hd. pose proof (Zdigits2_bounds m) as [_ Hhi].
  assert (2 ^ Zdigits2 (Zpos m) <= 2 ^ 53) by (apply Z.pow_le_mono_r; lia).
  lia.
Qed.

(** Two writings of one value have the same magnitude. *)
Lemma magnitude_eq (a b : positive) (ea eb : Z) :
  (inject_Z (Zpos a) * 2 ^ ea == inject_Z (Zpos b) * 2 ^ eb)%Q ->
  Zdigits2 (Zpos a) + ea = Zdigits2 (Zpos b) + eb.
Proof.
  intros E. destruct (Z.le_ge_cases ea eb) as [Hle | Hge].
  - apply scale_eq in E; [|exact Hle]. rewrite E, Zdigits2_shift by lia. lia.
  - symmetry in E. apply scale_eq in E; [|lia].
    rewrite E, Zdigits2_shift by lia. lia.
Qed.

Lemma fexp_value (x : Z) : fexp prec emax x = Z.max (x - 53) (-1074).
Proof. reflexivity. Qed.

(** The exponent at which a value that fits in 53 bits is written. *)
Lemma fexp_below (mx m' : positive) (ex e' : Z) :
  (inject_Z (Zpos mx) * 2 ^ ex == inject_Z (Zpos m') * 2 ^ e')%Q ->
  Zpos m' < 2 ^ 53 -> -1074 <= e' ->
  fexp prec emax (Zdigits2 (Zpos mx) + ex) <= e'.
Proof.
  intros E Hm He. rewrite (magnitude_eq _ _ _ _ E), fexp_value.
  pose proof (Zdigits2_le_prec m' Hm). lia.
Qed.

(** ** Binary64: rounding a value that needs no rounding *)

Lemma iter_pos_eq {A : Type} (f : A -> A) (n : positive) :
  forall x, iter_pos f n x = Pos.iter f x n.
Proof.
  induction n as [n IH | n IH |]; intros x; cbn [iter_pos Pos.iter].
  - now rewrite !IH, !Pos.iter_swap.
  - now rewrite !IH.
  - reflexivity.
Qed.

(** Shifting out zeros loses nothing. *)
Lemma iter_shr_exact (n : positive) :
  forall q : positive,
    Pos.iter shr_1 (Build_shr_record (Zpos q * 2 ^ Zpos n) false false) n
    = Build_shr_record (Zpos q) false false.
Proof.
  induction n as [|n IH] using Pos.peano_ind; intros q.
  - cbn [Pos.iter]. replace (Zpos q * 2 ^ 1) with (Zpos q~0) by lia. reflexivity.
  - rewrite Pos.iter_succ.
    replace (Zpos q * 2 ^ Zpos (Pos.succ n)) with (Zpos q~0 * 2 ^ Zpos n).
    + now rewrite IH.
    + rewrite Pos2Z.inj_succ, Z.pow_succ_r by lia. lia.
Qed.

Lemma shr_exact (q : positive) (e n : Z) :
  0 < n ->
  shr (Build_shr_record (Zpos q * 2 ^ n) false false) e n
  = (Build_shr_record (Zpos q) false false, e + n).
Proof.
  intros Hn. destruct n as [|n|n]; try lia.
  unfold shr. now rewrite iter_pos_eq, iter_shr_exact.
Qed.

Lemma shr_none (mrs : shr_record) (e n : Z) : n <= 0 -> shr mrs e n = (mrs, e).
Proof. intros Hn. destruct n as [|n|n]; try lia; reflexivity. Qed.

(** [binary_round_aux] on a positive mantissa whose value fits in 53 bits at
    an exponent within range. *)
Lemma binary_round_aux_exact (sx : bool) (mx m' : positive) (ex e' : Z) :
  (inject_Z (Zpos mx) * 2 ^ ex == inject_Z (Zpos m') * 2 ^ e')%Q ->
  Zpos m' < 2 ^ 53 -> -1074 <= e' <= 971 -> ex <= 971 ->
  exists m'',
    binary_round_aux prec emax sx (Zpos mx) ex loc_Exact
    = S754_finite sx m''
        (Z.max ex (fexp prec emax (Zdigits2 (Zpos mx) + ex))) /\
    (inject_Z (Zpos m'')
     * 2 ^ (Z.max ex (fexp prec emax (Zdigits2 (Zpos mx) + ex)))
     == inject_Z (Zpos mx) * 2 ^ ex)%Q.
Proof.
  intros E Hm He Hex.
  pose proof (fexp_below mx m' ex e' E Hm ltac:(lia)) as Hf.
  set (f := fexp prec emax (Zdigits2 (Zpos mx) + ex)) in *.
  destruct (Z.le_gt_cases f ex) as [Hle | Hgt].
  - (* nothing to shift *)
    exists mx. rewrite Z.max_l by lia. split; [|reflexivity].
    unfold binary_round_aux, shr_fexp. fold f.
    cbn [shr_record_of_loc]. rewrite shr_none by lia.
    cbn [shr_m loc_of_shr_record round_nearest_even shr_record_of_loc].
    fold f. rewrite shr_none by lia. cbn [shr_m].
    replace (ex <=? emax - prec) with true by (symmetry; apply Z.leb_le; cbn; lia).
    reflexivity.
  - (* the low bits shifted out are zeros *)
    assert (Hmx : Zpos mx = Zpos m' * 2 ^ (e' - f) * 2 ^ (f - ex)).
    { rewrite (scale_eq _ _ _ _ E) by lia.
      rewrite <- Z.mul_assoc, <- Z.pow_add_r by lia. do 2 f_equal. lia. }
    assert (Hq : exists q : positive, Zpos q = Zpos m' * 2 ^ (e' - f)).
    { assert (0 < Zpos m' * 2 ^ (e' - f)).
      { apply Z.mul_pos_pos; [lia | apply Z.pow_pos_nonneg; lia]. }
      destruct (Zpos m' * 2 ^ (e' - f)) as [|q|q]; try lia. now exists q. }
    destruct Hq as (q & Hq). rewrite <- Hq in Hmx.
    assert (Hdig : Zdigits2 (Zpos q) + f = Zdigits2 (Zpos mx) + ex).
    { rewrite Hmx, Zdigits2_shift by lia. lia. }
    exists q. rewrite Z.max_r by lia. split.
    + unfold binary_round_aux, shr_fexp. fold f.
      cbn [shr_record_of_loc]. rewrite Hmx at 1.
      rewrite shr_exact by lia.
      cbn [shr_m loc_of_shr_record round_nearest_even shr_record_of_loc].
      replace (ex + (f - ex)) with f by lia.
      rewrite Hdig. fold f. rewrite shr_none by lia. cbn [shr_m].
      replace (f <=? emax - prec) with true by (symmetry; apply Z.leb_le; cbn; lia).
      reflexivity.
    + rewrite Hmx. apply Qeq_sym. rewrite Z.mul_comm, Z.mul_comm.
      now rewrite (scale_value (Zpos q) ex f) by lia.
Qed.

Lemma iter_xO (d : positive) :
  forall m : positive, Zpos (Pos.iter xO m d) = Zpos m * 2 ^ Zpos d.
Proof.
  induction d as [|d IH] using Pos.peano_ind; intros m.
  - cbn [Pos.iter]. lia.
  - rewrite Pos.iter_succ, Pos2Z.inj_xO, IH, Pos2Z.inj_succ, Z.pow_succ_r by lia.
    lia.
Qed.

Lemma shl_align_down (mx : positive) (ex e : Z) :
  e <= ex ->
  exists mz, shl_align mx ex e = (mz, e) /\ Zpos mz = Zpos mx * 2 ^ (ex - e).
Proof.
  intros Hle. unfold shl_align.
  destruct (e - ex) as [|d|d] eqn:Ed; try lia.
  - exists mx. assert (e = ex) by lia. subst e.
    rewrite Z.sub_diag. split; [reflexivity | lia].
  - exists (Pos.iter xO mx d). split; [reflexivity|].
    rewrite iter_xO. f_equal. f_equal. lia.
Qed.

Lemma shl_align_up (mx : positive) (ex e : Z) :
  ex <= e -> shl_align mx ex e = (mx, ex).
Proof.
  intros Hle. unfold shl_align. destruct (e - ex) as [|d|d] eqn:Ed; try lia; reflexivity.
Qed.

(** [binary_round] of such a value: the float that has this value. *)
Lemma binary_round_exact (sx : bool) (mx m' : positive) (ex e' : Z) :
  (inject_Z (Zpos mx) * 2 ^ ex == inject_Z (Zpos m') * 2 ^ e')%Q ->
  Zpos m' < 2 ^ 53 -> -1074 <= e' <= 971 ->
  exists m'' e'',
    binary_round prec emax sx mx ex = S754_finite sx m'' e'' /\
    valid_binary (S754_finite sx m'' e'') = true /\
    (inject_Z (Zpos m'') * 2 ^ e'' == inject_Z (Zpos mx) * 2 ^ ex)%Q.
Proof.
  intros E Hm He.
  pose proof (fexp_below mx m' ex e' E Hm ltac:(lia)) as Hf.
  unfold binary_round.
  set (f := fexp prec emax (Zpos (digits2_pos mx) + ex)) in *.
  change (Zpos (digits2_pos mx)) with (Zdigits2 (Zpos mx)) in f.
  destruct (Z.le_gt_cases f ex) as [Hle | Hgt].
  - destruct (shl_align_down mx ex f Hle) as (mz & -> & Hmz).
    assert (Ez : (inject_Z (Zpos mz) * 2 ^ f == inject_Z (Zpos mx) * 2 ^ ex)%Q).
    { rewrite Hmz. now apply scale_value. }
    assert (Hdig : Zdigits2 (Zpos mz) + f = Zdigits2 (Zpos mx) + ex)
      by (now apply magnitude_eq).
    destruct (binary_round_aux_exact sx mz m' f e') as (m'' & Hr & Hv);
      try lia; [now rewrite Ez|].
    rewrite Hdig in Hr, Hv. fold f in Hr, Hv. rewrite Z.max_id in Hr, Hv.
    assert (m'' = mz) as ->.
    { apply scale_eq in Hv; [|lia]. rewrite Z.sub_diag in Hv. lia. }
    exists mz, f. split; [exact Hr|]. split; [|exact Ez].
    cbn [valid_binary]. unfold bounded, canonical_mantissa.
    change (Zpos (digits2_pos mz)) with (Zdigits2 (Zpos mz)).
    rewrite Hdig. fold f. rewrite Z.eqb_refl. cbn [andb].
    apply Z.leb_le. cbn. lia.
  - rewrite shl_align_up by lia.
    destruct (binary_round_aux_exact sx mx m' ex e') as (m'' & Hr & Hv);
      try lia; [exact E|].
    fold f in Hr, Hv. rewrite Z.max_r in Hr, Hv by lia.
    exists m'', f. split; [exact Hr|]. split; [|exact Hv].
    cbn [valid_binary]. unfold bounded, canonical_mantissa.
    change (Zpos (digits2_pos m'')) with (Zdigits2 (Zpos m'')).
    rewrite (magnitude_eq _ _ _ _ Hv). fold f. rewrite Z.eqb_refl. cbn [andb].
    apply Z.leb_le. cbn. lia.
Qed.

(** ** Binary64: operations that are exact *)

(** A float is written with at most 53 bits at an exponent within range. *)
Lemma float_bounds (x : float) (s : bool) (m : positive) (e : Z) :
  Prim2SF x = S754_finite s m e -> Zpos m < 2 ^ 53 /\ -1074 <= e <= 971.
Proof.
  intros Hx. pose proof (Prim2SF_valid x) as Hv. rewrite Hx in Hv.
  cbn [valid_binary] in Hv. unfold bounded, canonical_mantissa in Hv.
  apply andb_prop in Hv. destruct Hv as [Hc Hb].
  apply Z.eqb_eq in Hc. apply Z.leb_le in Hb.
  change (Zpos (digits2_pos m)) with (Zdigits2 (Zpos m)) in Hc.
  rewrite fexp_value in Hc. cbn in Hb. split; [|lia].
  apply Zdigits2_prec_lt. lia.
Qed.

Lemma inject_Z_pos (z : Z) : 0 < z -> (0 < inject_Z z)%Q.
Proof. intros Hz. unfold Qlt. cbn. lia. Qed.

Lemma inject_Z_sign (z : Z) : (0 < inject_Z z)%Q -> 0 < z.
Proof. unfold Qlt. cbn. lia. Qed.

Lemma positive_value (m : positive) (e : Z) : (0 < inject_Z (Zpos m) * 2 ^ e)%Q.
Proof.
  apply Qmult_lt_0_compat; [now apply inject_Z_pos | apply pow2_pos].
Qed.

Lemma nonneg_float_positive (x : float) (v : Q) :
  nonneg_float x v -> (0 < v)%Q ->
  exists m e,
    Prim2SF x = S754_finite false m e /\ (v == inject_Z (Zpos m) * 2 ^ e)%Q.
Proof.
  intros [[_ Hv] | H] Hpos; [lra | exact H].
Qed.

Lemma nonneg_float_nonneg (x : float) (v : Q) : nonneg_float x v -> (0 <= v)%Q.
Proof.
  intros [[_ Hv] | (m & e & _ & Hv)]; rewrite Hv; [lra|].
  apply Qlt_le_weak, positive_value.
Qed.

Lemma float_representable (x : float) (m : positive) (e : Z) (v : Q) :
  Prim2SF x = S754_finite false m e -> (v == inject_Z (Zpos m) * 2 ^ e)%Q ->
  representable v.
Proof.
  intros Hx Hv. destruct (float_bounds x _ _ _ Hx) as [Hm He].
  exists m, e. split; [exact Hv|]. split; assumption.
Qed.

(** The float that [binary_normalize] builds for a positive value that has
    one. *)
Lemma normalize_exact (mz : Z) (e : Z) (szero : bool) (v : Q) :
  0 < mz -> (v == inject_Z mz * 2 ^ e)%Q -> representable v ->
  nonneg_float (SF2Prim (binary_normalize prec emax mz e szero)) v.
Proof.
  intros Hpos Hv (m' & e' & Hv' & Hm & He).
  destruct mz as [|mx|mx]; try lia. cbn [binary_normalize].
  destruct (binary_round_exact false mx m' e e') as (m'' & e'' & Hr & Hvalid & Hval);
    try assumption; [now rewrite <- Hv, <- Hv'|].
  right. exists m'', e''. rewrite Hr, (Prim2SF_SF2Prim _ Hvalid).
  split; [reflexivity|]. now rewrite Hval.
Qed.

Lemma normalize_zero (e : Z) :
  nonneg_float (SF2Prim (binary_normalize prec emax 0 e false)) 0.
Proof. left. split; [reflexivity | reflexivity]. Qed.

Lemma representable_eq (v v' : Q) :
  (v == v')%Q -> representable v -> representable v'.
Proof.
  intros E (m & e & Hv & Hm & He). exists m, e.
  split; [now rewrite <- E|]. split; assumption.
Qed.

Lemma nonneg_float_eq (x : float) (v v' : Q) :
  (v == v')%Q -> nonneg_float x v -> nonneg_float x v'.
Proof.
  intros E [[Hx Hv] | (m & e & Hx & Hv)].
  - left. split; [exact Hx | now rewrite <- E].
  - right. exists m, e. split; [exact Hx | now rewrite <- E].
Qed.

(** An integer up to 2^53 is a float. *)
Lemma representable_int (k : Z) : 0 < k <= 2 ^ 53 -> representable (inject_Z k).
Proof.
  intros Hk. destruct (Z.eq_dec k (2 ^ 53)) as [-> | Hne].
  - exists (2 ^ 52)%positive, 1. split; [|split; [reflexivity | lia]].
    vm_compute. reflexivity.
  - destruct k as [|m|m]; try lia. exists m, 0.
    split; [|split; lia]. cbn. ring.
Qed.

(** What is left of a float at most 2^53 after a whole number is taken from
    it is a float. *)
Lemma representable_minus_int (r : Q) (k : Z) :
  representable r -> (r <= inject_Z (2 ^ 53))%Q -> 0 <= k ->
  (0 < r - inject_Z k)%Q -> representable (r - inject_Z k).
Proof.
  intros (m & e & Hr & Hm & He) Hmax Hk Hpos.
  destruct (Z.le_gt_cases e 0) as [Hle | Hgt].
  - (* a multiple of 2^e below r *)
    assert (Ek : (inject_Z k == inject_Z (k * 2 ^ (0 - e)) * 2 ^ e)%Q).
    { rewrite (scale_value k e 0) by lia. cbn. ring. }
    assert (Ev : (r - inject_Z k == inject_Z (Zpos m - k * 2 ^ (0 - e)) * 2 ^ e)%Q).
    { rewrite Hr, Ek at 1. unfold Z.sub at 2.
      rewrite inject_Z_plus, inject_Z_opp. ring. }
    assert (Hlt : 0 < Zpos m - k * 2 ^ (0 - e)).
    { rewrite Ev in Hpos. pose proof (pow2_pos e) as H2.
      apply inject_Z_sign.
      destruct (Qlt_le_dec 0 (inject_Z (Zpos m - k * 2 ^ (0 - e)))) as [|Hge];
        [assumption|].
      exfalso.
      assert (inject_Z (Zpos m - k * 2 ^ (0 - e)) * 2 ^ e <= 0 * 2 ^ e)%Q
        by (apply Qmult_le_compat_r; [assumption | lra]).
      lra. }
    assert (0 <= k * 2 ^ (0 - e)).
    { apply Z.mul_nonneg_nonneg; [lia | apply Z.pow_nonneg; lia]. }
    destruct (Zpos m - k * 2 ^ (0 - e)) as [|q|q] eqn:Eq; try lia.
    exists q, e. split; [exact Ev|]. split; lia.
  - (* r is a whole number *)
    assert (Ei : (r == inject_Z (Zpos m * 2 ^ e))%Q).
    { rewrite Hr, inject_Z_mult, pow2_inject by lia. reflexivity. }
    assert (Ev : (r - inject_Z k == inject_Z (Zpos m * 2 ^ e - k))%Q).
    { rewrite Ei. unfold Z.sub. rewrite inject_Z_plus, inject_Z_opp. ring. }
    apply (representable_eq _ _ (Qeq_sym _ _ Ev)). apply representable_int.
    rewrite Ev in Hpos. rewrite Ei in Hmax.
    apply inject_Z_sign in Hpos. rewrite <- Zle_Qle in Hmax. lia.
Qed.

Lemma Prim2SF_zero : Prim2SF zero = S754_zero false.
Proof. reflexivity. Qed.

(** [float(k)] for a whole number up to 2^53. *)
Lemma float_of_int_exact (k : Z) :
  0 <= k <= 2 ^ 53 ->
  exists f, float_of_int k = Ok f /\ nonneg_float f (inject_Z k).
Proof.
  intros Hk. unfold float_of_int. destruct k as [|m|m]; try lia.
  - exists zero. split; [reflexivity|]. left. split; reflexivity.
  - destruct (representable_int (Zpos m) ltac:(lia)) as (m' & e' & Hv & Hm & He).
    destruct (binary_round_exact false m m' 0 e') as (m'' & e'' & Hr & Hvalid & Hval);
      try assumption.
    { rewrite <- Hv. cbn. ring. }
    cbn [binary_normalize]. rewrite Hr.
    exists (SF2Prim (S754_finite false m'' e'')). split; [reflexivity|].
    right. exists m'', e''. split; [now apply Prim2SF_SF2Prim|].
    rewrite Hval. cbn. ring.
Qed.

(** Subtraction of two floats is exact when the difference is a float. *)
Lemma sub_exact (x y : float) (vx vy : Q) :
  nonneg_float x vx -> nonneg_float y vy -> (vy <= vx)%Q ->
  (vx - vy == 0)%Q \/ representable (vx - vy) ->
  nonneg_float (PrimFloat.sub x y) (vx - vy).
Proof.
  intros Hx Hy Hle Hrep. pose proof (sub_spec x y) as Hs.
  destruct Hx as [[Ex Hvx] | (mx & ex & Ex & Hvx)];
    destruct Hy as [[Ey Hvy] | (my & ey & Ey & Hvy)];
    rewrite Ex, Ey in Hs.
  - left. split; [exact Hs | rewrite Hvx, Hvy; ring].
  - exfalso. pose proof (positive_value my ey). lra.
  - right. exists mx, ex. split; [exact Hs | rewrite Hvx, Hvy; ring].
  - unfold SF64sub, SFsub in Hs. cbn [cond_Zopp] in Hs.
    set (ez := Z.min ex ey) in *.
    destruct (shl_align_down mx ex ez ltac:(lia)) as (a & Ea & Ha).
    destruct (shl_align_down my ey ez ltac:(lia)) as (b & Eb & Hb).
    rewrite Ea, Eb in Hs. cbn [fst] in Hs.
    assert (Hval : (vx - vy == inject_Z (Zpos a - Zpos b) * 2 ^ ez)%Q).
    { rewrite Hvx, Hvy, Ha, Hb.
      rewrite <- (scale_value (Zpos mx) ez ex), <- (scale_value (Zpos my) ez ey)
        by lia.
      unfold Z.sub at 3. rewrite inject_Z_plus, inject_Z_opp. ring. }
    pose proof (pow2_pos ez) as Hpow.
    destruct (Zpos a - Zpos b) as [|mz|mz] eqn:Ez.
    + left. split; [exact Hs | rewrite Hval; ring].
    + right. cbn [binary_normalize] in Hs.
      pose proof (positive_value mz ez) as Hpos.
      destruct Hrep as [H0 | (m' & e' & Hv' & Hm & He)]; [lra|].
      destruct (binary_round_exact false mz m' ez e')
        as (m'' & e'' & Hr & _ & Hval''); try assumption.
      { now rewrite <- Hval, <- Hv'. }
      exists m'', e''. rewrite Hs, Hr. split; [reflexivity|].
      now rewrite Hval''.
    + exfalso.
      assert (inject_Z (Zneg mz) * 2 ^ ez < 0)%Q.
      { setoid_replace (inject_Z (Zneg mz)) with (- inject_Z (Zpos mz))%Q
          by reflexivity.
        pose proof (positive_value mz ez). lra. }
      lra.
Qed.

Lemma shiftl_value (m s : Z) :
  0 <= s ->
  match s with
  | Zpos _ => Z.shiftl m s
  | Z0 => m
  | Zneg _ => 0
  end = m * 2 ^ s.
Proof.
  intros Hs. destruct s as [|p|p]; try lia.
  apply Z.shiftl_mul_pow2. lia.
Qed.

Lemma new_location_exact (n : Z) : new_location n 0 = loc_Exact.
Proof. unfold new_location. now destruct (Z.even n). Qed.

(** Division of a float by a float is exact when the quotient is a whole
    number up to 2^53. *)
Lemma div_exact (x y : float) (mx my : positive) (ex ey c : Z) :
  Prim2SF x = S754_finite false mx ex ->
  Prim2SF y = S754_finite false my ey ->
  (inject_Z (Zpos mx) * 2 ^ ex
   == inject_Z c * (inject_Z (Zpos my) * 2 ^ ey))%Q ->
  0 < c <= 2 ^ 53 ->
  exists m e,
    Prim2SF (PrimFloat.div x y) = S754_finite false m e /\
    (inject_Z c == inject_Z (Zpos m) * 2 ^ e)%Q.
Proof.
  intros Ex Ey Hval Hc. rewrite div_spec, Ex, Ey.
  unfold SF64div, SFdiv, SFdiv_core_binary. cbn [xorb].
  set (d1 := Zdigits2 (Zpos mx)). set (d2 := Zdigits2 (Zpos my)).
  set (e' := Z.min (fexp prec emax (d1 + ex - (d2 + ey))) (ex - ey)).
  destruct c as [|cp|cp]; try lia.
  (* the quotient has at most 53 bits more than the divisor *)
  assert (Hprod : (inject_Z (Zpos mx) * 2 ^ ex
                   == inject_Z (Zpos (cp * my)) * 2 ^ ey)%Q).
  { rewrite Hval, Pos2Z.inj_mul, inject_Z_mult. ring. }
  assert (Hmag : d1 + ex = Zdigits2 (Zpos (cp * my)) + ey)
    by (now apply magnitude_eq).
  assert (Hdig : Zdigits2 (Zpos (cp * my)) <= 53 + d2).
  { destruct (Z.le_gt_cases (Zdigits2 (Zpos (cp * my))) (53 + d2)) as [|Hgt];
      [assumption|].
    pose proof (Zdigits2_bounds (cp * my)) as [Hlo _].
    pose proof (Zdigits2_bounds my) as [_ Hhi]. fold d2 in Hhi.
    assert (Hd2 : 1 <= d2) by (unfold d2; cbn; lia).
    assert (2 ^ (53 + d2) <= 2 ^ (Zdigits2 (Zpos (cp * my)) - 1))
      by (apply Z.pow_le_mono_r; lia).
    rewrite Z.pow_add_r in H by lia.
    assert (Zpos (cp * my) < 2 ^ 53 * 2 ^ d2).
    { rewrite Pos2Z.inj_mul. apply Z.le_lt_trans with (2 ^ 53 * Zpos my).
      - apply Z.mul_le_mono_nonneg_r; lia.
      - apply Z.mul_lt_mono_pos_l; [reflexivity | lia]. }
    lia. }
  assert (He' : e' <= 0).
  { unfold e'. rewrite fexp_value. lia. }
  assert (Hs : 0 <= ex - ey - e') by (unfold e'; lia).
  rewrite (shiftl_value (Zpos mx) (ex - ey - e') Hs).
  (* the division of the mantissas leaves no remainder *)
  assert (Hm' : Zpos mx * 2 ^ (ex - ey - e') = Zpos cp * 2 ^ (0 - e') * Zpos my).
  { apply inject_Z_injective.
    assert (E1 : (inject_Z (Zpos mx * 2 ^ (ex - ey - e')) * 2 ^ (e' + ey)
                  == inject_Z (Zpos mx) * 2 ^ ex)%Q).
    { replace (ex - ey - e') with (ex - (e' + ey)) by lia.
      apply scale_value. lia. }
    assert (E2 : (inject_Z (Zpos cp * 2 ^ (0 - e') * Zpos my) * 2 ^ (e' + ey)
                  == inject_Z (Zpos (cp * my)) * 2 ^ ey)%Q).
    { replace (Zpos cp * 2 ^ (0 - e') * Zpos my)
        with (Zpos (cp * my) * 2 ^ (ey - (e' + ey))).
      - apply scale_value. lia.
      - rewrite Pos2Z.inj_mul. replace (ey - (e' + ey)) with (0 - e') by lia. ring. }
    rewrite <- Hprod, <- E1 in E2.
    apply Qmult_inj_r in E2; [now symmetry|].
    pose proof (pow2_pos (e' + ey)). lra. }
  rewrite Hm'.
  assert (Hq : exists q : positive, Zpos q = Zpos cp * 2 ^ (0 - e')).
  { assert (0 < Zpos cp * 2 ^ (0 - e')).
    { apply Z.mul_pos_pos; [lia | apply Z.pow_pos_nonneg; lia]. }
    destruct (Zpos cp * 2 ^ (0 - e')) as [|q|q]; try lia. now exists q. }
  destruct Hq as (q & Hq). rewrite <- Hq.
  destruct (Z.div_eucl (Zpos q * Zpos my) (Zpos my)) as [qq rr] eqn:Hd.
  assert (qq = Zpos q /\ rr = 0) as [-> ->].
  { pose proof (Z.div_mul (Zpos q) (Zpos my) ltac:(lia)) as Hdiv.
    pose proof (Z.mod_mul (Zpos q) (Zpos my) ltac:(lia)) as Hmod.
    unfold Z.div in Hdiv. unfold Z.modulo in Hmod. rewrite Hd in Hdiv, Hmod.
    now split. }
  rewrite new_location_exact.
  destruct (representable_int (Zpos cp) ltac:(lia)) as (mc & ec & Hvc & Hmc & Hec).
  assert (Eq : (inject_Z (Zpos q) * 2 ^ e' == inject_Z (Zpos cp))%Q).
  { rewrite Hq. rewrite (scale_value (Zpos cp) e' 0) by lia. cbn. ring. }
  destruct (binary_round_aux_exact false q mc e' ec) as (m'' & Hr & Hv'');
    try assumption; try lia.
  { now rewrite Eq, <- Hvc. }
  exists m'', (Z.max e' (fexp prec emax (Zdigits2 (Zpos q) + e'))).
  split; [exact Hr|]. now rewrite Hv'', Eq.
Qed.

(** ** Binary64: the operations of the floor division *)

Lemma nonneg_float_zero (x : float) (v : Q) :
  nonneg_float x v -> (v == 0)%Q -> Prim2SF x = S754_zero false.
Proof.
  intros [[E _] | (m & e & _ & Hv)] H0; [exact E|].
  pose proof (positive_value m e). lra.
Qed.

Lemma c_nonzero_spec (x : float) :
  c_nonzero x = match Prim2SF x with S754_zero _ => false | _ => true end.
Proof.
  unfold c_nonzero. rewrite FloatAxioms.eqb_spec, Prim2SF_zero.
  destruct (Prim2SF x) as [s|s| |s m e]; try destruct s; reflexivity.
Qed.

Lemma ltb_zero_nonneg (x : float) (v : Q) :
  nonneg_float x v -> PrimFloat.ltb x zero = false.
Proof.
  intros Hx. rewrite FloatAxioms.ltb_spec, Prim2SF_zero.
  destruct Hx as [[E _] | (m & e & E & _)]; rewrite E; reflexivity.
Qed.

(** [remaining > 0] *)
Lemma gt_zero_exact (x : float) (v : Q) :
  nonneg_float x v -> PrimFloat.ltb zero x = negb (Qle_bool v 0).
Proof.
  intros Hx. rewrite FloatAxioms.ltb_spec, Prim2SF_zero.
  destruct Hx as [[E Hv] | (m & e & E & Hv)]; rewrite E.
  - assert (Hle : Qle_bool v 0 = true) by (apply Qle_bool_iff; lra).
    now rewrite Hle.
  - destruct (Qle_bool v 0) eqn:Hle; [|reflexivity].
    apply Qle_bool_iff in Hle. pose proof (positive_value m e). lra.
Qed.

(** The C library's [fmod] is exact; here for two floats above zero. *)
Lemma fmod_exact (x y : float) (mx my : positive) (ex ey : Z) (vx vy : Q) :
  Prim2SF x = S754_finite false mx ex ->
  Prim2SF y = S754_finite false my ey ->
  (vx == inject_Z (Zpos mx) * 2 ^ ex)%Q ->
  (vy == inject_Z (Zpos my) * 2 ^ ey)%Q ->
  let c := Qfloor (vx / vy)%Q in
  (vx - inject_Z c * vy == 0)%Q \/ representable (vx - inject_Z c * vy) ->
  nonneg_float (c_fmod x y) (vx - inject_Z c * vy).
Proof.
  intros Ex Ey Hvx Hvy c Hrep. unfold c_fmod. rewrite Ex, Ey. cbv zeta.
  cbn [cond_Zopp].
  set (e := Z.min ex ey).
  set (a := Zpos mx * 2 ^ (ex - e)). set (b := Zpos my * 2 ^ (ey - e)).
  assert (Ha : (vx == inject_Z a * 2 ^ e)%Q).
  { rewrite Hvx. unfold a. symmetry. apply scale_value. lia. }
  assert (Hb : (vy == inject_Z b * 2 ^ e)%Q).
  { rewrite Hvy. unfold b. symmetry. apply scale_value. lia. }
  assert (Hbpos : 0 < b).
  { unfold b. apply Z.mul_pos_pos; [lia | apply Z.pow_pos_nonneg; lia]. }
  pose proof (pow2_pos e) as Hpow. set (t := (2 ^ e)%Q) in *.
  assert (HbQ : (0 < inject_Z b)%Q) by (now apply inject_Z_pos).
  assert (Hc : c = a / b).
  { unfold c. rewrite Zdiv_Qdiv. apply Qfloor_comp. rewrite Ha, Hb.
    field. split; lra. }
  pose proof (Z.mod_eq a b ltac:(lia)) as Hmod.
  pose proof (Z.mod_pos_bound a b Hbpos) as Hbound.
  assert (Hval : (vx - inject_Z c * vy == inject_Z (a mod b) * t)%Q).
  { rewrite Hmod, Ha, Hb, Hc. unfold Z.sub.
    rewrite inject_Z_plus, inject_Z_opp, inject_Z_mult. ring. }
  destruct (a mod b) as [|r|r] eqn:Er; [| |lia].
  - left. split; [reflexivity | rewrite Hval; ring].
  - apply normalize_exact; [lia | exact Hval |].
    destruct Hrep as [H0 | Hrep]; [|exact Hrep].
    pose proof (positive_value r e). fold t in H. lra.
Qed.

(** The C library's [floor] of a float that is a whole number. *)
Lemma floor_exact (x : float) (c : Z) :
  0 < c <= 2 ^ 53 -> nonneg_float x (inject_Z c) ->
  nonneg_float (c_floor x) (inject_Z c).
Proof.
  intros Hc Hx.
  destruct (nonneg_float_positive x _ Hx) as (m & e & E & Hv);
    [apply inject_Z_pos; lia|].
  unfold c_floor. rewrite E.
  destruct (0 <=? e) eqn:He; [exact Hx|].
  apply Z.leb_gt in He. cbn [cond_Zopp].
  assert (Hm : Zpos m = c * 2 ^ (0 - e)).
  { apply scale_eq; [|lia]. rewrite <- Hv. cbn. ring. }
  replace (- e) with (0 - e) by lia.
  rewrite Hm, Z.div_mul by (apply Z.pow_nonzero; lia).
  apply normalize_exact; [lia | cbn; ring | apply representable_int; lia].
Qed.

(** [int(x)] of a float that is a whole number. *)
Lemma int_exact (x : float) (c : Z) :
  nonneg_float x (inject_Z c) -> float_int x = Ok c.
Proof.
  intros [[E Hv] | (m & e & E & Hv)]; unfold float_int; rewrite E.
  - f_equal. unfold Qeq in Hv. cbn in Hv. lia.
  - cbn [cond_Zopp]. f_equal. destruct (0 <=? e) eqn:He.
    + apply Z.leb_le in He.
      assert (Hc : c = Zpos m * 2 ^ (e - 0)).
      { apply scale_eq; [|exact He]. rewrite Hv. cbn. ring. }
      rewrite Z.sub_0_r in Hc. now symmetry.
    + apply Z.leb_gt in He.
      assert (Hm : Zpos m = c * 2 ^ (0 - e)).
      { apply scale_eq; [|lia]. rewrite <- Hv. cbn. ring. }
      replace (- e) with (0 - e) by lia. rewrite Hm.
      apply Z.div_mul. apply Z.pow_nonzero; lia.
Qed.

Lemma binary_round_aux_sign (m e : Z) (l : location) :
  match binary_round_aux prec emax false m e l with
  | S754_zero s | S754_infinity s | S754_finite s _ _ => s = false
  | S754_nan => True
  end.
Proof.
  unfold binary_round_aux.
  destruct (shr_fexp prec emax m e l) as [mrs' e'].
  destruct (shr_fexp prec emax _ e' loc_Exact) as [mrs'' e''].
  destruct (shr_m mrs''); [reflexivity | | exact I].
  now destruct (e'' <=? emax - prec).
Qed.

(** The quotient of two floats above zero has no sign bit, even when it
    underflows to zero. *)
Lemma div_sign (x y : float) (mx my : positive) (ex ey : Z) :
  Prim2SF x = S754_finite false mx ex ->
  Prim2SF y = S754_finite false my ey ->
  sign_bit (PrimFloat.div x y) = false.
Proof.
  intros Ex Ey. unfold sign_bit. rewrite div_spec, Ex, Ey.
  unfold SF64div, SFdiv. cbn [xorb].
  destruct (SFdiv_core_binary prec emax (Zpos mx) ex (Zpos my) ey) as [[mz ez] lz].
  pose proof (binary_round_aux_sign mz ez lz) as Hs.
  destruct (binary_round_aux prec emax false mz ez lz); auto.
Qed.

Lemma div_zero (x y : float) (my : positive) (ey : Z) :
  Prim2SF x = S754_zero false ->
  Prim2SF y = S754_finite false my ey ->
  Prim2SF (PrimFloat.div x y) = S754_zero false.
Proof. intros Ex Ey. now rewrite div_spec, Ex, Ey. Qed.

Lemma Qfloor_inject_le (c k : Z) (r : Q) :
  (inject_Z c <= r)%Q -> (r <= inject_Z k)%Q -> c <= k.
Proof. intros H1 H2. rewrite Zle_Qle. lra. Qed.

(** [remaining // size] is the exact floor of the quotient, for a remaining
    footage in [0, 2^53] and a whole pack size in [1, 2^53]. *)
Lemma floor_div_exact (r size : float) (vr : Q) (p : Z) :
  nonneg_float r vr -> (vr <= inject_Z (2 ^ 53))%Q ->
  0 < p <= 2 ^ 53 -> nonneg_float size (inject_Z p) ->
  nonneg_float (float_floor_div r size) (inject_Z (Qfloor (vr / inject_Z p)%Q)).
Proof.
  intros Hr Hmax Hp Hsize.
  destruct (nonneg_float_positive size _ Hsize (inject_Z_pos p ltac:(lia)))
    as (mp & ep & Ep & Hvp).
  pose proof (nonneg_float_nonneg _ _ Hr) as Hr0.
  destruct (floor_step vr p Hr0 ltac:(lia)) as (Hc0 & Hlo & Hhi).
  set (c := Qfloor (vr / inject_Z p)%Q) in *.
  assert (Hcp : 0 <= c * p <= 2 ^ 53).
  { split; [apply Z.mul_nonneg_nonneg; lia|].
    apply (Qfloor_inject_le _ _ vr); assumption. }
  assert (Hc53 : c <= 2 ^ 53) by nia.
  assert (Hprod0 : (0 <= inject_Z c * inject_Z p)%Q).
  { rewrite <- inject_Z_mult. change 0%Q with (inject_Z 0).
    rewrite <- Zle_Qle. lia. }
  rewrite inject_Z_mult in Hlo, Hhi.
  set (rem := (vr - inject_Z c * inject_Z p)%Q).
  assert (Hrem0 : (0 <= rem)%Q) by (unfold rem; lra).
  pose proof (ltb_zero_nonneg _ _ Hsize) as Hsize_lt.
  unfold float_floor_div.
  set (f := c_fmod r size).
  set (num := PrimFloat.sub r f).
  assert (Hf_num : nonneg_float f rem /\ nonneg_float num (inject_Z (c * p))).
  { destruct Hr as [[Er Hvr] | (mr & er & Er & Hvr)].
    - assert (Ef : f = r) by (unfold f, c_fmod; now rewrite Er, Ep).
      assert (Ec : c = 0) by (assert (c * p <= 0) by (rewrite Zle_Qle;
        rewrite inject_Z_mult; change (inject_Z 0) with 0%Q; lra); nia).
      assert (Hrr : nonneg_float r rem).
      { left. split; [exact Er | unfold rem; rewrite Ec, Hvr; ring]. }
      split; [now rewrite Ef|].
      unfold num. rewrite Ef.
      apply (nonneg_float_eq _ (rem - rem)); [rewrite Ec; cbn; ring|].
      apply sub_exact; [assumption .. | lra | left; ring].
    - assert (Hf : nonneg_float f rem).
      { apply (fmod_exact r size mr mp er ep vr (inject_Z p) Er Ep Hvr Hvp).
        fold c. fold rem.
        destruct (Qlt_le_dec 0 rem) as [Hpos | Hle]; [right | left; lra].
        apply (representable_eq (vr - inject_Z (c * p)));
          [unfold rem; rewrite inject_Z_mult; ring|].
        apply representable_minus_int; [| exact Hmax | lia |].
        - exact (float_representable r mr er vr Er Hvr).
        - rewrite inject_Z_mult. exact Hpos. }
      split; [exact Hf|].
      apply (nonneg_float_eq _ (vr - rem));
        [unfold rem; rewrite inject_Z_mult; ring|].
      apply sub_exact; [now right; exists mr, er | exact Hf | unfold rem; lra |].
      destruct (Z.eq_dec (c * p) 0) as [E0 | Hne].
      + left. unfold rem. rewrite <- inject_Z_mult, E0. cbn. ring.
      + right. apply (representable_eq (inject_Z (c * p)));
          [unfold rem; rewrite inject_Z_mult; ring|].
        apply representable_int. lia. }
  destruct Hf_num as [Hf Hnum].
  rewrite (ltb_zero_nonneg _ _ Hf), Hsize_lt. cbn [Bool.eqb negb].
  rewrite andb_false_r.
  set (div := PrimFloat.div num size).
  destruct (Z.eq_dec c 0) as [Ec | Hcne].
  - (* nothing fits: the quotient is zero *)
    assert (En : Prim2SF num = S754_zero false).
    { apply (nonneg_float_zero _ _ Hnum). rewrite Ec. reflexivity. }
    pose proof (div_zero num size mp ep En Ep) as Ed. fold div in Ed.
    rewrite c_nonzero_spec, Ed.
    assert (Hs : sign_bit (PrimFloat.div r size) = false).
    { destruct Hr as [[Er Hvr] | (mr & er & Er & Hvr)].
      - unfold sign_bit. now rewrite (div_zero r size mp ep Er Ep).
      - exact (div_sign r size mr mp er ep Er Ep). }
    unfold copysign_zero. rewrite Hs, Ec.
    left. split; reflexivity.
  - assert (Hcpos : 0 < c) by lia.
    destruct (nonneg_float_positive num _ Hnum) as (mn & en & En & Hvn).
    { apply inject_Z_pos. nia. }
    destruct (div_exact num size mn mp en ep c En Ep) as (md & ed & Ed & Hvd).
    { rewrite <- Hvn, <- Hvp. now rewrite inject_Z_mult. }
    { lia. }
    fold div in Ed.
    assert (Hdiv : nonneg_float div (inject_Z c)) by (right; now exists md, ed).
    rewrite c_nonzero_spec, Ed.
    pose proof (floor_exact div c ltac:(lia) Hdiv) as Hfl.
    assert (Hdiff : Prim2SF (PrimFloat.sub div (c_floor div)) = S754_zero false).
    { apply (nonneg_float_zero _ (inject_Z c - inject_Z c)); [|ring].
      apply sub_exact; [assumption .. | lra | left; ring]. }
    rewrite FloatAxioms.ltb_spec, Hdiff.
    exact Hfl.
Qed.

Lemma is_zero_positive (size : float) (p : Z) :
  0 < p -> nonneg_float size (inject_Z p) -> PrimFloat.eqb size zero = false.
Proof.
  intros Hp Hsize.
  destruct (nonneg_float_positive size _ Hsize (inject_Z_pos p Hp))
    as (m & e & E & _).
  pose proof (c_nonzero_spec size) as Hn. rewrite E in Hn.
  unfold c_nonzero in Hn. now destruct (PrimFloat.eqb size zero).
Qed.

(** The loop of the handler in binary64 computes the counts of the
    specification, and what remains is the exact remainder, when the footage
    is at most 2^53 and every pack size lies in [1, 2^53]. *)
Lemma plan_loop_binary64 (packs : list Z) :
  Forall (fun p => 0 < p <= 2 ^ 53) packs ->
  forall (remaining : float) (v : Q) (acc : list (Z * Z)),
    nonneg_float remaining v -> (v <= inject_Z (2 ^ 53))%Q ->
    exists left : float,
      plan_loop (F := float) packs remaining acc
      = Ok (left, acc ++ fst (greedy_counts packs v)) /\
      nonneg_float left (snd (greedy_counts packs v)).
Proof.
  induction 1 as [|p packs Hp _ IH]; intros remaining v acc Hr Hmax.
  - exists remaining. cbn. now rewrite app_nil_r.
  - cbn [plan_loop greedy_counts fst snd int_to_float binary64_round].
    destruct (float_of_int_exact p ltac:(lia)) as (size & Esize & Hsize).
    rewrite Esize. cbn [bind]. unfold floordiv. cbn [is_zero binary64].
    rewrite (is_zero_positive size p) by (lia || assumption).
    cbn [bind ffloordiv ftrunc binary64_round].
    pose proof (floor_div_exact remaining size v p Hr Hmax Hp Hsize) as Hq.
    pose proof (nonneg_float_nonneg _ _ Hr) as Hv0.
    destruct (floor_step v p Hv0 ltac:(lia)) as (Hc0 & Hlo & Hhi).
    set (count := Qfloor (v / inject_Z p)%Q) in *.
    rewrite (int_exact _ count Hq). cbn [bind].
    assert (Hcp : 0 <= count * p <= 2 ^ 53).
    { split; [apply Z.mul_nonneg_nonneg; lia|].
      apply (Qfloor_inject_le _ _ v); assumption. }
    assert (Hcp0 : (0 <= inject_Z (count * p))%Q).
    { change 0%Q with (inject_Z 0). rewrite <- Zle_Qle. lia. }
    destruct (float_of_int_exact (count * p) Hcp) as (bought & Eb & Hb).
    rewrite Eb. cbn [bind fsub binary64].
    assert (Hsub : nonneg_float (PrimFloat.sub remaining bought)
                     (v - inject_Z (count * p))).
    { apply sub_exact; [assumption .. |].
      destruct (Qlt_le_dec 0 (v - inject_Z (count * p))) as [Hpos | Hle];
        [right | left; lra].
      apply representable_minus_int; [| exact Hmax | lia | exact Hpos].
      destruct (nonneg_float_positive remaining v Hr ltac:(lra))
        as (m & e & E & Hv).
      exact (float_representable remaining m e v E Hv). }
    destruct (IH (PrimFloat.sub remaining bought) (v - inject_Z (count * p))%Q
                (acc ++ [(p, count)]) Hsub ltac:(lra)) as (left & El & Hl).
    exists left. rewrite El. split; [|exact Hl].
    now rewrite <- app_assoc.
Qed.

Lemma float_to_Q_positive (x : float) :
  (0 < float_to_Q x)%Q -> nonneg_float x (float_to_Q x).
Proof.
  unfold float_to_Q. intros Hpos.
  destruct (Prim2SF x) as [s|s| |s m e] eqn:E; try lra.
  destruct s.
  - exfalso. cbn [cond_Zopp] in Hpos.
    assert (inject_Z (Z.opp (Zpos m)) * 2 ^ e < 0)%Q.
    { rewrite inject_Z_opp. pose proof (positive_value m e). lra. }
    lra.
  - right. exists m, e. split; [exact E | reflexivity].
Qed.

(** The planner in binary64 returns the plan of the specification, when the
    footage lies in (0, 2^53] and every pack size in [1, 2^53]. *)
Lemma purchase_plan_binary64 (packs : list Z) (total_ft : float) :
  Forall (fun p => 0 < p <= 2 ^ 53) packs ->
  (0 < float_to_Q total_ft <= inject_Z (2 ^ 53))%Q ->
  purchase_plan (F := float) packs total_ft
  = Ok (greedy_plan packs (float_to_Q total_ft)).
Proof.
  intros Hpacks [Hpos Hmax]. unfold purchase_plan, greedy_plan.
  destruct (plan_loop_binary64 packs Hpacks total_ft (float_to_Q total_ft) []
              (float_to_Q_positive total_ft Hpos) Hmax) as (left & El & Hl).
  rewrite El. cbn [bind app fltb of_int binary64].
  change (float_of_Z 0) with zero.
  rewrite (gt_zero_exact left _ Hl).
  destruct (Qle_bool (snd (greedy_counts packs (float_to_Q total_ft))) 0%Q);
    cbn [negb].
  - reflexivity.
  - now rewrite add_one_smallest_rev.
Qed.

(** ** Packaging plan *)

(** C3, as the code has it: in binary64, for every finite total above zero
    and at most 2^53 and every non-empty set of whole pack sizes from 1 to
    2^53, the sizes are taken in descending order and the planner returns the plan the
    specification describes (floor of remaining over size for each size in
    turn, one more of the smallest size when something remains, rows of
    quantity 0 dropped), and the plan covers the total: the sum of pack
    length times quantity is at least the total. *)
Theorem purchase_plan_covers_total (total_ft : float) (sizes : list Z) :
  (0 < float_to_Q total_ft <= inject_Z (2 ^ 53))%Q ->
  sizes <> [] ->
  Forall (fun p => 0 < p <= 2 ^ 53) sizes ->
  let packs := sorted_reverse (set_of sizes) in
  StronglySorted Z.ge packs /\
  exists plan,
    purchase_plan (F := float) packs total_ft = Ok plan /\
    plan = greedy_plan packs (float_to_Q total_ft) /\
    (float_to_Q total_ft <= inject_Z (plan_feet plan))%Q.
Proof.
  intros Htotal Hne Hsizes packs.
  split; [apply sorted_reverse_sorted|].
  pose proof (set_of_nonempty sizes Hne) as Hpacks_ne.
  pose proof (set_of_Forall _ sizes Hsizes) as Hpacks.
  fold packs in Hpacks_ne, Hpacks.
  exists (greedy_plan packs (float_to_Q total_ft)).
  split; [now apply purchase_plan_binary64|]. split; [reflexivity|].
  apply greedy_plan_covers;
    [apply Htotal | exact Hpacks_ne | now apply sizes_above_zero].
Qed.

Lemma purchase_plan_covers_total_witness :
  purchase_plan (F := float) (sorted_reverse (set_of [500; 250])) 1200%float
    = Ok [(500, 2); (250, 1)] /\
  StronglySorted Z.ge (sorted_reverse (set_of [500; 250])) /\
  exists plan,
    purchase_plan (F := float) (sorted_reverse (set_of [500; 250])) 1200%float
      = Ok plan /\
    plan = greedy_plan (sorted_reverse (set_of [500; 250])) (float_to_Q 1200%float) /\
    (float_to_Q 1200%float <= inject_Z (plan_feet plan))%Q.
Proof.
  split; [vm_compute; reflexivity|].
  apply (purchase_plan_covers_total 1200%float [500; 250]).
  - split; vm_compute; [reflexivity | discriminate].
  - discriminate.
  - repeat constructor; lia.
Defined.

(** C3 as stated fails, in two ways.  A total of 2^53 + 2 ft with packs of
    3 ft: the floor division gives 3002399751580330 and the subtraction
    leaves 4.0, so that one pack is added and the plan covers 2^53 + 1 ft,
    less than the total.  A pack size of 10^400 is no float: the floor
    division raises OverflowError. *)
Theorem purchase_plan_short_above_2_53 :
  (float_to_Q 9007199254740994%float == inject_Z (2 ^ 53 + 2))%Q /\
  purchase_plan (F := float) (sorted_reverse (set_of [3])) 9007199254740994%float
    = Ok [(3, 3002399751580331)] /\
  (inject_Z (plan_feet [(3%Z, 3002399751580331%Z)])
   < float_to_Q 9007199254740994%float)%Q /\
  purchase_plan (F := float) (sorted_reverse (set_of [10 ^ 400])) 1200%float
    = Raise OverflowError.
Proof.
  repeat split; vm_compute; reflexivity.
Qed.

(** ** Packaging override *)

Lemma mapM_raises {A B : Type} (f : A -> result B) (xs : list A) (x : A) :
  In x xs -> (forall b, f x <> Ok b) -> exists e, mapM f xs = Raise e.
Proof.
  intros Hin Hx. induction xs as [|y xs IH]; [destruct Hin|].
  cbn [mapM]. destruct (f y) as [b|e] eqn:Ey; cbn [bind].
  - destruct Hin as [-> | Hin]; [now destruct (Hx b)|].
    destruct (IH Hin) as [e He]. rewrite He. now exists e.
  - now exists e.
Qed.

Lemma parse_packs_raises (manual_pack piece : str) :
  In piece (split "," manual_pack) ->
  truthy (strip piece) = true ->
  (forall n, Py.int (strip piece) <> Ok n) ->
  exists e, parse_packs manual_pack = Raise e.
Proof.
  intros Hin Hnonblank Hbad. unfold parse_packs.
  destruct (mapM_raises (fun x => Py.int (strip x))
              (filter (fun x => truthy (strip x)) (split "," manual_pack)) piece)
    as [e He].
  - apply filter_In. now split.
  - exact Hbad.
  - rewrite He. now exists e.
Qed.

(** C5, as the code has it: for a non-blank override string with a
    comma-separated piece that is not blank and that [int()] does not accept,
    the planner does not run: the parse error is shown, followed by the
    sold-by-the-foot or the not-detected message, and the plan is empty. *)
Theorem packaging_override_parse_error
    {F : Type} `{PyFloat F} `{PyFloatRound F}
    (manual_pack : str) (detected_pack : option Z)
    (detected_pack_unit : option string) (total_cable_feet : F) (piece : str) :
  truthy (strip manual_pack) = true ->
  In piece (split "," manual_pack) ->
  truthy (strip piece) = true ->
  (forall n, Py.int (strip piece) <> Ok n) ->
  exists shown,
    packaging manual_pack detected_pack detected_pack_unit total_cable_feet
      = Ok (mkPackaging (ParseError :: shown) []) /\
    (shown = [SoldByTheFoot] \/ shown = [NotDetected]).
Proof.
  intros Hnonblank Hin Hpiece Hbad.
  destruct (parse_packs_raises manual_pack piece Hin Hpiece Hbad) as [e He].
  unfold packaging, choose_packs. rewrite Hnonblank, He.
  destruct (unit_is detected_pack_unit "ft_each").
  - exists [SoldByTheFoot]. split; [reflexivity | now left].
  - exists [NotDetected]. split; [reflexivity | now right].
Qed.

Lemma packaging_override_parse_error_witness :
  exists shown,
    packaging (F := Q) (text "250, 5oo") None None 1200%Q
      = Ok (mkPackaging (ParseError :: shown) []) /\
    (shown = [SoldByTheFoot] \/ shown = [NotDetected]).
Proof.
  apply (packaging_override_parse_error (F := Q)
           (text "250, 5oo") None None 1200%Q (text " 5oo")).
  - reflexivity.
  - right. left. reflexivity.
  - reflexivity.
  - intros n. vm_compute. discriminate.
Defined.

(** C5 as stated fails: the override "500,-250" is not a set of positive
    integers, yet no parse error is shown and the planner runs and shows a
    plan (two packs of 500 ft for 1200 ft). *)
Lemma override_with_negative_size_is_planned :
  ~ positive_int_set (text "500,-250") /\
  packaging (F := Q) (text "500,-250") None None 1200%Q
    = Ok (mkPackaging [RecommendedPlan] [(500, 2)]).
Proof.
  split; [|vm_compute; reflexivity].
  intros (packs & Hparse & Hpos).
  vm_compute in Hparse. injection Hparse as <-.
  inversion Hpos as [|? ? _ Hrest]; subst.
  inversion Hrest as [|? ? Hneg _]; subst. lia.
Qed.

(** ** The matcher finds exactly the matches *)

Lemma step_iff (ok : ascii -> bool) (p m : pos) :
  In m (step ok p) <-> Step ok p m.
Proof.
  unfold step. split.
  - destruct (after p) as [|x rest] eqn:E; [intros []|].
    destruct (ok x) eqn:Hx; [|intros []].
    intros [<- | []]. now apply Step_char.
  - intros [x rest E Hx]. rewrite E, Hx. now left.
Qed.

Section Iteration.

Variables (body : pos -> list pos) (R : pos -> pos -> Prop).

Hypothesis body_iff : forall p m, In m (body p) <-> R p m.

Lemma star_iter_sound (fuel : nat) :
  forall p m, In m (star_iter body fuel p) -> Iter R p m.
Proof.
  induction fuel as [|fuel IH]; intros p m; cbn [star_iter].
  - intros [<- | []]. constructor.
  - intros Hin. apply in_app_or in Hin. destruct Hin as [Hin | [<- | []]].
    + apply in_flat_map in Hin. destruct Hin as (q & Hq & Hm).
      destruct (List.length (after q) <? List.length (after p))%nat eqn:E;
        [|destruct Hm].
      apply Nat.ltb_lt in E.
      apply Iter_more with q; [now apply body_iff | exact E | now apply IH].
    + constructor.
Qed.

Lemma star_iter_complete (p m : pos) :
  Iter R p m ->
  forall fuel, (List.length (after p) <= fuel)%nat ->
               In m (star_iter body fuel p).
Proof.
  induction 1 as [p | p q m Hq Hlt _ IH]; intros fuel Hfuel.
  - destruct fuel; cbn [star_iter]; [now left|].
    apply in_or_app. right. now left.
  - destruct fuel as [|fuel]; [lia|]. cbn [star_iter].
    apply in_or_app. left. apply in_flat_map. exists q.
    split; [now apply body_iff|].
    apply Nat.ltb_lt in Hlt. rewrite Hlt. apply IH. apply Nat.ltb_lt in Hlt. lia.
Qed.

Lemma rep_iter_iff (hi : nat) :
  forall lo p m, In m (rep_iter body lo hi p) <-> Upto R lo hi p m.
Proof.
  induction hi as [|hi IH]; intros lo p m; cbn [rep_iter].
  - destruct lo; split.
    + intros [<- | []]. constructor.
    + intros Hu. inversion Hu; subst. now left.
    + intros [].
    + intros Hu. inversion Hu.
  - split.
    + intros Hin. apply in_app_or in Hin. destruct Hin as [Hin | Hin].
      * apply in_flat_map in Hin. destruct Hin as (q & Hq & Hm).
        apply Upto_more with q; [now apply body_iff | now apply IH].
      * destruct lo; [|destruct Hin]. destruct Hin as [<- | []]. constructor.
    + intros Hu. apply in_or_app. inversion Hu; subst.
      * right. now left.
      * left. apply in_flat_map. exists q. split; [now apply body_iff | now apply IH].
Qed.

End Iteration.

Theorem matches_iff (ic : bool) (r : regex) :
  forall p m, In m (matches ic r p) <-> Matches ic r p m.
Proof.
  induction r as [c | | | | r1 IH1 r2 IH2 | r1 IH1 r2 IH2 | r1 IH1
                 | lo hi r1 IH1 | r1 IH1];
    intros p m; cbn [matches Matches].
  - apply step_iff.
  - apply step_iff.
  - apply step_iff.
  - destruct (at_boundary p); split.
    + intros [<- | []]. now split.
    + intros [_ ->]. now left.
    + intros [].
    + intros [Hb _]. discriminate.
  - rewrite in_flat_map. split; intros (q & Hq & Hm); exists q.
    + split; [now apply IH1 | now apply IH2].
    + split; [now apply IH1 | now apply IH2].
  - rewrite in_app_iff, IH1, IH2. reflexivity.
  - split.
    + apply (star_iter_sound _ _ IH1).
    + intros Hm. now apply (star_iter_complete _ _ IH1).
  - apply (rep_iter_iff _ _ IH1).
  - rewrite in_map_iff. split.
    + intros (q & <- & Hq). exists q. split; [now apply IH1 | reflexivity].
    + intros (q & Hq & ->). exists q. split; [reflexivity | now apply IH1].
Qed.

(** [search_from] reports a match of the first position that has one. *)
Lemma search_from_first (ic : bool) (r : regex) (G : pos -> Prop) (pre : str) :
  forall bef aft,
    (forall a b m, pre = a ++ b -> b <> [] ->
                   Matches ic r (mkpos (rev a ++ bef) (b ++ aft) None) m -> G m) ->
    (exists m, Matches ic r (mkpos (rev pre ++ bef) aft None) m) ->
    (forall m, Matches ic r (mkpos (rev pre ++ bef) aft None) m -> G m) ->
    exists m, search_from ic r bef (pre ++ aft) = Some m /\ G m.
Proof.
  induction pre as [|c pre IH]; intros bef aft Hearlier [m0 Hm0] Hhere.
  - cbn in *.
    assert (Hnonempty : matches ic r (mkpos bef aft None) <> []).
    { apply matches_iff in Hm0. intros E. now rewrite E in Hm0. }
    destruct aft as [|x aft]; cbn [search_from];
      destruct (matches ic r _) as [|m ms] eqn:E; try congruence;
      exists m; (split; [reflexivity|]); apply Hhere; apply matches_iff;
      rewrite E; now left.
  - cbn [app search_from].
    destruct (matches ic r (mkpos bef (c :: pre ++ aft) None)) as [|m ms] eqn:E.
    + apply IH.
      * intros a b m Hsplit Hb Hm. apply (Hearlier (c :: a) b m).
        -- cbn. now rewrite Hsplit.
        -- exact Hb.
        -- cbn [rev]. now rewrite <- app_assoc.
      * exists m0. cbn [rev] in Hm0. now rewrite <- app_assoc in Hm0.
      * intros m Hm. apply Hhere. cbn [rev]. now rewrite <- app_assoc.
    + exists m. split; [reflexivity|].
      apply (Hearlier [] (c :: pre) m); [reflexivity | discriminate |].
      cbn [rev app]. apply matches_iff. rewrite E. now left.
Qed.

(** ** Character classes *)

Ltac by_cases_on_char c :=
  destruct c as [[] [] [] [] [] [] [] []]; cbv;
  try split; intros; congruence.

Lemma digit_not_space (c : ascii) : is_digit c = true -> is_int_space c = false.
Proof. by_cases_on_char c. Qed.

Lemma space_not_digit (c : ascii) : is_space c = true -> is_digit c = false.
Proof. by_cases_on_char c. Qed.

Lemma hash_not_digit (c : ascii) : lit_eq true "#" c = true -> is_digit c = false.
Proof. by_cases_on_char c. Qed.

Lemma digit_not_sign (c : ascii) :
  is_digit c = true -> Ascii.eqb c "+" = false /\ Ascii.eqb c "-" = false.
Proof. by_cases_on_char c. Qed.

Lemma any_case_A (c : ascii) :
  lower c = "a"%char <-> lit_eq true "A" c = true.
Proof. by_cases_on_char c. Qed.

Lemma any_case_W (c : ascii) :
  lower c = "w"%char <-> lit_eq true "W" c = true.
Proof. by_cases_on_char c. Qed.

Lemma any_case_G (c : ascii) :
  lower c = "g"%char <-> lit_eq true "G" c = true.
Proof. by_cases_on_char c. Qed.

Lemma letter_A_not_digit (c : ascii) : lit_eq true "A" c = true -> is_digit c = false.
Proof. by_cases_on_char c. Qed.

Lemma letter_G_is_word (c : ascii) : lit_eq true "G" c = true -> is_word c = true.
Proof. by_cases_on_char c. Qed.

(** ** The gauge pattern *)

Lemma consumed_prefix (p q : pos) (w : str) :
  after p = w ++ after q -> consumed p q = w.
Proof.
  intros E. unfold consumed. rewrite E, length_app, Nat.add_sub.
  clear E. induction w as [|c w IH]; cbn; [reflexivity | now rewrite IH].
Qed.

Lemma spaces_consumed (p q : pos) :
  Iter (Step is_space) p q ->
  exists w, after p = w ++ after q /\ spaces w /\ grp1 q = grp1 p.
Proof.
  induction 1 as [p | p q m Hstep _ _ (w & Hw & Hsp & Hg)].
  - exists []. repeat split. constructor.
  - destruct Hstep as [x rest Hx Hok]. cbn in *. subst rest.
    exists (x :: w). repeat split; [exact Hx | now constructor | exact Hg].
Qed.

Lemma spaces_matched (w : str) :
  spaces w ->
  forall bef rest g,
    Iter (Step is_space) (mkpos bef (w ++ rest) g) (mkpos (rev w ++ bef) rest g).
Proof.
  induction 1 as [|x w Hx _ IH]; intros bef rest g; cbn [app rev].
  - constructor.
  - apply Iter_more with (mkpos (x :: bef) (w ++ rest) g).
    + now apply (Step_char is_space (mkpos bef (x :: w ++ rest) g) x (w ++ rest)).
    + cbn. lia.
    + rewrite <- app_assoc. apply IH.
Qed.

Lemma hash_consumed (p q : pos) :
  Upto (Step (lit_eq true "#")) 0 1 p q ->
  exists h, after p = h ++ after q /\ no_digit h /\ grp1 q = grp1 p.
Proof.
  intros Hu. inversion Hu as [|? ? ? q' ? Hstep Hrest]; subst.
  - exists []. repeat split. constructor.
  - inversion Hrest; subst. destruct Hstep as [x rest Hx Hok]. cbn.
    exists [x]. repeat split; [exact Hx|].
    constructor; [now apply hash_not_digit | constructor].
Qed.

Lemma gauge_digits_consumed (p q : pos) :
  Upto (Step is_digit) 1 2 p q ->
  exists g, after p = g ++ after q /\ digits g /\ g <> [] /\
            (List.length g <= 2)%nat.
Proof.
  intros Hu. inversion Hu as [|? ? ? q1 ? Hstep1 Hrest1]; subst.
  destruct Hstep1 as [x1 rest1 Hx1 Hok1]. cbn [pred] in Hrest1.
  inversion Hrest1 as [|? ? ? q2 ? Hstep2 Hrest2]; subst.
  - exists [x1]. cbn. repeat split; auto; [repeat constructor; auto | discriminate].
  - inversion Hrest2; subst. destruct Hstep2 as [x2 rest2 Hx2 Hok2].
    cbn in *. subst rest1.
    exists [x1; x2]. cbn. repeat split; auto; [repeat constructor; auto | discriminate].
Qed.

Lemma any_case_AWG (awg : str) :
  any_case (text "AWG") awg ->
  exists x1 x2 x3,
    awg = [x1; x2; x3] /\ lit_eq true "A" x1 = true /\
    lit_eq true "W" x2 = true /\ lit_eq true "G" x3 = true.
Proof.
  unfold any_case. cbn.
  destruct awg as [|x1 [|x2 [|x3 [|x4 awg]]]]; cbn; try discriminate.
  intros [= H1 H2 H3]. exists x1, x2, x3.
  repeat split; [now apply any_case_A | now apply any_case_W | now apply any_case_G].
Qed.

(** Two digits, whitespace, AWG in any case and then the end of a word:
    the gauge pattern matches where the digits start. *)
Lemma gauge_match_exists (bef ws awg post : str) (d1 d2 : ascii) :
  is_digit d1 = true -> is_digit d2 = true ->
  spaces ws -> any_case (text "AWG") awg -> word_ends_before post ->
  exists m,
    Matches true AWG_PATTERN (mkpos bef ([d1; d2] ++ ws ++ awg ++ post) None) m.
Proof.
  intros Hd1 Hd2 Hws Hawg Hpost.
  destruct (any_case_AWG awg Hawg) as (x1 & x2 & x3 & -> & H1 & H2 & H3).
  set (p0 := mkpos bef ([d1; d2] ++ ws ++ [x1; x2; x3] ++ post) None).
  set (g := Some (consumed p0 (mkpos (d2 :: d1 :: bef) (ws ++ [x1; x2; x3] ++ post) None))).
  exists (mkpos (x3 :: x2 :: x1 :: rev ws ++ d2 :: d1 :: bef) post g).
  unfold AWG_PATTERN. cbn [Matches word text list_ascii_of_string].
  exists p0. split.
  { exists p0. split; constructor. }
  exists (mkpos (d2 :: d1 :: bef) (ws ++ [x1; x2; x3] ++ post) g). split.
  { exists (mkpos (d2 :: d1 :: bef) (ws ++ [x1; x2; x3] ++ post) None).
    split; [|reflexivity].
    apply Upto_more with (mkpos (d1 :: bef) (d2 :: ws ++ [x1; x2; x3] ++ post) None).
    - now apply (Step_char is_digit p0 d1).
    - cbn [pred].
      apply Upto_more
        with (mkpos (d2 :: d1 :: bef) (ws ++ [x1; x2; x3] ++ post) None).
      + now apply (Step_char is_digit
                     (mkpos (d1 :: bef) (d2 :: ws ++ [x1; x2; x3] ++ post) None) d2).
      + constructor. }
  exists (mkpos (rev ws ++ d2 :: d1 :: bef) ([x1; x2; x3] ++ post) g). split.
  { now apply spaces_matched. }
  exists (mkpos (x3 :: x2 :: x1 :: rev ws ++ d2 :: d1 :: bef) post g). split.
  { exists (mkpos (x1 :: rev ws ++ d2 :: d1 :: bef) ([x2; x3] ++ post) g). split.
    - now apply (Step_char _ (mkpos (rev ws ++ d2 :: d1 :: bef)
                                ([x1; x2; x3] ++ post) g) x1).
    - exists (mkpos (x2 :: x1 :: rev ws ++ d2 :: d1 :: bef) ([x3] ++ post) g). split.
      + now apply (Step_char _ (mkpos (x1 :: rev ws ++ d2 :: d1 :: bef)
                                  ([x2; x3] ++ post) g) x2).
      + now apply (Step_char _ (mkpos (x2 :: x1 :: rev ws ++ d2 :: d1 :: bef)
                                  ([x3] ++ post) g) x3). }
  split; [|reflexivity].
  unfold at_boundary. cbn [before after word_at].
  rewrite (letter_G_is_word x3 H3). unfold word_ends_before in Hpost.
  now rewrite Hpost.
Qed.

Lemma first_run_unique (P : ascii -> bool) (l1 l2 r1 r2 : str) (x y : ascii) :
  l1 ++ x :: r1 = l2 ++ y :: r2 ->
  Forall (fun c => P c = false) l1 -> Forall (fun c => P c = false) l2 ->
  P x = true -> P y = true ->
  l1 = l2 /\ x :: r1 = y :: r2.
Proof.
  revert l2. induction l1 as [|a l1 IH]; intros [|b l2] E H1 H2 Hx Hy; cbn in E.
  - now split.
  - injection E as -> _. inversion H2; subst. congruence.
  - injection E as -> _. inversion H1; subst. congruence.
  - injection E as -> E. inversion H1; inversion H2; subst.
    destruct (IH l2 E) as [-> Hr]; auto.
Qed.

Lemma letter_A_not_space (c : ascii) : lit_eq true "A" c = true -> is_space c = false.
Proof. by_cases_on_char c. Qed.

Lemma letter_W_not_digit (c : ascii) : lit_eq true "W" c = true -> is_digit c = false.
Proof. by_cases_on_char c. Qed.

Lemma letter_G_not_digit (c : ascii) : lit_eq true "G" c = true -> is_digit c = false.
Proof. by_cases_on_char c. Qed.

Lemma digit_is_word (c : ascii) : is_digit c = true -> is_word c = true.
Proof. by_cases_on_char c. Qed.

Lemma any_case_AWG_letters (x1 x2 x3 : ascii) :
  lit_eq true "A" x1 = true -> lit_eq true "W" x2 = true ->
  lit_eq true "G" x3 = true -> any_case (text "AWG") [x1; x2; x3].
Proof.
  intros H1 H2 H3. unfold any_case. cbn.
  apply any_case_A in H1. apply any_case_W in H2. apply any_case_G in H3.
  now rewrite H1, H2, H3.
Qed.

Lemma awg_parts (p q : pos) :
  Matches true (word (text "AWG")) p q ->
  exists x1 x2 x3,
    after p = [x1; x2; x3] ++ after q /\
    lit_eq true "A" x1 = true /\ lit_eq true "W" x2 = true /\
    lit_eq true "G" x3 = true /\
    grp1 q = grp1 p /\ before q = x3 :: x2 :: x1 :: before p.
Proof.
  cbn. intros (q1 & Ha & q2 & Hw & Hg).
  destruct Ha as [x1 r1 E1 H1]. destruct Hw as [x2 r2 E2 H2].
  destruct Hg as [x3 r3 E3 H3]. cbn in *. subst r1 r2.
  exists x1, x2, x3. now rewrite E1.
Qed.

(** The parts of a match of the gauge pattern: the optional "#" and
    whitespace, the group, whitespace, the three letters, and what follows,
    which does not start with a word character. *)
Lemma gauge_match_parts (p m : pos) :
  Matches true AWG_PATTERN p m ->
  exists h g w x1 x2 x3,
    after p = h ++ g ++ w ++ [x1; x2; x3] ++ after m /\
    no_digit h /\ digits g /\ g <> [] /\ (List.length g <= 2)%nat /\
    spaces w /\ lit_eq true "A" x1 = true /\ lit_eq true "W" x2 = true /\
    lit_eq true "G" x3 = true /\ grp1 m = Some g /\ word_at (after m) = false.
Proof.
  unfold AWG_PATTERN. cbn [Matches].
  intros (q2 & (q1 & Hhash & Hsp1) & q4 & (q3 & Hdig & ->) & q5 & Hsp2
          & q6 & Hawg & Hb & ->).
  destruct (hash_consumed _ _ Hhash) as (h & Eh & Hh & _).
  destruct (spaces_consumed _ _ Hsp1) as (w1 & Ew1 & Hw1 & _).
  destruct (gauge_digits_consumed _ _ Hdig) as (g & Eg & Hg & Hne & Hlen).
  destruct (spaces_consumed _ _ Hsp2) as (w2 & Ew2 & Hw2 & Hgrp2).
  destruct (awg_parts _ _ Hawg) as (x1 & x2 & x3 & Ex & H1 & H2 & H3 & Hgrp3 & Hbef).
  cbn [after grp1] in *.
  exists (h ++ w1), g, w2, x1, x2, x3.
  split; [rewrite Eh, Ew1, Eg, Ew2, Ex; now rewrite <- app_assoc|].
  split.
  { apply Forall_app. split; [exact Hh|].
    unfold spaces in Hw1. rewrite Forall_forall in *.
    intros c Hc. now apply space_not_digit, Hw1. }
  repeat (split; [assumption|]).
  split.
  - rewrite Hgrp3, Hgrp2. f_equal. now apply consumed_prefix.
  - unfold at_boundary in Hb. rewrite Hbef in Hb. cbn [word_at] in Hb.
    rewrite (letter_G_is_word x3 H3) in Hb. now destruct (word_at (after q6)).
Qed.

Lemma no_digit_prefix (h y b z : str) (d : ascii) :
  h ++ y = b ++ d :: z -> no_digit h -> is_digit d = true ->
  exists l, b = h ++ l /\ y = l ++ d :: z.
Proof.
  revert b. induction h as [|x h IH]; intros b E Hh Hd; cbn in E.
  - now exists b.
  - inversion Hh as [|? ? Hx Hh']; subst.
    destruct b as [|x' b]; cbn in E; injection E as -> E; [congruence|].
    destruct (IH b E Hh' Hd) as (l & -> & ->). now exists l.
Qed.

Lemma gauge_tail_no_digit (w : str) (x1 x2 x3 : ascii) :
  spaces w -> lit_eq true "A" x1 = true -> lit_eq true "W" x2 = true ->
  lit_eq true "G" x3 = true ->
  no_digit (w ++ [x1; x2; x3]) /\
  exists c t, w ++ [x1; x2; x3] = c :: t /\ is_digit c = false.
Proof.
  intros Hw H1 H2 H3. split.
  - apply Forall_app. split.
    + unfold spaces in Hw. rewrite Forall_forall in *.
      intros c Hc. now apply space_not_digit, Hw.
    + repeat constructor;
        [now apply letter_A_not_digit | now apply letter_W_not_digit
         | now apply letter_G_not_digit].
  - destruct Hw as [|c w Hc _]; cbn.
    + exists x1, [x2; x3]. split; [reflexivity | now apply letter_A_not_digit].
    + exists c, (w ++ [x1; x2; x3]). split; [reflexivity | now apply space_not_digit].
Qed.

Lemma lstrip_spaces (w rest : str) (x : ascii) :
  spaces w -> is_space x = false ->
  lstrip_of is_space (w ++ x :: rest) = x :: rest.
Proof.
  induction 1 as [|c w Hc _ IH]; intros Hx; cbn [app lstrip_of].
  - now rewrite Hx.
  - rewrite Hc. now apply IH.
Qed.

(** [has_gauge] finds every gauge of the text. *)
Lemma has_gauge_found (s : str) : gauge_occurs s -> has_gauge s = true.
Proof.
  intros (a & d & w & u & c & b & -> & Hd & Hw & Hu & Hc).
  destruct (any_case_AWG u Hu) as (x1 & x2 & x3 & -> & H1 & H2 & H3).
  induction a as [|x a IH].
  - cbn [app has_gauge gauge_here]. rewrite Hd. cbn [andb app].
    rewrite (lstrip_spaces w _ x1 Hw (letter_A_not_space x1 H1)).
    cbn [awg_then_other]. now rewrite H1, H2, H3, Hc.
  - cbn [app has_gauge]. cbn [app] in IH. rewrite IH. apply orb_true_r.
Qed.

Lemma nonword_in_head (l b pre front : str) (c : ascii) :
  l ++ c :: b = pre ++ front -> is_word c = false -> digits front ->
  exists t, pre = l ++ c :: t.
Proof.
  intros E Hc Hfront.
  assert (Hnot : ~ In c front).
  { intros Hin. unfold digits in Hfront. rewrite Forall_forall in Hfront.
    rewrite (digit_is_word c (Hfront c Hin)) in Hc. discriminate. }
  revert pre E. induction l as [|x l IH]; intros pre E; cbn in E.
  - destruct pre as [|x pre]; cbn in E.
    + exfalso. apply Hnot. rewrite <- E. now left.
    + injection E as -> _. now exists pre.
  - destruct pre as [|x' pre]; cbn in E.
    + exfalso. apply Hnot. rewrite <- E. right. apply in_elt.
    + injection E as -> E. destruct (IH pre E) as (t & ->). now exists t.
Qed.

(** Digits after a text add no gauge to it: a gauge ends with a character
    that is not a word character. *)
Lemma gauge_occurs_before_digits (pre front : str) :
  digits front -> gauge_occurs (pre ++ front) -> gauge_occurs pre.
Proof.
  intros Hfront (a & d & w & u & c & b & E & Hd & Hw & Hu & Hc).
  assert (E' : (a ++ d :: w ++ u) ++ c :: b = pre ++ front).
  { rewrite E, <- app_assoc. cbn [app]. now rewrite <- app_assoc. }
  destruct (nonword_in_head _ _ _ _ _ E' Hc Hfront) as (t & ->).
  exists a, d, w, u, c, t. repeat split; auto.
  rewrite <- app_assoc. cbn [app]. now rewrite <- app_assoc.
Qed.

(** Where no gauge comes earlier, every match that starts at or before two
    digits has these two digits as its group, whatever follows them. *)
Lemma first_gauge_group (a b rest bef : str) (d1 d2 : ascii) (m : pos) :
  ~ gauge_occurs (a ++ b) ->
  is_digit d1 = true -> is_digit d2 = true ->
  Matches true AWG_PATTERN (mkpos bef (b ++ d1 :: d2 :: rest) None) m ->
  grp1 m = Some [d1; d2].
Proof.
  intros Hno Hd1 Hd2 Hm.
  destruct (gauge_match_parts _ _ Hm)
    as (h & g & w & x1 & x2 & x3 & E & Hh & Hg & Hne & Hlen & Hw
        & H1 & H2 & H3 & Hgrp & Hend).
  cbn [after] in E.
  destruct (gauge_tail_no_digit w x1 x2 x3 Hw H1 H2 H3)
    as (Hunit & c0 & t0 & Eunit & Hc0).
  pose proof (any_case_AWG_letters x1 x2 x3 H1 H2 H3) as Hawg.
  set (unit := w ++ [x1; x2; x3]) in *.
  set (tl := after m) in *.
  assert (E' : h ++ g ++ unit ++ tl = b ++ d1 :: d2 :: rest).
  { rewrite E. unfold unit. now rewrite <- !app_assoc. }
  clear E.
  destruct (no_digit_prefix h _ b _ d1 E' Hh Hd1) as (l & -> & El).
  (* a gauge of [a ++ h ++ ...] that ends inside it contradicts [Hno] *)
  assert (Hearlier : forall front d t,
             is_digit d = true ->
             unit ++ tl = t ++ d1 :: d2 :: rest ->
             l = front ++ d :: t -> False).
  { intros front d t Hd Et ->.
    destruct (no_digit_prefix unit tl t _ d1 Et Hunit Hd1) as (t' & -> & Etl).
    destruct t' as [|c t'].
    - rewrite Etl in Hend. cbn in Hend.
      rewrite (digit_is_word d1 Hd1) in Hend. discriminate.
    - rewrite Etl in Hend. cbn in Hend.
      apply Hno. exists (a ++ h ++ front), d, w, [x1; x2; x3], c, t'.
      repeat split; auto.
      unfold unit. rewrite <- !app_assoc. cbn [app].
      now rewrite <- ?app_assoc. }
  rewrite Hgrp. f_equal.
  destruct g as [|g1 g']; [congruence|].
  pose proof (Forall_inv Hg) as Hg1. apply Forall_inv_tail in Hg.
  destruct l as [|x l']; cbn [app] in El; injection El as -> El.
  - destruct g' as [|g2 g'']; cbn [app] in El.
    + exfalso. rewrite Eunit in El. cbn in El. injection El as -> _. congruence.
    + destruct g''; [|cbn in Hlen; lia]. now injection El as -> _.
  - exfalso. destruct g' as [|y g'']; cbn [app] in El.
    + exact (Hearlier [] x l' Hg1 El eq_refl).
    + destruct g''; [|cbn in Hlen; lia]. cbn [app] in El.
      pose proof (Forall_inv Hg) as Hy.
      destruct l' as [|y' l'']; cbn [app] in El; injection El as -> El.
      * rewrite Eunit in El. cbn in El. injection El as -> _. congruence.
      * exact (Hearlier [x] y' l'' Hy El eq_refl).
Qed.

Lemma search_first_gauge (pre ws awg post : str) (d1 d2 : ascii) :
  ~ gauge_occurs pre ->
  is_digit d1 = true -> is_digit d2 = true ->
  spaces ws -> any_case (text "AWG") awg -> word_ends_before post ->
  exists m,
    search true AWG_PATTERN (pre ++ [d1; d2] ++ ws ++ awg ++ post) = Some m /\
    grp1 m = Some [d1; d2].
Proof.
  intros Hno Hd1 Hd2 Hws Hawg Hpost. unfold search.
  apply search_from_first.
  - intros a b m -> _ Hm.
    now apply (first_gauge_group a b (ws ++ awg ++ post) (rev a ++ []) d1 d2 m).
  - now apply gauge_match_exists.
  - intros m Hm.
    apply (first_gauge_group pre [] (ws ++ awg ++ post) (rev pre ++ []) d1 d2 m);
      auto.
    now rewrite app_nil_r.
Qed.

Lemma int_two_digits (d1 d2 : ascii) :
  is_digit d1 = true -> is_digit d2 = true ->
  Py.int [d1; d2] = Ok (digit_val d1 * 10 + digit_val d2).
Proof.
  intros H1 H2. unfold Py.int, strip_of. cbn [lstrip_of].
  rewrite (digit_not_space d1 H1). cbn [rev app lstrip_of].
  rewrite (digit_not_space d2 H2). cbn [rev app].
  destruct (digit_not_sign d1 H1) as [-> ->].
  cbn [int_unsigned]. rewrite H1. cbn [int_digits]. now rewrite H2.
Qed.

Lemma truthy_app (s : str) (c : ascii) (t : str) : truthy (s ++ c :: t) = true.
Proof. now destruct s. Qed.

(** The first gauge of a text: after a part that holds no gauge, the last two
    digits of a run of digits that is followed by whitespace and AWG. *)
Lemma parse_awg_first_gauge (pre front ws awg post : str) (d1 d2 : ascii) :
  has_gauge pre = false -> digits front ->
  is_digit d1 = true -> is_digit d2 = true ->
  spaces ws -> any_case (text "AWG") awg -> word_ends_before post ->
  parse_awg (pre ++ front ++ [d1; d2] ++ ws ++ awg ++ post)
  = Ok (Some (digit_val d1 * 10 + digit_val d2)).
Proof.
  intros Hpre Hfront Hd1 Hd2 Hws Hawg Hpost.
  assert (Hno : ~ gauge_occurs (pre ++ front)).
  { intros Ho. apply (gauge_occurs_before_digits pre front Hfront) in Ho.
    apply has_gauge_found in Ho. congruence. }
  rewrite app_assoc.
  destruct (search_first_gauge (pre ++ front) ws awg post d1 d2)
    as (m & Hsearch & Hgrp); auto.
  unfold parse_awg. rewrite Hsearch.
  replace (truthy ((pre ++ front) ++ [d1; d2] ++ ws ++ awg ++ post)) with true
    by (symmetry; apply truthy_app).
  cbn [negb]. unfold int_group1. rewrite Hgrp.
  now rewrite (int_two_digits d1 d2 Hd1 Hd2).
Qed.

(** ** Gauge extraction *)

(** C8 as stated fails: both texts contain "12 AWG", but in the first an
    earlier gauge is found (the first match wins) and in the second AWG is not
    followed by a word boundary. *)
Lemma parse_awg_text_containing_12_awg :
  parse_awg (text "6 AWG or " ++ text "12 AWG" ++ text " wire") = Ok (Some 6) /\
  parse_awg (text "" ++ text "12 AWG" ++ text "s") = Ok None.
Proof. split; vm_compute; reflexivity. Qed.

(** C8, as the code has it: for a text made of a part that holds no gauge (no
    digit followed by optional whitespace, AWG in any letter case and a
    character that is not a word character; it may hold other digits and may
    end in "#"), then "12", any whitespace, AWG in any letter case, and then
    the end of the text or a character that is not a word character,
    [parse_awg] returns 12. *)
Theorem parse_awg_12 (pre ws awg post : str) :
  has_gauge pre = false ->
  spaces ws ->
  any_case (text "AWG") awg ->
  word_ends_before post ->
  parse_awg (pre ++ text "12" ++ ws ++ awg ++ post) = Ok (Some 12).
Proof.
  intros Hpre Hws Hawg Hpost.
  change 12 with (digit_val "1" * 10 + digit_val "2").
  apply (parse_awg_first_gauge pre [] ws awg post "1" "2"); auto.
  constructor.
Qed.

Lemma parse_awg_12_witness :
  parse_awg (text "600V THHN AWGs, 2 conductor #" ++ text "12" ++ text "  "
             ++ text "awg" ++ text ", 6 AWG ground")
  = Ok (Some 12).
Proof.
  apply (parse_awg_12 (text "600V THHN AWGs, 2 conductor #") (text "  ")
           (text "awg") (text ", 6 AWG ground")).
  - reflexivity.
  - repeat constructor.
  - reflexivity.
  - reflexivity.
Defined.

(** C10 as stated fails: in both texts the digits before AWG are "120", but in
    the first an earlier gauge is found and in the second AWG is not followed
    by a word boundary. *)
Lemma parse_awg_three_digits_before_awg :
  parse_awg (text "6 AWG and " ++ text "120" ++ text " AWG") = Ok (Some 6) /\
  parse_awg (text "120" ++ text " AWG" ++ text "s") = Ok None.
Proof. split; vm_compute; reflexivity. Qed.

(** C10, as the code has it: for a text made of a part that holds no gauge
    (it may hold other digits), then a run of three or more digits, any
    whitespace, AWG in any letter case, and then the end of the text or a
    character that is not a word character, [parse_awg] returns the number
    written by the last two digits of the run ("120 AWG" gives 20). *)
Theorem parse_awg_keeps_last_two_digits (pre run ws awg post : str) :
  has_gauge pre = false ->
  digits run ->
  (3 <= List.length run)%nat ->
  spaces ws ->
  any_case (text "AWG") awg ->
  word_ends_before post ->
  exists front d1 d2,
    run = front ++ [d1; d2] /\
    parse_awg (pre ++ run ++ ws ++ awg ++ post)
    = Ok (Some (digit_val d1 * 10 + digit_val d2)).
Proof.
  intros Hpre Hrun Hlen Hws Hawg Hpost.
  destruct (rev run) as [|d2 [|d1 front]] eqn:E;
    apply (f_equal (@rev _)) in E; rewrite rev_involutive in E; subst run;
    cbn in Hlen; try lia.
  exists (rev front), d1, d2.
  cbn [rev]. rewrite <- app_assoc. cbn [app]. split; [reflexivity|].
  unfold digits in Hrun. cbn [rev] in Hrun. rewrite <- app_assoc in Hrun.
  apply Forall_app in Hrun. destruct Hrun as [Hfront Hlast].
  inversion Hlast as [|? ? Hd1 Hlast']; subst.
  inversion Hlast' as [|? ? Hd2 _]; subst.
  rewrite <- app_assoc.
  now apply (parse_awg_first_gauge pre (rev front) ws awg post d1 d2).
Qed.

Lemma parse_awg_keeps_last_two_digits_witness :
  parse_awg (text "600V 120 AWG") = Ok (Some 20) /\
  exists front d1 d2,
    text "120" = front ++ [d1; d2] /\
    parse_awg (text "600V " ++ text "120" ++ text " " ++ text "AWG" ++ text "")
    = Ok (Some (digit_val d1 * 10 + digit_val d2)).
Proof.
  split; [vm_compute; reflexivity|].
  apply (parse_awg_keeps_last_two_digits
           (text "600V ") (text "120") (text " ") (text "AWG") (text "")).
  - reflexivity.
  - repeat constructor.
  - cbn. lia.
  - repeat constructor.
  - reflexivity.
  - reflexivity.
Defined.

(* ================================================================== *)
(** * Part 3. Further properties of the program *)
(* ================================================================== *)

(** ** The gauge selector: when it answers and when it raises *)

Lemma table_codes_in_range {F : Type} `{PyFloat F} (material : string) (size : Z) :
  In size (keys (table_of (F := F) material)) -> -3 <= size <= 14.
Proof.
  unfold table_of. destruct (String.eqb material "aluminum");
    apply codes_within_check; reflexivity.
Qed.

(** The two ways [suggest_awg] ends when the division by [volts] is
    defined: with the largest code that passes the test, or with -3 when no
    code passes. *)
Lemma suggest_awg_cases {F : Type} `{PyFloat F}
    (material : string) (amps volts one_way_ft max_drop_pct : F) :
  is_zero volts = false ->
  (exists size r,
      suggest_awg material amps volts one_way_ft max_drop_pct
        = Ok (size, v_drop_of amps one_way_ft r) /\
      getitem (table_of material) size = Ok r /\
      passes_test amps volts one_way_ft max_drop_pct r = true /\
      forall size' r',
        getitem (table_of material) size' = Ok r' ->
        passes_test amps volts one_way_ft max_drop_pct r' = true ->
        size' <= size)
  \/
  (exists r,
      suggest_awg material amps volts one_way_ft max_drop_pct
        = Ok (-3, v_drop_of amps one_way_ft r) /\
      getitem (table_of material) (-3) = Ok r /\
      forall size' r',
        getitem (table_of material) size' = Ok r' ->
        passes_test amps volts one_way_ft max_drop_pct r' = false).
Proof.
  intros Hvolts.
  set (table := table_of material) in *.
  set (sizes := sorted_reverse (keys table)).
  assert (Hkeys : forall s, In s sizes -> In s (keys table))
    by (intros s; apply sorted_reverse_In).
  destruct (suggest_loop_first table amps volts one_way_ft max_drop_pct
              Hvolts sizes Hkeys)
    as [(pre & s & post & r & Hsplit & Hr & Hfit & Hpre & Hrun) | (Hall & Hrun)].
  - left. exists s, r. repeat split; auto.
    + unfold suggest_awg. fold table. fold sizes. now rewrite Hrun.
    + intros s' r' Hr' Hfit'.
      assert (Hin : In s' sizes).
      { apply (proj2 (sorted_reverse_In _ _)). eapply getitem_is_key; eauto. }
      rewrite Hsplit in Hin. apply in_app_or in Hin. destruct Hin as [Hin | Hin].
      * specialize (Hpre s' r' Hin Hr'). congruence.
      * eapply sorted_app_ge; [|exact Hin].
        rewrite <- Hsplit. apply sorted_reverse_sorted.
  - right.
    pose proof (thickest_is_4_0 (F := F) material) as Hlast.
    fold table in Hlast. fold sizes in Hlast.
    destruct (last_item_least sizes (-3) (sorted_reverse_sorted _) Hlast)
      as [Hin3 _].
    destruct (getitem_of_key table (-3) (Hkeys _ Hin3)) as [r Hr].
    exists r. repeat split; auto.
    + unfold suggest_awg. fold table. fold sizes. rewrite Hrun. cbn [bind].
      rewrite Hlast. cbn [bind]. now rewrite Hr.
    + intros s' r' Hr'. apply (Hall s' r'); [|exact Hr'].
      apply (proj2 (sorted_reverse_In _ _)). eapply getitem_is_key; eauto.
Qed.

(** X1: whenever [volts] is not zero, [suggest_awg] raises nothing, whatever
    the material string and the signs of the other inputs: it returns a size
    code of the material's table (between -3 and 14) with the drop in volts
    computed for that code. *)
Theorem suggest_awg_answers_unless_volts_zero {F : Type} `{PyFloat F}
    (material : string) (amps volts one_way_ft max_drop_pct : F) :
  is_zero volts = false ->
  exists size r,
    suggest_awg material amps volts one_way_ft max_drop_pct
      = Ok (size, fmul (fmul (fmul (of_int 2) amps) (fdiv r (of_lit 1000.0%Q)))
                       one_way_ft) /\
    getitem (table_of material) size = Ok r /\
    -3 <= size <= 14.
Proof.
  intros Hvolts.
  destruct (suggest_awg_cases material amps volts one_way_ft max_drop_pct Hvolts)
    as [(size & r & Hrun & Hr & _) | (r & Hrun & Hr & _)].
  - exists size, r. repeat split; auto;
      apply (table_codes_in_range material); eapply getitem_is_key; eauto.
  - exists (-3), r. repeat split; auto; lia.
Qed.

Lemma suggest_awg_answers_unless_volts_zero_witness :
  exists size r,
    suggest_awg (F := float) "brass" (-5)%float (-12)%float 0%float nan
      = Ok (size, fmul (fmul (fmul (of_int 2) (-5)%float)
                             (fdiv r (of_lit 1000.0%Q))) 0%float) /\
    getitem (table_of "brass") size = Ok r /\
    -3 <= size <= 14.
Proof.
  apply (suggest_awg_answers_unless_volts_zero (F := float)
           "brass" (-5)%float (-12)%float 0%float nan).
  vm_compute. reflexivity.
Defined.

(** X2: when [volts] is zero, [suggest_awg] raises ZeroDivisionError for
    every material, current, length and limit: the selector has no guard of
    its own. *)
Theorem suggest_awg_raises_on_zero_volts {F : Type} `{PyFloat F}
    (material : string) (amps volts one_way_ft max_drop_pct : F) :
  is_zero volts = true ->
  suggest_awg material amps volts one_way_ft max_drop_pct
  = Raise ZeroDivisionError.
Proof.
  intros Hvolts.
  unfold suggest_awg.
  pose proof (thickest_is_4_0 (F := F) material) as Hlast.
  set (table := table_of material) in *.
  destruct (sorted_reverse (keys table)) as [|s sizes] eqn:E; [discriminate|].
  assert (Hin : In s (keys table)).
  { apply (proj1 (sorted_reverse_In _ _)). rewrite E. now left. }
  destruct (getitem_of_key table s Hin) as [r Hr].
  cbn [suggest_loop]. rewrite Hr. cbn [bind].
  unfold drop_pct, truediv. now rewrite Hvolts.
Qed.

Lemma suggest_awg_raises_on_zero_volts_witness :
  suggest_awg (F := float) "aluminum" 15%float (-0)%float 50%float 3%float
  = Raise ZeroDivisionError.
Proof.
  apply (suggest_awg_raises_on_zero_volts (F := float)
           "aluminum" 15%float (-0)%float 50%float 3%float).
  vm_compute. reflexivity.
Defined.

(** ** The gauge selector in exact arithmetic: monotonicity *)

Lemma Q_gt0_nonzero (x : Q) : (0 < x)%Q -> is_zero x = false.
Proof.
  intros Hx. cbn. destruct (Qeq_bool x 0%Q) eqn:E; [|reflexivity].
  apply Qeq_bool_iff in E. rewrite E in Hx. lra.
Qed.

(** The percentage the selector compares with the limit. *)
Lemma drop_percentage_value (amps volts one_way_ft r : Q) :
  ~ (volts == 0)%Q ->
  (fmul (fdiv (v_drop_of amps one_way_ft r) volts) (of_lit 100.0%Q)
   == r * (amps * one_way_ft) / (5 * volts))%Q.
Proof.
  intros Hv. unfold v_drop_of. cbn [fmul fdiv of_int of_lit Q_float].
  change (inject_Z 2) with 2%Q. field. exact Hv.
Qed.

(** A test that passes still passes with less resistance, less current, a
    shorter run or a looser limit. *)
Lemma passes_test_monotone (amps1 amps2 volts len1 len2 max1 max2 r1 r2 : Q) :
  (0 <= amps1 <= amps2)%Q -> (0 <= len1 <= len2)%Q -> (0 <= r1 <= r2)%Q ->
  (0 < volts)%Q -> (max2 <= max1)%Q ->
  passes_test amps2 volts len2 max2 r2 = true ->
  passes_test amps1 volts len1 max1 r1 = true.
Proof.
  intros Ha Hl Hr Hv Hmax. unfold passes_test. cbn [fleb Q_float].
  rewrite !Qle_bool_iff.
  assert (Hne : ~ (volts == 0)%Q) by (intros E; rewrite E in Hv; lra).
  rewrite !drop_percentage_value by exact Hne.
  intros H2.
  apply Qle_trans with (2 := Hmax). apply Qle_trans with (2 := H2).
  unfold Qdiv. apply Qmult_le_compat_r.
  - apply Qmult_le_compat_nonneg; [exact Hr|].
    split; [|now apply Qmult_le_compat_nonneg].
    apply Qmult_le_0_compat; lra.
  - apply Qlt_le_weak, Qinv_lt_0_compat. lra.
Qed.

Lemma getitem_is_item {V : Type} (d : list (Z * V)) (k : Z) (v : V) :
  getitem d k = Ok v -> In (k, v) d.
Proof.
  induction d as [|[k' v'] d IH]; cbn; [discriminate|].
  destruct (k' =? k) eqn:E.
  - apply Z.eqb_eq in E. intros [= <-]. subst. now left.
  - intros Hd. right. now apply IH.
Qed.

Lemma suggest_awg_code_in_range {F : Type} `{PyFloat F}
    (material : string) (amps volts one_way_ft max_drop_pct : F)
    (size : Z) (drop : F) :
  is_zero volts = false ->
  suggest_awg material amps volts one_way_ft max_drop_pct = Ok (size, drop) ->
  -3 <= size <= 14.
Proof.
  intros Hvolts Hrun.
  destruct (suggest_awg_cases material amps volts one_way_ft max_drop_pct Hvolts)
    as [(s & r & Hs & Hr & _) | (r & Hs & _)];
    rewrite Hs in Hrun; injection Hrun as <- _; [|lia].
  apply (table_codes_in_range material). eapply getitem_is_key; eauto.
Qed.

Lemma table_values_positive (material : string) (size : Z) (r : Q) :
  getitem (table_of (F := Q) material) size = Ok r -> (0 < r)%Q.
Proof.
  assert (Hall : check_positive (table_of (F := Q) material) = true).
  { unfold table_of. destruct (String.eqb material "aluminum"); reflexivity. }
  unfold check_positive in Hall. rewrite forallb_forall in Hall.
  intros Hr.
  specialize (Hall _ (getitem_is_item _ _ _ Hr)). cbn in Hall.
  apply negb_true_iff in Hall. apply Qnot_le_lt. intros Hle.
  apply Qle_bool_iff in Hle. congruence.
Qed.

Lemma table_thicker_is_lower (material : string) :
  thicker_is_lower (table_of (F := Q) material).
Proof.
  unfold table_of. destruct (String.eqb material "aluminum");
    apply check_table_sound; vm_compute; reflexivity.
Qed.

(** X3: in exact arithmetic, for a current and a run length that are not
    negative and volts above zero, when a size code meets the drop limit then
    every smaller code of the table (every thicker wire) meets it too. *)
Theorem thicker_wire_also_meets_drop
    (material : string) (amps volts one_way_ft max_drop_pct : Q) (size size' : Z) :
  (0 <= amps)%Q -> (0 < volts)%Q -> (0 <= one_way_ft)%Q ->
  meets_drop material amps volts one_way_ft max_drop_pct size ->
  In size' (keys (table_of (F := Q) material)) ->
  size' < size ->
  meets_drop material amps volts one_way_ft max_drop_pct size'.
Proof.
  intros Ha Hv Hl (r & Hr & Hfit) Hin Hlt.
  destruct (getitem_of_key _ _ Hin) as [r' Hr'].
  exists r'. split; [exact Hr'|].
  pose proof (table_thicker_is_lower material _ _ _ _ Hr Hr' Hlt) as Hless.
  cbn [fltb Q_float] in Hless. apply negb_true_iff in Hless.
  assert (Hrr : (r' <= r)%Q).
  { apply Qlt_le_weak, Qnot_le_lt. intros Hle.
    apply Qle_bool_iff in Hle. congruence. }
  pose proof (table_values_positive _ _ _ Hr') as Hpos.
  apply (passes_test_monotone amps amps volts one_way_ft one_way_ft
           max_drop_pct max_drop_pct r' r); try lra.
  exact Hfit.
Qed.

Lemma thicker_wire_also_meets_drop_witness :
  meets_drop (F := Q) "copper" 20%Q 120%Q 100%Q 3%Q 4.
Proof.
  apply (thicker_wire_also_meets_drop "copper" 20%Q 120%Q 100%Q 3%Q 8 4).
  - discriminate.
  - reflexivity.
  - discriminate.
  - exists 0.6282%Q. split; reflexivity.
  - is_key.
  - lia.
Defined.

(** X4: in exact arithmetic, with volts above zero, a smaller current, a
    shorter run or a looser limit never makes [suggest_awg] ask for a thicker
    wire: the size code it returns is at least as large. *)
Theorem suggest_awg_monotone
    (material : string) (amps1 amps2 volts len1 len2 max1 max2 : Q)
    (size1 size2 : Z) (drop1 drop2 : Q) :
  (0 <= amps1 <= amps2)%Q -> (0 <= len1 <= len2)%Q ->
  (0 < volts)%Q -> (max2 <= max1)%Q ->
  suggest_awg material amps1 volts len1 max1 = Ok (size1, drop1) ->
  suggest_awg material amps2 volts len2 max2 = Ok (size2, drop2) ->
  size2 <= size1.
Proof.
  intros Ha Hl Hv Hmax Hrun1 Hrun2.
  pose proof (Q_gt0_nonzero volts Hv) as Hnz.
  destruct (suggest_awg_cases material amps2 volts len2 max2 Hnz)
    as [(s2 & r2 & Hs2 & Hr2 & Hfit2 & _) | (r2 & Hs2 & _)];
    rewrite Hs2 in Hrun2; injection Hrun2 as <- _.
  - assert (Hfit1 : passes_test amps1 volts len1 max1 r2 = true).
    { pose proof (table_values_positive _ _ _ Hr2).
      apply (passes_test_monotone amps1 amps2 volts len1 len2 max1 max2 r2 r2);
        auto; lra. }
    destruct (suggest_awg_cases material amps1 volts len1 max1 Hnz)
      as [(s1 & r1 & Hs1 & _ & _ & Hmax1) | (r1 & _ & _ & Hnone)].
    + rewrite Hs1 in Hrun1. injection Hrun1 as <- _. now apply (Hmax1 s2 r2).
    + specialize (Hnone s2 r2 Hr2). congruence.
  - destruct (suggest_awg_code_in_range material amps1 volts len1 max1
                size1 drop1 Hnz Hrun1). lia.
Qed.

Lemma suggest_awg_monotone_witness : 8 <= 14.
Proof.
  eapply (suggest_awg_monotone "copper" 10%Q 20%Q 120%Q 50%Q 100%Q 5%Q 3%Q 14 8).
  - split; discriminate.
  - split; discriminate.
  - reflexivity.
  - discriminate.
  - vm_compute. reflexivity.
  - vm_compute. reflexivity.
Defined.

(** ** Per-run voltage drop row: the filled row *)

(** X5: for a run row with a length above zero, and amps and volts above
    zero, the handler raises nothing and fills the row: the gauge cell is the
    label of the size code [suggest_awg] returns (a code between -3 and 14),
    the drop cell is its drop rounded to 2 places and the percent cell is
    [(drop / volts) * 100] rounded to 2 places. *)
Theorem vdrop_row_filled_for_positive_inputs
    {F : Type} `{PyFloat F} `{PyFloatRound F} `{!PyFloatOrder F}
    (mat : string) (amps volts max_drop one_way : F) (label : string) :
  fltb (of_int 0) amps = true ->
  fltb (of_int 0) volts = true ->
  fltb (of_int 0) one_way = true ->
  exists size vdrop,
    suggest_awg mat amps volts one_way max_drop = Ok (size, vdrop) /\
    -3 <= size <= 14 /\
    vdrop_row mat amps volts max_drop (mkRun label (Some one_way))
    = Ok (mkVdropRow label (Some one_way) (awg_label size)
            (Some (fround vdrop 2))
            (Some (fround (fmul (fdiv vdrop volts) (of_int 100)) 2))).
Proof.
  intros Ha Hv Hl.
  pose proof (gt0_nonzero _ Hv) as Hnz.
  destruct (suggest_awg_cases mat amps volts one_way max_drop Hnz)
    as [(size & r & Hrun & Hr & _) | (r & Hrun & Hr & _)].
  - exists size, (v_drop_of amps one_way r). split; [exact Hrun|]. split.
    + apply (table_codes_in_range mat). eapply getitem_is_key; eauto.
    + unfold vdrop_row. cbn [run_label run_length cell_gt0].
      rewrite Ha, Hv, Hl. cbn [andb]. rewrite Hrun. cbn [bind].
      unfold truediv. now rewrite Hnz.
  - exists (-3), (v_drop_of amps one_way r). split; [exact Hrun|]. split; [lia|].
    unfold vdrop_row. cbn [run_label run_length cell_gt0].
    rewrite Ha, Hv, Hl. cbn [andb]. rewrite Hrun. cbn [bind].
    unfold truediv. now rewrite Hnz.
Qed.

Lemma vdrop_row_filled_for_positive_inputs_witness :
  vdrop_row (F := Q) "copper" 20%Q 120%Q 3%Q (mkRun "Run 3" (Some 100%Q))
    = Ok (mkVdropRow "Run 3" (Some 100%Q) "8 AWG" (Some 2.51%Q) (Some 2.09%Q)) /\
  exists size vdrop,
    suggest_awg (F := Q) "copper" 20%Q 120%Q 100%Q 3%Q = Ok (size, vdrop) /\
    -3 <= size <= 14 /\
    vdrop_row (F := Q) "copper" 20%Q 120%Q 3%Q (mkRun "Run 3" (Some 100%Q))
    = Ok (mkVdropRow "Run 3" (Some 100%Q) (awg_label size)
            (Some (fround vdrop 2))
            (Some (fround (fmul (fdiv vdrop 120%Q) (of_int 100)) 2))).
Proof.
  split; [vm_compute; reflexivity|].
  apply (vdrop_row_filled_for_positive_inputs (F := Q)
           "copper" 20%Q 120%Q 3%Q 100%Q "Run 3");
    reflexivity.
Defined.

(** ** Packaging plan: how much it overshoots *)

Lemma last_item_app {A : Type} (xs : list A) (x : A) :
  last_item (xs ++ [x]) = Ok x.
Proof.
  induction xs as [|y xs IH]; [reflexivity|].
  cbn [app last_item]. rewrite IH. now destruct (xs ++ [x]) eqn:E; [destruct xs|].
Qed.

Lemma last_item_exists {A : Type} (xs : list A) :
  xs <> [] -> exists x, last_item xs = Ok x /\ In x xs.
Proof.
  intros Hne. destruct (rev xs) as [|x front] eqn:E;
    apply (f_equal (@rev _)) in E; rewrite rev_involutive in E; subst xs.
  - now cbn in Hne.
  - cbn [rev]. exists x. split; [apply last_item_app|].
    apply in_or_app. right. now left.
Qed.

(** The plan, the footage it covers and what the loop left over. *)
Lemma greedy_plan_feet (packs : list Z) (total_ft : Q) :
  Forall (fun p => 0 < p) packs -> packs <> [] -> (0 <= total_ft)%Q ->
  exists smallest,
    last_item packs = Ok smallest /\ 0 < smallest /\
    (total_ft <= inject_Z (plan_feet (greedy_plan packs total_ft)))%Q /\
    (inject_Z (plan_feet (greedy_plan packs total_ft)) < total_ft + inject_Z smallest)%Q.
Proof.
  intros Hpos Hne H0.
  destruct (last_item_exists packs Hne) as (smallest & Hsmall & Hin).
  assert (Hsp : 0 < smallest) by (rewrite Forall_forall in Hpos; now apply Hpos).
  assert (HspQ : (0 < inject_Z smallest)%Q).
  { change 0%Q with (inject_Z 0). now rewrite <- Zlt_Qlt. }
  exists smallest. split; [exact Hsmall|]. split; [exact Hsp|].
  destruct (greedy_counts_sum packs Hpos total_ft H0)
    as (Hsum & Hleft & Hnn & Hlast).
  pose proof (greedy_counts_sizes packs total_ft) as Hsizes.
  unfold greedy_plan.
  set (rows := fst (greedy_counts packs total_ft)) in *.
  set (left := snd (greedy_counts packs total_ft)) in *.
  clearbody rows left.
  destruct (Qle_bool left 0%Q) eqn:E.
  - apply Qle_bool_iff in E. rewrite plan_feet_filter by exact Hnn. split; lra.
  - assert (Hpos_left : (0 < left)%Q).
    { apply Qnot_le_lt. intros Hle. apply Qle_bool_iff in Hle. congruence. }
    destruct (rev rows) as [|[p count] earlier] eqn:Erev;
      apply (f_equal (@rev _)) in Erev; rewrite rev_involutive in Erev;
      cbn [rev] in Erev.
    + exfalso. apply Hne. rewrite <- Hsizes. now rewrite Erev.
    + specialize (Hlast (rev earlier) p count Erev). subst rows.
      assert (Hp : p = smallest).
      { rewrite map_app in Hsizes. cbn [map fst] in Hsizes.
        rewrite <- Hsizes, last_item_app in Hsmall. congruence. }
      rewrite Hp in *. clear Hp.
      apply Forall_app in Hnn. destruct Hnn as [Hnn1 Hnn2].
      apply Forall_inv in Hnn2. cbn in Hnn2.
      rewrite plan_feet_filter.
      * rewrite plan_feet_app in Hsum. rewrite plan_feet_app.
        cbn [plan_feet fold_right fst snd] in *.
        rewrite !inject_Z_plus, !inject_Z_mult in *.
        rewrite !inject_Z_plus.
        change (inject_Z 0) with 0%Q in *. change (inject_Z 1) with 1%Q.
        setoid_replace (inject_Z smallest * (inject_Z count + 1))%Q
          with (inject_Z smallest * inject_Z count + inject_Z smallest)%Q by ring.
        split; lra.
      * apply Forall_app. split; [exact Hnn1|].
        constructor; [cbn; lia | constructor].
Qed.

(** X8: in binary64, for every finite total above zero and at most 2^53 and
    every non-empty set of whole pack sizes from 1 to 2^53, the plan
    overshoots the total by less than one pack of the smallest size. *)
Theorem purchase_plan_overshoot_below_smallest_pack
    (total_ft : float) (sizes : list Z) :
  (0 < float_to_Q total_ft <= inject_Z (2 ^ 53))%Q ->
  sizes <> [] ->
  Forall (fun p => 0 < p <= 2 ^ 53) sizes ->
  let packs := sorted_reverse (set_of sizes) in
  exists plan smallest,
    purchase_plan (F := float) packs total_ft = Ok plan /\
    last_item packs = Ok smallest /\
    (forall p, In p sizes -> smallest <= p) /\
    (inject_Z (plan_feet plan) - float_to_Q total_ft < inject_Z smallest)%Q.
Proof.
  intros Htotal Hne Hsizes packs.
  pose proof (set_of_nonempty sizes Hne) as Hpacks_ne.
  pose proof (set_of_Forall _ sizes Hsizes) as Hpacks.
  fold packs in Hpacks_ne, Hpacks.
  destruct (greedy_plan_feet packs (float_to_Q total_ft)
              (sizes_above_zero packs Hpacks) Hpacks_ne)
    as (smallest & Hsmall & _ & _ & Hover); [lra|].
  exists (greedy_plan packs (float_to_Q total_ft)), smallest.
  split; [now apply purchase_plan_binary64|]. split; [exact Hsmall|].
  split; [|lra].
  intros p Hp.
  destruct (last_item_least packs smallest (sorted_reverse_sorted _) Hsmall)
    as [_ Hleast].
  apply Hleast. apply (proj2 (sorted_reverse_In _ _)).
  unfold set_of. now apply (proj2 (nodup_In _ _ _)).
Qed.

Lemma purchase_plan_overshoot_below_smallest_pack_witness :
  purchase_plan (F := float) (sorted_reverse (set_of [250; 1000; 500])) 1760%float
    = Ok [(1000, 1); (500, 1); (250, 2)] /\
  exists plan smallest,
    purchase_plan (F := float) (sorted_reverse (set_of [250; 1000; 500])) 1760%float
      = Ok plan /\
    last_item (sorted_reverse (set_of [250; 1000; 500])) = Ok smallest /\
    (forall p, In p [250; 1000; 500] -> smallest <= p) /\
    (inject_Z (plan_feet plan) - float_to_Q 1760%float < inject_Z smallest)%Q.
Proof.
  split; [vm_compute; reflexivity|].
  apply (purchase_plan_overshoot_below_smallest_pack 1760%float [250; 1000; 500]).
  - split; vm_compute; [reflexivity | discriminate].
  - discriminate.
  - repeat constructor; lia.
Defined.

(** X9: in binary64, with a blank override and a detected pack of [p] ft
    ([p] from 1 to 2^53, unit "ft"), for a finite total above zero and at
    most 2^53 the handler recommends a single row: the pack [p] in the
    smallest quantity whose footage covers the total. *)
Theorem packaging_detected_pack_rounds_up
    (manual_pack : str) (p : Z) (total_ft : float) :
  truthy (strip manual_pack) = false ->
  0 < p <= 2 ^ 53 ->
  (0 < float_to_Q total_ft <= inject_Z (2 ^ 53))%Q ->
  exists quantity,
    packaging (F := float) manual_pack (Some p) (Some "ft"%string) total_ft
      = Ok (mkPackaging [RecommendedPlan] [(p, quantity)]) /\
    (inject_Z ((quantity - 1) * p) < float_to_Q total_ft
     <= inject_Z (quantity * p))%Q.
Proof.
  intros Hblank Hp Htotal.
  unfold packaging, choose_packs. rewrite Hblank.
  replace (negb (p =? 0)) with true
    by (symmetry; apply negb_true_iff, Z.eqb_neq; lia).
  cbn [andb String.eqb Ascii.eqb Bool.eqb app].
  assert (Hsizes : Forall (fun p => 0 < p <= 2 ^ 53) [p])
    by (repeat constructor; apply Hp).
  rewrite (purchase_plan_binary64 [p] total_ft Hsizes Htotal). cbn [bind].
  destruct Htotal as [Htotal _].
  set (total := float_to_Q total_ft) in *. clearbody total.
  assert (H0 : (0 <= total)%Q) by lra.
  destruct (floor_step total p H0 ltac:(lia)) as (Hc & Hlo & Hhi).
  unfold greedy_plan. cbn [greedy_counts fst snd rev app].
  set (count := Qfloor (total / inject_Z p)%Q) in *.
  assert (HpQ : (0 < inject_Z p)%Q) by (apply inject_Z_pos; lia).
  destruct (Qle_bool (total - inject_Z (count * p)) 0%Q) eqn:E.
  - apply Qle_bool_iff in E.
    assert (Hcount : 0 < count).
    { destruct (Z.eq_dec count 0) as [Hz | Hz]; [|lia].
      rewrite Hz in E. change (inject_Z (0 * p)) with 0%Q in E. lra. }
    exists count. cbn [filter snd]. apply Z.ltb_lt in Hcount. rewrite Hcount.
    split; [reflexivity|].
    replace ((count - 1) * p) with (count * p + - p) by ring.
    rewrite inject_Z_plus, inject_Z_opp. split; lra.
  - assert (Hleft : (0 < total - inject_Z (count * p))%Q).
    { apply Qnot_le_lt. intros Hle. apply Qle_bool_iff in Hle. congruence. }
    exists (count + 1). cbn [filter snd].
    replace (0 <? count + 1) with true by (symmetry; apply Z.ltb_lt; lia).
    split; [reflexivity|].
    replace ((count + 1 - 1) * p) with (count * p) by ring.
    replace ((count + 1) * p) with (count * p + p) by ring.
    rewrite inject_Z_plus. split; lra.
Qed.

Lemma packaging_detected_pack_rounds_up_witness :
  packaging (F := float) (text "  ") (Some 500) (Some "ft"%string) 1200%float
    = Ok (mkPackaging [RecommendedPlan] [(500, 3)]) /\
  exists quantity,
    packaging (F := float) (text "  ") (Some 500) (Some "ft"%string) 1200%float
      = Ok (mkPackaging [RecommendedPlan] [(500, quantity)]) /\
    (inject_Z ((quantity - 1) * 500) < float_to_Q 1200%float
     <= inject_Z (quantity * 500))%Q.
Proof.
  split; [vm_compute; reflexivity|].
  apply (packaging_detected_pack_rounds_up (text "  ") 500 1200%float).
  - reflexivity.
  - lia.
  - split; vm_compute; [reflexivity | discriminate].
Defined.

(** ** Packaging override: what it parses to *)

Lemma mapM_Ok {A B : Type} (f : A -> result B) (xs : list A) (ys : list B) :
  mapM f xs = Ok ys ->
  forall y, In y ys <-> exists x, In x xs /\ f x = Ok y.
Proof.
  revert ys. induction xs as [|x xs IH]; intros ys; cbn [mapM].
  - intros [= <-] y. split; [intros [] | intros (x & [] & _)].
  - intros Hrun.
    apply bind_Ok in Hrun. destruct Hrun as (y0 & Hy0 & Hrun).
    apply bind_Ok in Hrun. destruct Hrun as (ys0 & Hys0 & [= <-]).
    intros y. split.
    + intros [<- | Hin].
      * exists x. split; [now left | exact Hy0].
      * apply (IH _ Hys0) in Hin. destruct Hin as (x' & Hx' & Hf).
        exists x'. split; [now right | exact Hf].
    + intros (x' & [<- | Hx'] & Hf).
      * left. congruence.
      * right. apply (IH _ Hys0). now exists x'.
Qed.

Lemma sorted_without_repeats (l : list Z) :
  StronglySorted Z.ge l -> NoDup l -> StronglySorted Z.gt l.
Proof.
  induction 1 as [|x l Hs IH Hx]; intros Hnd; [constructor|].
  inversion Hnd as [|? ? Hnotin Hnd']; subst.
  constructor; [now apply IH|].
  rewrite Forall_forall in *. intros y Hy. specialize (Hx y Hy).
  assert (x <> y) by (intros ->; contradiction). lia.
Qed.

Lemma sorted_set_strict (ints : list Z) :
  StronglySorted Z.gt (sorted_reverse (set_of ints)).
Proof.
  apply sorted_without_repeats; [apply sorted_reverse_sorted|].
  apply (Permutation_NoDup (sorted_reverse_perm _)).
  unfold set_of. apply NoDup_nodup.
Qed.

(** X10: when the override parses, the pack sizes the handler plans with are
    in strictly descending order (so without repeats), and they are exactly
    the integers that [int()] reads from the non-blank comma-separated
    pieces, whatever their order and however often they are repeated. *)
Theorem parse_packs_sorted_set (manual_pack : str) (packs : list Z) :
  parse_packs manual_pack = Ok packs ->
  StronglySorted Z.gt packs /\
  forall n,
    In n packs <->
    exists piece,
      In piece (split "," manual_pack) /\ truthy (strip piece) = true /\
      Py.int (strip piece) = Ok n.
Proof.
  unfold parse_packs. intros Hrun.
  apply bind_Ok in Hrun. destruct Hrun as (ints & Hints & [= <-]).
  split; [apply sorted_set_strict|].
  intros n. rewrite sorted_reverse_In. unfold set_of. rewrite nodup_In.
  rewrite (mapM_Ok _ _ _ Hints n).
  split; intros (piece & Hin & Hn); exists piece.
  - apply filter_In in Hin. tauto.
  - split; [apply filter_In|]; tauto.
Qed.

Lemma parse_packs_sorted_set_witness :
  parse_packs (text "250, 1000,,250 ,+500") = Ok [1000; 500; 250] /\
  StronglySorted Z.gt [1000; 500; 250] /\
  forall n,
    In n [1000; 500; 250] <->
    exists piece,
      In piece (split "," (text "250, 1000,,250 ,+500")) /\
      truthy (strip piece) = true /\ Py.int (strip piece) = Ok n.
Proof.
  split; [vm_compute; reflexivity|].
  apply (parse_packs_sorted_set (text "250, 1000,,250 ,+500") [1000; 500; 250]).
  vm_compute. reflexivity.
Defined.

Lemma plan_loop_app {F : Type} `{PyFloat F} `{PyFloatRound F}
    (packs1 packs2 : list Z) :
  forall (remaining : F) (acc : list (Z * Z)),
    plan_loop (packs1 ++ packs2) remaining acc
    = bind (plan_loop packs1 remaining acc)
           (fun st => plan_loop packs2 (fst st) (snd st)).
Proof.
  induction packs1 as [|p packs1 IH]; intros remaining acc; [reflexivity|].
  cbn [app plan_loop].
  destruct (int_to_float p) as [size|e]; [|reflexivity]. cbn [bind].
  destruct (floordiv remaining size) as [q|e]; [|reflexivity]. cbn [bind].
  destruct (ftrunc q) as [count|e]; [|reflexivity]. cbn [bind].
  destruct (int_to_float (count * p)) as [bought|e]; [|reflexivity]. cbn [bind].
  apply IH.
Qed.

Lemma float_of_int_raises (z : Z) (e : exn) :
  float_of_int z = Raise e -> e = OverflowError.
Proof.
  unfold float_of_int.
  destruct (binary_normalize prec emax z 0 false); congruence.
Qed.

Lemma float_int_raises (x : float) (e : exn) :
  float_int x = Raise e -> e = ValueError \/ e = OverflowError.
Proof.
  unfold float_int. destruct (Prim2SF x); intros [= <-]; auto.
Qed.

(** The loop cannot get past a pack size 0. *)
Lemma plan_loop_raises_on_zero (packs : list Z) :
  In 0 packs ->
  forall (remaining : float) (acc : list (Z * Z)),
  exists e,
    plan_loop (F := float) packs remaining acc = Raise e /\
    (e = ZeroDivisionError \/ e = OverflowError \/ e = ValueError).
Proof.
  induction packs as [|p packs IH]; intros Hin remaining acc; [destruct Hin|].
  destruct (Z.eq_dec p 0) as [-> | Hp].
  { exists ZeroDivisionError. split; [reflexivity | now left]. }
  assert (Hin' : In 0 packs) by (destruct Hin; [congruence | assumption]).
  cbn [plan_loop int_to_float binary64_round].
  destruct (float_of_int p) as [size|e] eqn:Esize; cbn [bind].
  2:{ exists e. split; [reflexivity|].
      right; left. exact (float_of_int_raises _ _ Esize). }
  unfold floordiv. destruct (is_zero size); cbn [bind].
  { exists ZeroDivisionError. split; [reflexivity | now left]. }
  cbn [ffloordiv ftrunc binary64_round].
  destruct (float_int (float_floor_div remaining size)) as [count|e] eqn:Ecount;
    cbn [bind].
  2:{ exists e. split; [reflexivity|].
      destruct (float_int_raises _ _ Ecount) as [-> | ->]; auto. }
  destruct (float_of_int (count * p)) as [bought|e] eqn:Eb; cbn [bind].
  2:{ exists e. split; [reflexivity|].
      right; left. exact (float_of_int_raises _ _ Eb). }
  now apply IH.
Qed.

(** X11: in binary64, when the override parses to sizes one of which is 0 (as
    "500,0" does), the handler shows no parse error and no plan: the planner
    raises ZeroDivisionError, OverflowError or ValueError, whatever the
    total.  It is ZeroDivisionError when no size is negative or above 2^53
    and the total is finite, above zero and at most 2^53. *)
Theorem packaging_raises_on_zero_pack_size
    (manual_pack : str) (detected_pack : option Z)
    (detected_pack_unit : option string) (total_ft : float) (packs : list Z) :
  truthy (strip manual_pack) = true ->
  parse_packs manual_pack = Ok packs ->
  In 0 packs ->
  (exists e,
     packaging (F := float) manual_pack detected_pack detected_pack_unit total_ft
     = Raise e /\
     (e = ZeroDivisionError \/ e = OverflowError \/ e = ValueError)) /\
  (Forall (fun p => 0 <= p <= 2 ^ 53) packs ->
   (0 < float_to_Q total_ft <= inject_Z (2 ^ 53))%Q ->
   packaging (F := float) manual_pack detected_pack detected_pack_unit total_ft
   = Raise ZeroDivisionError).
Proof.
  intros Hnonblank Hparse Hzero.
  assert (Hsorted : StronglySorted Z.gt packs).
  { unfold parse_packs in Hparse. apply bind_Ok in Hparse.
    destruct Hparse as (ints & _ & [= <-]). apply sorted_set_strict. }
  unfold packaging, choose_packs. rewrite Hnonblank, Hparse.
  split.
  - destruct packs as [|p0 rest]; [destruct Hzero|].
    unfold purchase_plan.
    destruct (plan_loop_raises_on_zero (p0 :: rest) Hzero total_ft [])
      as (e & He & Hcases).
    rewrite He. exists e. split; [reflexivity | exact Hcases].
  - intros Hnn [Hpos Hmax].
    destruct (in_split _ _ Hzero) as (front & back & ->).
    assert (Hback : back = []).
    { destruct back as [|b back]; [reflexivity|]. exfalso.
      rewrite Forall_forall in Hnn.
      assert (0 <= b <= 2 ^ 53) by (apply Hnn, in_or_app; right; right; now left).
      clear - Hsorted H. induction front as [|x front IH]; cbn in Hsorted.
      - inversion Hsorted as [|? ? _ Hall]; subst.
        apply Forall_inv in Hall. lia.
      - inversion Hsorted; subst. now apply IH. }
    subst back.
    assert (Hfront : Forall (fun p => 0 < p <= 2 ^ 53) front).
    { rewrite Forall_forall in *. intros x Hx.
      assert (0 <= x <= 2 ^ 53) by (apply Hnn, in_or_app; now left).
      assert (x > 0); [|lia].
      clear - Hsorted Hx. induction front as [|y front IH]; [destruct Hx|].
      cbn in Hsorted. inversion Hsorted as [|? ? Hs Hall]; subst.
      destruct Hx as [<- | Hx]; [|now apply IH].
      rewrite Forall_forall in Hall. apply Hall, in_or_app. right. now left. }
    destruct (front ++ [0]) as [|p0 rest] eqn:E; [now destruct front|].
    rewrite <- E. unfold purchase_plan.
    destruct (plan_loop_binary64 front Hfront total_ft (float_to_Q total_ft) []
                (float_to_Q_positive total_ft Hpos) Hmax) as (left & El & _).
    rewrite plan_loop_app, El. cbn [bind fst snd].
    reflexivity.
Qed.

Lemma packaging_raises_on_zero_pack_size_witness :
  packaging (F := float) (text "500, 0") None None 1200%float
  = Raise ZeroDivisionError.
Proof.
  refine (proj2 (packaging_raises_on_zero_pack_size
                   (text "500, 0") None None 1200%float [500; 0] _ _ _) _ _).
  - reflexivity.
  - vm_compute. reflexivity.
  - right. now left.
  - repeat constructor; lia.
  - split; vm_compute; [reflexivity | discriminate].
Defined.

(** ** More about the matcher *)


Lemma search_from_some (ic : bool) (r : regex) (txt : str) (m : pos) :
  forall bef,
    search_from ic r bef txt = Some m ->
    exists a b, txt = a ++ b /\ Matches ic r (mkpos (rev a ++ bef) b None) m.
Proof.
  induction txt as [|c txt IH]; intros bef; cbn [search_from].
  - destruct (matches ic r (mkpos bef [] None)) as [|m0 ms] eqn:E; [discriminate|].
    intros [= <-]. exists [], []. split; [reflexivity|].
    apply matches_iff. cbn [rev app]. rewrite E. now left.
  - destruct (matches ic r (mkpos bef (c :: txt) None)) as [|m0 ms] eqn:E.
    + intros Hs. destruct (IH _ Hs) as (a & b & -> & Hm).
      exists (c :: a), b. split; [reflexivity|].
      cbn [rev]. now rewrite <- app_assoc.
    + intros [= <-]. exists [], (c :: txt). split; [reflexivity|].
      apply matches_iff. cbn [rev app]. rewrite E. now left.
Qed.

Lemma search_from_found (ic : bool) (r : regex) (a b : str) (m : pos) :
  Matches ic r (mkpos (rev a) b None) m ->
  exists m', search ic r (a ++ b) = Some m'.
Proof.
  intros Hm. unfold search.
  destruct (search_from_first ic r (fun _ => True) a [] b) as (m' & Hs & _).
  - trivial.
  - exists m. now rewrite app_nil_r.
  - trivial.
  - now exists m'.
Qed.

(** A match moves forward over the text it consumes. *)
Lemma matches_consume (ic : bool) (r : regex) :
  forall p m, Matches ic r p m ->
              exists w, after p = w ++ after m /\ before m = rev w ++ before p.
Proof.
  assert (Hstep : forall ok p m, Step ok p m ->
            exists w, after p = w ++ after m /\ before m = rev w ++ before p).
  { intros ok p m [x rest Hx _]. exists [x]. now split. }
  assert (Hcompose : forall (p q m : pos) w1 w2,
            after p = w1 ++ after q -> before q = rev w1 ++ before p ->
            after q = w2 ++ after m -> before m = rev w2 ++ before q ->
            exists w, after p = w ++ after m /\ before m = rev w ++ before p).
  { intros p q m w1 w2 E1 B1 E2 B2. exists (w1 ++ w2). split.
    - now rewrite E1, E2, app_assoc.
    - now rewrite B2, B1, rev_app_distr, app_assoc. }
  induction r as [c | | | | r1 IH1 r2 IH2 | r1 IH1 r2 IH2 | r1 IH1
                 | lo hi r1 IH1 | r1 IH1];
    intros p m; cbn [Matches]; try (now apply Hstep).
  - intros [_ ->]. now exists [].
  - intros (q & H1 & H2).
    destruct (IH1 _ _ H1) as (w1 & E1 & B1).
    destruct (IH2 _ _ H2) as (w2 & E2 & B2). eauto.
  - intros [H1 | H2]; [now apply IH1 | now apply IH2].
  - induction 1 as [p | p q m Hq _ _ (w2 & E2 & B2)]; [now exists []|].
    destruct (IH1 _ _ Hq) as (w1 & E1 & B1). eauto.
  - induction 1 as [hi p | lo hi p q m Hq _ (w2 & E2 & B2)]; [now exists []|].
    destruct (IH1 _ _ Hq) as (w1 & E1 & B1). eauto.
  - intros (q & Hq & ->). cbn [after before]. now apply IH1.
Qed.

(** A run of digits read by [\d{lo,hi}]. *)
Lemma digits_consumed (lo hi : nat) (p q : pos) :
  Upto (Step is_digit) lo hi p q ->
  exists g, after p = g ++ after q /\ digits g /\
            (lo <= List.length g <= hi)%nat /\ grp1 q = grp1 p.
Proof.
  induction 1 as [hi p | lo hi p q m Hq _ (g & Eg & Hg & Hlen & Hgrp)].
  - exists []. split; [reflexivity|]. split; [constructor|].
    split; [cbn; lia | reflexivity].
  - destruct Hq as [x rest Hx Hok]. cbn [after grp1] in *.
    exists (x :: g). subst rest. split; [exact Hx|].
    split; [now constructor|]. split; [cbn [List.length]; lia | exact Hgrp].
Qed.

(** A word read in any letter case. *)
Lemma word_consumed (w : str) :
  w <> [] ->
  forall p m,
    Matches true (word w) p m ->
    exists s, after p = s ++ after m /\ any_case w s /\ grp1 m = grp1 p.
Proof.
  induction w as [|c w IH]; intros Hne p m; [congruence|].
  destruct w as [|c' w].
  - cbn [word Matches]. intros [x rest Hx Hok]. cbn [after grp1].
    exists [x]. repeat split; [exact Hx|].
    unfold any_case. cbn. f_equal. unfold lit_eq in Hok.
    apply Ascii.eqb_eq in Hok. congruence.
  - change (word (c :: c' :: w)) with (Cat (Lit c) (word (c' :: w))).
    cbn [Matches]. intros (q & [x rest Hx Hok] & Hm).
    destruct (IH ltac:(discriminate) _ _ Hm) as (s & Es & Hs & Hgrp).
    cbn [after grp1] in *. subst rest.
    exists (x :: s). repeat split; auto.
    unfold any_case in *. cbn [map]. f_equal; [|exact Hs].
    unfold lit_eq in Hok. apply Ascii.eqb_eq in Hok. congruence.
Qed.

Lemma word_matched (w s : str) :
  w <> [] -> any_case w s ->
  forall bef rest g,
    Matches true (word w) (mkpos bef (s ++ rest) g) (mkpos (rev s ++ bef) rest g).
Proof.
  revert s. induction w as [|c w IH]; intros s Hne Hs bef rest g; [congruence|].
  destruct s as [|x s]; [discriminate|].
  unfold any_case in Hs. cbn [map] in Hs. injection Hs as Hx Hs.
  assert (Hlit : lit_eq true c x = true).
  { unfold lit_eq. apply Ascii.eqb_eq. congruence. }
  destruct w as [|c' w].
  - destruct s; [|discriminate]. cbn [word Matches rev app].
    now apply (Step_char _ (mkpos bef (x :: rest) g) x rest).
  - change (word (c :: c' :: w)) with (Cat (Lit c) (word (c' :: w))).
    cbn [Matches]. exists (mkpos (x :: bef) (s ++ rest) g). split.
    + now apply (Step_char _ (mkpos bef (x :: s ++ rest) g) x (s ++ rest)).
    + cbn [rev]. rewrite <- app_assoc. cbn [app].
      apply IH; [discriminate | exact Hs].
Qed.

(** ** Reading an integer from digits *)

Lemma digit_val_range (c : ascii) : is_digit c = true -> 0 <= digit_val c <= 9.
Proof.
  destruct c as [[] [] [] [] [] [] [] []]; cbv; intros; try congruence;
    split; congruence.
Qed.

Lemma int_digits_decimal (g : str) :
  digits g ->
  forall acc, int_digits acc g
              = Ok (fold_left (fun a c => a * 10 + digit_val c) g acc).
Proof.
  induction 1 as [|c g Hc _ IH]; intros acc; cbn [int_digits fold_left].
  - reflexivity.
  - rewrite Hc. apply IH.
Qed.

Lemma lstrip_of_digits (g : str) :
  digits g -> lstrip_of is_int_space g = g.
Proof.
  destruct 1 as [|c g Hc _]; [reflexivity|].
  cbn [lstrip_of]. now rewrite (digit_not_space c Hc).
Qed.

Lemma int_of_digits (g : str) :
  digits g -> g <> [] -> Py.int g = Ok (decimal g).
Proof.
  intros Hg Hne. unfold Py.int, strip_of.
  rewrite (lstrip_of_digits g Hg).
  rewrite lstrip_of_digits, rev_involutive
    by (unfold digits in *; now apply Forall_rev).
  destruct g as [|c g]; [congruence|].
  inversion Hg as [|? ? Hc Hg']; subst.
  destruct (digit_not_sign c Hc) as [-> ->].
  cbn [int_unsigned]. rewrite Hc.
  rewrite (int_digits_decimal g Hg'). unfold decimal. cbn [fold_left].
  reflexivity.
Qed.

Lemma decimal_range (g : str) :
  digits g -> 0 <= decimal g < 10 ^ Z.of_nat (List.length g).
Proof.
  intros Hg. unfold decimal.
  assert (Hgen : forall acc n, 0 <= acc < 10 ^ Z.of_nat n ->
            0 <= fold_left (fun a c => a * 10 + digit_val c) g acc
              < 10 ^ Z.of_nat (n + List.length g)).
  { induction Hg as [|c g Hc _ IH]; intros acc n Hacc; cbn [fold_left List.length].
    - now rewrite Nat.add_0_r.
    - pose proof (digit_val_range c Hc).
      replace (n + S (List.length g))%nat with (S n + List.length g)%nat by lia.
      apply IH. rewrite Nat2Z.inj_succ, Z.pow_succ_r by lia. lia. }
  apply (Hgen 0 0%nat). cbn. lia.
Qed.

(** ** Material detection *)

Lemma search_some_iff (ic : bool) (r : regex) (txt : str) :
  (exists m, search ic r txt = Some m) <->
  (exists a b m, txt = a ++ b /\ Matches ic r (mkpos (rev a) b None) m).
Proof.
  split.
  - intros (m & Hs). unfold search in Hs.
    destruct (search_from_some _ _ _ _ _ Hs) as (a & b & E & Hm).
    rewrite app_nil_r in Hm. now exists a, b, m.
  - intros (a & b & m & -> & Hm). now apply (search_from_found _ _ _ _ m).
Qed.

Lemma search_none_iff (ic : bool) (r : regex) (txt : str) :
  search ic r txt = None <->
  (forall a b m, txt = a ++ b -> ~ Matches ic r (mkpos (rev a) b None) m).
Proof.
  split.
  - intros Hs a b m E Hm.
    destruct (proj2 (search_some_iff ic r txt)) as (m' & Hm'); [now exists a, b, m|].
    congruence.
  - intros Hnone. destruct (search ic r txt) as [m|] eqn:Hs; [|reflexivity].
    destruct (proj1 (search_some_iff ic r txt)) as (a & b & m' & E & Hm');
      [now exists m|].
    now destruct (Hnone a b m' E).
Qed.

Lemma is_word_lower (x : ascii) : is_word (lower x) = is_word x.
Proof. by_cases_on_char x. Qed.

Lemma any_case_is_word (w s : str) :
  any_case w s ->
  Forall (fun c => is_word c = true) w -> Forall (fun c => is_word c = true) s.
Proof.
  unfold any_case. revert w.
  induction s as [|x s IH]; intros [|c w] Hs Hw; try discriminate; constructor.
  - cbn [map] in Hs. injection Hs as Hx _. inversion Hw; subst.
    now rewrite <- is_word_lower, Hx, is_word_lower.
  - cbn [map] in Hs. injection Hs as _ Hs. inversion Hw; subst. now apply (IH w).
Qed.

Lemma any_case_nonempty (w s : str) : any_case w s -> w <> [] -> s <> [].
Proof. unfold any_case. destruct s, w; cbn; congruence. Qed.

Lemma word_at_app (s t : str) :
  s <> [] -> Forall (fun c => is_word c = true) s -> word_at (s ++ t) = true.
Proof. destruct s as [|x s]; [congruence|]. intros _ Hs. now inversion Hs. Qed.

Lemma word_at_rev_app (s t : str) :
  s <> [] -> Forall (fun c => is_word c = true) s -> word_at (rev s ++ t) = true.
Proof.
  intros Hne Hs. apply word_at_app; [|now apply Forall_rev].
  intros E. apply Hne. now rewrite <- (rev_involutive s), E.
Qed.

(** A word between two word boundaries. *)
Lemma whole_word_match (w : string) (a b : str) :
  text w <> [] -> Forall (fun c => is_word c = true) (text w) ->
  (exists m, Matches true (whole_word w) (mkpos (rev a) b None) m) <->
  (exists s b', b = s ++ b' /\ any_case (text w) s /\
                word_at (rev a) = false /\ word_at b' = false).
Proof.
  intros Hne Hw. unfold whole_word. cbn [Matches]. split.
  - intros (m & q & (Hb1 & ->) & q2 & Hword & Hb2 & ->).
    destruct (word_consumed _ Hne _ _ Hword) as (s & Es & Hs & _).
    destruct (matches_consume _ _ _ _ Hword) as (s' & Es' & Bs').
    assert (s' = s) as -> by (apply (app_inv_tail (after q2)); congruence).
    cbn [after before] in *.
    pose proof (any_case_nonempty _ _ Hs Hne) as Hsne.
    pose proof (any_case_is_word _ _ Hs Hw) as Hsw.
    exists s, (after q2). split; [exact Es|]. split; [exact Hs|].
    unfold at_boundary in Hb1, Hb2. cbn [after before] in Hb1.
    rewrite Es, (word_at_app s _ Hsne Hsw) in Hb1.
    rewrite Bs', (word_at_rev_app s _ Hsne Hsw) in Hb2.
    split.
    + now destruct (word_at (rev a)).
    + now destruct (word_at (after q2)).
  - intros (s & b' & -> & Hs & Ha & Hb').
    pose proof (any_case_nonempty _ _ Hs Hne) as Hsne.
    pose proof (any_case_is_word _ _ Hs Hw) as Hsw.
    exists (mkpos (rev s ++ rev a) b' None), (mkpos (rev a) (s ++ b') None).
    split.
    + split; [|reflexivity]. unfold at_boundary. cbn [after before].
      now rewrite Ha, (word_at_app s _ Hsne Hsw).
    + exists (mkpos (rev s ++ rev a) b' None). split.
      * now apply word_matched.
      * split; [|reflexivity]. unfold at_boundary. cbn [after before].
        now rewrite Hb', (word_at_rev_app s _ Hsne Hsw).
Qed.

Lemma whole_word_found (w : string) (txt : str) :
  text w <> [] -> Forall (fun c => is_word c = true) (text w) ->
  (exists a b m, txt = a ++ b /\
                 Matches true (whole_word w) (mkpos (rev a) b None) m) <->
  occurs_as_word w txt.
Proof.
  intros Hne Hw. unfold occurs_as_word. split.
  - intros (a & b & m & -> & Hm).
    destruct (proj1 (whole_word_match w a b Hne Hw)) as (s & b' & -> & H');
      [now exists m|].
    now exists a, s, b'.
  - intros (a & s & b & -> & Hs & Ha & Hb).
    destruct (proj2 (whole_word_match w a (s ++ b) Hne Hw)) as (m & Hm);
      [now exists s, b|].
    now exists a, (s ++ b), m.
Qed.

Lemma copper_found (txt : str) :
  (exists m, search true COPPER_WORDS txt = Some m) <->
  occurs_as_word "copper" txt \/ occurs_as_word "cu" txt.
Proof.
  rewrite search_some_iff. unfold COPPER_WORDS. cbn [Matches].
  rewrite <- (whole_word_found "copper"), <- (whole_word_found "cu");
    try (now repeat constructor); try discriminate.
  split.
  - intros (a & b & m & E & [Hm | Hm]); [left | right]; now exists a, b, m.
  - intros [(a & b & m & E & Hm) | (a & b & m & E & Hm)];
      exists a, b, m; auto.
Qed.

Lemma aluminum_found (txt : str) :
  (exists m, search true ALUMINUM_WORDS txt = Some m) <->
  occurs_as_word "aluminum" txt \/ occurs_as_word "alum" txt \/
  occurs_as_word "al" txt.
Proof.
  rewrite search_some_iff. unfold ALUMINUM_WORDS. cbn [Matches].
  rewrite <- (whole_word_found "aluminum"), <- (whole_word_found "alum"),
    <- (whole_word_found "al");
    try (now repeat constructor); try discriminate.
  split.
  - intros (a & b & m & E & [Hm | [Hm | Hm]]);
      [left | right; left | right; right]; now exists a, b, m.
  - intros [(a & b & m & E & Hm) | [(a & b & m & E & Hm) | (a & b & m & E & Hm)]];
      exists a, b, m; auto.
Qed.


(** X12: [detect_material] answers "copper" exactly for the texts in which
    "copper" or "cu" occurs as a whole word, in any letter case; an aluminum
    word elsewhere in the text does not change that. *)
Theorem detect_material_copper_iff (txt : str) :
  detect_material txt = Some "copper"%string <->
  occurs_as_word "copper" txt \/ occurs_as_word "cu" txt.
Proof.
  rewrite <- copper_found. unfold detect_material.
  destruct txt as [|c txt]; cbn [truthy negb].
  - split; [discriminate|]. intros (m & Hm). discriminate.
  - destruct (search true COPPER_WORDS (c :: txt)) as [m|].
    + split; [now exists m | reflexivity].
    + split.
      * destruct (search true ALUMINUM_WORDS (c :: txt)); discriminate.
      * intros (m & Hm). discriminate.
Qed.

(** X13: [detect_material] answers "aluminum" exactly for the texts in which
    neither "copper" nor "cu" occurs as a whole word and "aluminum", "alum"
    or "al" does, in any letter case. *)
Theorem detect_material_aluminum_iff (txt : str) :
  detect_material txt = Some "aluminum"%string <->
  ~ (occurs_as_word "copper" txt \/ occurs_as_word "cu" txt) /\
  (occurs_as_word "aluminum" txt \/ occurs_as_word "alum" txt \/
   occurs_as_word "al" txt).
Proof.
  rewrite <- copper_found, <- aluminum_found. unfold detect_material.
  destruct txt as [|c txt]; cbn [truthy negb].
  - split; [discriminate|]. intros (_ & m & Hm). discriminate.
  - destruct (search true COPPER_WORDS (c :: txt)) as [m|].
    + split; [discriminate|]. intros (Hno & _). destruct Hno. now exists m.
    + destruct (search true ALUMINUM_WORDS (c :: txt)) as [m|].
      * split; [|reflexivity]. intros _. split; [|now exists m].
        intros (m' & Hm'). discriminate.
      * split; [discriminate|]. intros (_ & m & Hm). discriminate.
Qed.

(** ** Numbers with a unit: gauge and pack length *)

Lemma is_digit_lower (x : ascii) : is_digit (lower x) = is_digit x.
Proof. by_cases_on_char x. Qed.

Lemma is_space_lower (x : ascii) : is_space (lower x) = is_space x.
Proof. by_cases_on_char x. Qed.

(** A word written in any case starts like the word itself. *)
Lemma any_case_head (w s : str) (c : ascii) (w' : str) :
  any_case w s -> w = c :: w' ->
  exists x s', s = x :: s' /\ is_digit x = is_digit c /\ is_space x = is_space c.
Proof.
  unfold any_case. intros Hs ->. destruct s as [|x s']; [discriminate|].
  cbn [map] in Hs. injection Hs as Hx _. exists x, s'. split; [reflexivity|].
  now rewrite <- (is_digit_lower x), <- (is_space_lower x), Hx,
    is_digit_lower, is_space_lower.
Qed.

Lemma digits_matched (g : str) :
  digits g ->
  forall lo hi bef rest gr,
    (lo <= List.length g <= hi)%nat ->
    Upto (Step is_digit) lo hi (mkpos bef (g ++ rest) gr)
         (mkpos (rev g ++ bef) rest gr).
Proof.
  induction 1 as [|x g Hx _ IH]; intros lo hi bef rest gr Hlen;
    cbn [List.length] in Hlen.
  - assert (lo = 0%nat) as -> by lia. apply Upto_stop.
  - destruct hi as [|hi]; [lia|].
    apply (Upto_more _ lo hi _ (mkpos (x :: bef) (g ++ rest) gr)).
    + now apply (Step_char _ (mkpos bef (x :: g ++ rest) gr) x (g ++ rest)).
    + cbn [rev]. rewrite <- app_assoc. apply IH. lia.
Qed.

(** The shape of a match of [( \d{lo,hi} ) \s* u \b]. *)
Lemma number_unit_shape (lo hi : nat) (u : regex) (U : str -> Prop) (p m : pos) :
  (forall a b, Matches true u a b ->
     exists s, after a = s ++ after b /\ U s /\ grp1 b = grp1 a) ->
  Matches true (Cat (Grp (Rep lo hi Digit)) (Cat (Star Space) (Cat u WordB))) p m ->
  exists g w s,
    after p = g ++ w ++ s ++ after m /\ digits g /\
    (lo <= List.length g <= hi)%nat /\ spaces w /\ U s /\ grp1 m = Some g.
Proof.
  intros HU. cbn [Matches].
  intros (q1 & (q0 & Hdig & ->) & q2 & Hsp & q3 & Hu & (_ & ->)).
  destruct (digits_consumed _ _ _ _ Hdig) as (g & Eg & Hg & Hlen & _).
  destruct (spaces_consumed _ _ Hsp) as (w & Ew & Hw & Hgrp2).
  destruct (HU _ _ Hu) as (s & Es & Hs & Hgrp3).
  cbn [after grp1] in *.
  exists g, w, s. split; [now rewrite Eg, Ew, Es|].
  repeat (split; [assumption|]).
  rewrite Hgrp3, Hgrp2. f_equal. now apply consumed_prefix.
Qed.

Lemma number_unit_matched (lo hi : nat) (u : regex) (g w s post bef : str) :
  (forall bef rest gr,
     Matches true u (mkpos bef (s ++ rest) gr) (mkpos (rev s ++ bef) rest gr)) ->
  s <> [] -> Forall (fun c => is_word c = true) s ->
  digits g -> (lo <= List.length g <= hi)%nat -> spaces w ->
  word_at post = false ->
  Matches true (Cat (Grp (Rep lo hi Digit)) (Cat (Star Space) (Cat u WordB)))
    (mkpos bef (g ++ w ++ s ++ post) None)
    (mkpos (rev s ++ rev w ++ rev g ++ bef) post (Some g)).
Proof.
  intros Hu Hne Hword Hg Hlen Hw Hpost. cbn [Matches].
  exists (mkpos (rev g ++ bef) (w ++ s ++ post) (Some g)). split.
  - exists (mkpos (rev g ++ bef) (w ++ s ++ post) None). split.
    + now apply digits_matched.
    + cbn [before after]. now rewrite (consumed_prefix _ _ g) by reflexivity.
  - exists (mkpos (rev w ++ rev g ++ bef) (s ++ post) (Some g)). split.
    + now apply spaces_matched.
    + exists (mkpos (rev s ++ rev w ++ rev g ++ bef) post (Some g)). split.
      * apply Hu.
      * split; [|reflexivity]. unfold at_boundary. cbn [before after].
        now rewrite Hpost, (word_at_rev_app s _ Hne Hword).
Qed.

Lemma digit_run_unique (g g' r r' : str) :
  g ++ r = g' ++ r' -> digits g -> digits g' ->
  (exists x t, r = x :: t /\ is_digit x = false) ->
  (exists x t, r' = x :: t /\ is_digit x = false) ->
  g = g'.
Proof.
  intros E Hg Hg' (x & t & -> & Hx) (y & t' & -> & Hy).
  apply (first_run_unique (fun c => negb (is_digit c)) g g' t t' x y E).
  - unfold digits in Hg. rewrite Forall_forall in *. intros c Hc.
    now rewrite (Hg c Hc).
  - unfold digits in Hg'. rewrite Forall_forall in *. intros c Hc.
    now rewrite (Hg' c Hc).
  - now rewrite Hx.
  - now rewrite Hy.
Qed.

Lemma after_number_no_digit (w s rest : str) :
  spaces w -> (exists x s', s = x :: s' /\ is_digit x = false) ->
  exists x t, w ++ s ++ rest = x :: t /\ is_digit x = false.
Proof.
  intros Hw (x & s' & -> & Hx). destruct Hw as [|c w Hc _]; cbn.
  - now exists x, (s' ++ rest).
  - exists c, (w ++ x :: s' ++ rest). split; [reflexivity|].
    now apply space_not_digit.
Qed.

(** [re.search] for [( \d{lo,hi} ) \s* u \b] in a text whose first digits
    are a run of [lo] to [hi] digits followed by the unit: the group is that
    run. *)
Lemma number_unit_search (lo hi : nat) (u : regex) (U : str -> Prop)
    (pre g w s post : str) :
  (forall a b, Matches true u a b ->
     exists s, after a = s ++ after b /\ U s /\ grp1 b = grp1 a) ->
  (forall s, U s -> exists x s', s = x :: s' /\ is_digit x = false) ->
  (forall bef rest gr,
     Matches true u (mkpos bef (s ++ rest) gr) (mkpos (rev s ++ bef) rest gr)) ->
  U s -> Forall (fun c => is_word c = true) s ->
  (1 <= lo)%nat ->
  no_digit pre -> digits g -> (lo <= List.length g <= hi)%nat -> spaces w ->
  word_at post = false ->
  exists m,
    search true (Cat (Grp (Rep lo hi Digit)) (Cat (Star Space) (Cat u WordB)))
      (pre ++ g ++ w ++ s ++ post) = Some m /\
    grp1 m = Some g.
Proof.
  intros HU Hhead Hmatch Hs Hword Hlo Hpre Hg Hlen Hw Hpost.
  assert (Hsne : s <> []).
  { destruct (Hhead s Hs) as (x & s' & -> & _). discriminate. }
  unfold search. apply search_from_first.
  - intros a b m -> Hb Hm.
    destruct (number_unit_shape _ _ _ U _ _ HU Hm) as (g' & w' & s' & E & Hg' & Hlen' & _).
    cbn [after] in E. destruct b as [|c b]; [congruence|].
    destruct g' as [|d g']; [cbn in Hlen'; lia|].
    apply Forall_inv in Hg'. cbn in E. injection E as Ec _. subst c.
    apply Forall_app in Hpre. destruct Hpre as [_ Hb'].
    apply Forall_inv in Hb'. congruence.
  - eexists. apply (number_unit_matched lo hi u g w s post); assumption.
  - intros m Hm.
    destruct (number_unit_shape _ _ _ U _ _ HU Hm)
      as (g' & w' & s' & E & Hg' & Hlen' & Hw' & Hs' & Hgrp).
    cbn [after] in E. rewrite Hgrp. f_equal. symmetry.
    apply (digit_run_unique g g' _ _ E Hg Hg').
    + apply after_number_no_digit; [exact Hw | now apply Hhead].
    + apply after_number_no_digit; [exact Hw' | now apply Hhead].
Qed.

(** The units of the two patterns. *)
Lemma kcmil_unit (a b : pos) :
  Matches true (Alt (word (text "kcmil")) (word (text "MCM"))) a b ->
  exists s, after a = s ++ after b /\
            (any_case (text "kcmil") s \/ any_case (text "MCM") s) /\
            grp1 b = grp1 a.
Proof.
  intros [Hm | Hm];
    (apply word_consumed in Hm; [|discriminate]);
    destruct Hm as (s & Es & Hs & Hgrp); exists s; auto.
Qed.

Lemma feet_unit (a b : pos) :
  Matches true
    (Alt (word (text "ft")) (Alt (word (text "feet")) (word (text "FT")))) a b ->
  exists s, after a = s ++ after b /\
            (any_case (text "ft") s \/ any_case (text "feet") s) /\
            grp1 b = grp1 a.
Proof.
  intros [Hm | [Hm | Hm]];
    (apply word_consumed in Hm; [|discriminate]);
    destruct Hm as (s & Es & Hs & Hgrp); exists s; auto.
Qed.

Lemma kcmil_unit_head (s : str) :
  any_case (text "kcmil") s \/ any_case (text "MCM") s ->
  exists x s', s = x :: s' /\ is_digit x = false /\ is_space x = false.
Proof.
  intros [Hs | Hs];
    destruct (any_case_head _ _ _ _ Hs eq_refl) as (x & s' & -> & Hd & Hsp);
    now exists x, s'.
Qed.

Lemma feet_unit_head (s : str) :
  any_case (text "ft") s \/ any_case (text "feet") s ->
  exists x s', s = x :: s' /\ is_digit x = false /\ is_space x = false.
Proof.
  intros [Hs | Hs];
    destruct (any_case_head _ _ _ _ Hs eq_refl) as (x & s' & -> & Hd & Hsp);
    now exists x, s'.
Qed.

(** The shape of a match of the gauge pattern, with its unit. *)
Lemma gauge_match_unit (p m : pos) :
  Matches true AWG_PATTERN p m ->
  exists h g w s,
    after p = h ++ g ++ w ++ s ++ after m /\ digits g /\
    (1 <= List.length g <= 2)%nat /\ spaces w /\
    any_case (text "AWG") s /\ grp1 m = Some g.
Proof.
  unfold AWG_PATTERN. cbn [Matches].
  intros (q2 & (q1 & Hhash & Hsp1) & q4 & (q3 & Hdig & ->) & q5 & Hsp2
          & q6 & Hawg & _ & ->).
  destruct (hash_consumed _ _ Hhash) as (h & Eh & _ & _).
  destruct (spaces_consumed _ _ Hsp1) as (w1 & Ew1 & _ & _).
  destruct (digits_consumed _ _ _ _ Hdig) as (g & Eg & Hg & Hlen & _).
  destruct (spaces_consumed _ _ Hsp2) as (w2 & Ew2 & Hw2 & Hgrp2).
  apply word_consumed in Hawg; [|discriminate].
  destruct Hawg as (s & Es & Hs & Hgrp3).
  cbn [after grp1] in *.
  exists (h ++ w1), g, w2, s. split.
  - rewrite Eh, Ew1, Eg, Ew2, Es. now rewrite <- app_assoc.
  - repeat (split; [assumption|]).
    rewrite Hgrp3, Hgrp2. f_equal. now apply consumed_prefix.
Qed.

Lemma int_of_group (m : pos) (g : str) :
  grp1 m = Some g -> digits g -> (1 <= List.length g)%nat ->
  int_group1 m = Ok (decimal g).
Proof.
  intros Hgrp Hg Hlen. unfold int_group1. rewrite Hgrp.
  apply int_of_digits; [exact Hg|]. destruct g; [cbn in Hlen; lia | discriminate].
Qed.

Lemma decimal_below (g : str) (n : nat) :
  digits g -> (List.length g <= n)%nat -> 0 <= decimal g <= 10 ^ Z.of_nat n - 1.
Proof.
  intros Hg Hlen. pose proof (decimal_range g Hg) as Hr.
  assert (10 ^ Z.of_nat (List.length g) <= 10 ^ Z.of_nat n)
    by (apply Z.pow_le_mono_r; lia).
  lia.
Qed.

(** What [parse_awg] can return, and where it reads it. *)
Lemma parse_awg_cases (txt : str) :
  parse_awg txt = Ok None \/
  exists a g w s b,
    txt = a ++ g ++ w ++ s ++ b /\ digits g /\ spaces w /\
    (((1 <= List.length g <= 2)%nat /\ any_case (text "AWG") s) \/
     ((2 <= List.length g <= 4)%nat /\
      (any_case (text "kcmil") s \/ any_case (text "MCM") s))) /\
    parse_awg txt = Ok (Some (decimal g)).
Proof.
  unfold parse_awg. destruct (truthy txt); cbn [negb]; [|now left].
  destruct (search true AWG_PATTERN txt) as [m|] eqn:Hs.
  - right. unfold search in Hs.
    destruct (search_from_some _ _ _ _ _ Hs) as (a & b & -> & Hm).
    destruct (gauge_match_unit _ _ Hm) as (h & g & w & s & E & Hg & Hlen & Hw & Hu & Hgrp).
    cbn [after] in E.
    exists (a ++ h), g, w, s, (after m). split; [now rewrite E, <- app_assoc|].
    repeat (split; [auto|]).
    now rewrite (int_of_group m g Hgrp Hg) by lia.
  - destruct (search true KCMIL_PATTERN txt) as [m|] eqn:Hs2; [|now left].
    right. unfold search in Hs2.
    destruct (search_from_some _ _ _ _ _ Hs2) as (a & b & -> & Hm).
    destruct (number_unit_shape _ _ _ _ _ _ kcmil_unit Hm)
      as (g & w & s & E & Hg & Hlen & Hw & Hu & Hgrp).
    cbn [after] in E.
    exists a, g, w, s, (after m). split; [now rewrite E|].
    repeat (split; [auto|]).
    now rewrite (int_of_group m g Hgrp Hg) by lia.
Qed.

(** X14: [parse_awg] raises nothing, whatever the text.  It returns [None],
    or the number written by one or two digits of the text that are followed
    by optional whitespace and "AWG", or by two to four digits followed by
    optional whitespace and "kcmil" or "MCM" (any letter case): never a
    negative number and never more than 9999. *)
Theorem parse_awg_reads_digits_before_unit (txt : str) :
  parse_awg txt = Ok None \/
  exists a g w s b,
    txt = a ++ g ++ w ++ s ++ b /\ digits g /\ spaces w /\
    (((1 <= List.length g <= 2)%nat /\ any_case (text "AWG") s) \/
     ((2 <= List.length g <= 4)%nat /\
      (any_case (text "kcmil") s \/ any_case (text "MCM") s))) /\
    parse_awg txt = Ok (Some (decimal g)) /\
    0 <= decimal g <= 9999.
Proof.
  destruct (parse_awg_cases txt) as [Hnone | (a & g & w & s & b & E & Hg & Hw & Hu & Hp)];
    [now left|].
  right. exists a, g, w, s, b. repeat (split; [assumption|]).
  apply (decimal_below g 4 Hg). destruct Hu as [[Hlen _] | [Hlen _]]; lia.
Qed.

Lemma digit_in_tail (l1 l2 pre tl : str) (d : ascii) :
  l1 ++ d :: l2 = pre ++ tl -> is_digit d = true -> no_digit pre ->
  exists t, tl = t ++ d :: l2.
Proof.
  revert l1. induction pre as [|c pre IH]; intros l1 E Hd Hpre; cbn in E.
  - now exists l1.
  - inversion Hpre as [|? ? Hc Hpre']; subst.
    destruct l1 as [|x l1]; cbn in E; injection E as -> E; [congruence|].
    now apply (IH l1).
Qed.

(** X15: [parse_awg] finds no gauge in a text whose digits all come at the
    end, with only digits and whitespace from the first digit on: a number
    that follows its unit, as in "AWG 2", is not read. *)
Theorem parse_awg_none_when_number_comes_last (pre tl : str) :
  no_digit pre ->
  Forall (fun c => is_digit c = true \/ is_space c = true) tl ->
  parse_awg (pre ++ tl) = Ok None.
Proof.
  intros Hpre Htl.
  destruct (parse_awg_cases (pre ++ tl))
    as [Hnone | (a & g & w & s & b & E & Hg & Hw & Hu & _)]; [exact Hnone|].
  exfalso.
  assert (Hhead : exists x s', s = x :: s' /\ is_digit x = false /\ is_space x = false).
  { destruct Hu as [[_ Hs] | [_ Hs]]; [|now apply kcmil_unit_head].
    destruct (any_case_head _ _ _ _ Hs eq_refl) as (x & s' & -> & Hd & Hsp).
    now exists x, s'. }
  destruct Hhead as (x & s' & -> & Hxd & Hxs).
  assert (Hlen : (1 <= List.length g)%nat) by (destruct Hu as [[? _] | [? _]]; lia).
  destruct g as [|d g]; [cbn in Hlen; lia|].
  pose proof (Forall_inv Hg) as Hd.
  symmetry in E. cbn [app] in E.
  destruct (digit_in_tail _ _ _ _ _ E Hd Hpre) as (t & ->).
  rewrite Forall_forall in Htl.
  destruct (Htl x); [|congruence|congruence].
  apply in_or_app. right. right. apply in_or_app. right.
  apply in_or_app. right. now left.
Qed.

Lemma parse_awg_none_when_number_comes_last_witness :
  parse_awg (text "THHN AWG" ++ text " 2") = Ok None.
Proof.
  apply parse_awg_none_when_number_comes_last.
  - repeat constructor.
  - repeat constructor; (now left) || (now right).
Defined.

(** ** Pack length extraction *)

Lemma feet_unit_matched (s : str) :
  any_case (text "ft") s \/ any_case (text "feet") s ->
  forall bef rest gr,
    Matches true
      (Alt (word (text "ft")) (Alt (word (text "feet")) (word (text "FT"))))
      (mkpos bef (s ++ rest) gr) (mkpos (rev s ++ bef) rest gr).
Proof.
  intros [Hs | Hs] bef rest gr; cbn [Matches].
  - left. apply word_matched; [discriminate | exact Hs].
  - right. left. apply word_matched; [discriminate | exact Hs].
Qed.

Lemma kcmil_unit_matched (s : str) :
  any_case (text "kcmil") s \/ any_case (text "MCM") s ->
  forall bef rest gr,
    Matches true (Alt (word (text "kcmil")) (word (text "MCM")))
      (mkpos bef (s ++ rest) gr) (mkpos (rev s ++ bef) rest gr).
Proof.
  intros [Hs | Hs] bef rest gr; cbn [Matches].
  - left. apply word_matched; [discriminate | exact Hs].
  - right. apply word_matched; [discriminate | exact Hs].
Qed.

Lemma feet_unit_is_word (s : str) :
  any_case (text "ft") s \/ any_case (text "feet") s ->
  Forall (fun c => is_word c = true) s.
Proof.
  intros [Hs | Hs]; apply (any_case_is_word _ _ Hs); repeat constructor.
Qed.

Lemma kcmil_unit_is_word (s : str) :
  any_case (text "kcmil") s \/ any_case (text "MCM") s ->
  Forall (fun c => is_word c = true) s.
Proof.
  intros [Hs | Hs]; apply (any_case_is_word _ _ Hs); repeat constructor.
Qed.

Lemma head_no_digit (s : str) :
  (exists x s', s = x :: s' /\ is_digit x = false /\ is_space x = false) ->
  exists x s', s = x :: s' /\ is_digit x = false.
Proof. intros (x & s' & E & Hd & _). now exists x, s'. Qed.

(** What [parse_pack_length] can return, and where it reads it. *)
Lemma parse_pack_length_cases (txt : str) :
  parse_pack_length txt = Ok (None, None) \/
  parse_pack_length txt = Ok (Some 1, Some "ft_each"%string) \/
  exists a g w s b,
    txt = a ++ g ++ w ++ s ++ b /\ digits g /\
    (2 <= List.length g <= 5)%nat /\ spaces w /\
    (any_case (text "ft") s \/ any_case (text "feet") s) /\
    parse_pack_length txt = Ok (Some (decimal g), Some "ft"%string).
Proof.
  unfold parse_pack_length. destruct (truthy txt); cbn [negb]; [|now left].
  destruct (search true PACK_LENGTH_PATTERN txt) as [m|] eqn:Hs.
  - right. right. unfold search in Hs.
    destruct (search_from_some _ _ _ _ _ Hs) as (a & b & -> & Hm).
    destruct (number_unit_shape _ _ _ _ _ _ feet_unit Hm)
      as (g & w & s & E & Hg & Hlen & Hw & Hu & Hgrp).
    cbn [after] in E.
    exists a, g, w, s, (after m). split; [now rewrite E|].
    repeat (split; [auto|]).
    now rewrite (int_of_group m g Hgrp Hg) by lia.
  - destruct (search true PER_FOOT_PATTERN txt); auto.
Qed.

(** X16: [parse_pack_length] raises nothing, whatever the text.  It returns
    (None, None), or (1, "ft_each"), or a length with the unit "ft"; the
    length is then the number written by two to five digits of the text that
    are followed by optional whitespace and "ft" or "feet" (any letter case),
    so it is never negative and never more than 99999. *)
Theorem parse_pack_length_reads_digits_before_feet (txt : str) :
  parse_pack_length txt = Ok (None, None) \/
  parse_pack_length txt = Ok (Some 1, Some "ft_each"%string) \/
  exists a g w s b,
    txt = a ++ g ++ w ++ s ++ b /\ digits g /\
    (2 <= List.length g <= 5)%nat /\ spaces w /\
    (any_case (text "ft") s \/ any_case (text "feet") s) /\
    parse_pack_length txt = Ok (Some (decimal g), Some "ft"%string) /\
    0 <= decimal g <= 99999.
Proof.
  destruct (parse_pack_length_cases txt)
    as [Hnone | [Heach | (a & g & w & s & b & E & Hg & Hlen & Hw & Hu & Hp)]];
    [now left | now right; left |].
  right. right. exists a, g, w, s, b. repeat (split; [assumption|]).
  apply (decimal_below g 5 Hg). lia.
Qed.

(** X17: when the first digits of a text are a run of two to five digits
    followed by optional whitespace and the whole word "ft" or "feet" (any
    letter case), [parse_pack_length] returns the number the run writes, with
    the unit "ft". *)
Theorem parse_pack_length_reads_feet (pre g w s post : str) :
  no_digit pre -> digits g -> (2 <= List.length g <= 5)%nat -> spaces w ->
  any_case (text "ft") s \/ any_case (text "feet") s ->
  word_ends_before post ->
  parse_pack_length (pre ++ g ++ w ++ s ++ post)
  = Ok (Some (decimal g), Some "ft"%string).
Proof.
  intros Hpre Hg Hlen Hw Hs Hpost. unfold parse_pack_length.
  assert (Htruthy : truthy (pre ++ g ++ w ++ s ++ post) = true).
  { destruct g as [|d g]; [cbn in Hlen; lia|]. apply truthy_app. }
  rewrite Htruthy. cbn [negb].
  destruct (number_unit_search 2 5 _ _ pre g w s post feet_unit
              (fun s Hs => head_no_digit s (feet_unit_head s Hs))
              (feet_unit_matched s Hs) Hs (feet_unit_is_word s Hs))
    as (m & Hsearch & Hgrp); auto; try lia.
  unfold PACK_LENGTH_PATTERN. rewrite Hsearch.
  now rewrite (int_of_group m g Hgrp Hg) by lia.
Qed.

Lemma parse_pack_length_reads_feet_witness :
  parse_pack_length (text "Spool, " ++ text "500" ++ text " " ++ text "FT"
                     ++ text ". Sold by the foot")
  = Ok (Some 500, Some "ft"%string).
Proof.
  apply (parse_pack_length_reads_feet (text "Spool, ") (text "500") (text " ")
           (text "FT") (text ". Sold by the foot")).
  - repeat constructor.
  - repeat constructor.
  - cbn. lia.
  - repeat constructor.
  - now left.
  - reflexivity.
Defined.

(** ** Circular-mil sizes *)

Lemma digit_inside_run (l1 l2 g tl : str) (d : ascii) :
  l1 ++ d :: l2 = g ++ tl -> is_digit d = true -> no_digit tl ->
  exists g1 g2, g = g1 ++ d :: g2 /\ l2 = g2 ++ tl.
Proof.
  revert l1. induction g as [|c g IH]; intros l1 E Hd Htl; cbn in E.
  - exfalso. assert (Hin : In d tl) by (rewrite <- E; apply in_elt).
    unfold no_digit in Htl. rewrite Forall_forall in Htl.
    rewrite (Htl d Hin) in Hd. discriminate.
  - destruct l1 as [|x l1]; cbn in E; injection E as Ex E.
    + subst c l2. now exists [], g.
    + destruct (IH l1 E Hd Htl) as (g1 & g2 & -> & ->).
      now exists (c :: g1), g2.
Qed.

Lemma any_case_no_digit (w s : str) :
  any_case w s -> no_digit w -> no_digit s.
Proof.
  unfold any_case, no_digit. revert w.
  induction s as [|x s IH]; intros [|c w] Hs Hw; try discriminate; constructor.
  - cbn [map] in Hs. injection Hs as Hx _. inversion Hw; subst.
    now rewrite <- is_digit_lower, Hx, is_digit_lower.
  - cbn [map] in Hs. injection Hs as _ Hs. inversion Hw; subst. now apply (IH w).
Qed.

Lemma spaces_no_digit (w : str) : spaces w -> no_digit w.
Proof.
  unfold spaces, no_digit. apply Forall_impl. intros c. apply space_not_digit.
Qed.

Lemma space_run_unique (w w' r r' : str) :
  w ++ r = w' ++ r' -> spaces w -> spaces w' ->
  (exists x t, r = x :: t /\ is_digit x = false /\ is_space x = false) ->
  (exists x t, r' = x :: t /\ is_digit x = false /\ is_space x = false) ->
  r = r'.
Proof.
  intros E Hw Hw' (x & t & -> & _ & Hx) (y & t' & -> & _ & Hy).
  apply (first_run_unique (fun c => negb (is_space c)) w w' t t' x y E).
  - unfold spaces in Hw. rewrite Forall_forall in *. intros c Hc.
    now rewrite (Hw c Hc).
  - unfold spaces in Hw'. rewrite Forall_forall in *. intros c Hc.
    now rewrite (Hw' c Hc).
  - now rewrite Hx.
  - now rewrite Hy.
Qed.

Lemma head_app (s rest : str) :
  (exists x s', s = x :: s' /\ is_digit x = false /\ is_space x = false) ->
  exists x t, s ++ rest = x :: t /\ is_digit x = false /\ is_space x = false.
Proof. intros (x & s' & -> & H). now exists x, (s' ++ rest). Qed.

(** X18: when the only digits of a text are a run of two to four digits
    followed by optional whitespace and the whole word "kcmil" or "MCM" (any
    letter case), [parse_awg] returns the number the run writes: a size in
    thousands of circular mils is returned as if it were a gauge number. *)
Theorem parse_awg_reads_kcmil (pre g w s post : str) :
  no_digit pre -> digits g -> (2 <= List.length g <= 4)%nat -> spaces w ->
  any_case (text "kcmil") s \/ any_case (text "MCM") s ->
  word_ends_before post -> no_digit post ->
  parse_awg (pre ++ g ++ w ++ s ++ post) = Ok (Some (decimal g)).
Proof.
  intros Hpre Hg Hlen Hw Hs Hpost Hpostd. unfold parse_awg.
  assert (Htruthy : truthy (pre ++ g ++ w ++ s ++ post) = true).
  { destruct g as [|d g]; [cbn in Hlen; lia|]. apply truthy_app. }
  rewrite Htruthy. cbn [negb].
  assert (Hnone : search true AWG_PATTERN (pre ++ g ++ w ++ s ++ post) = None).
  { apply search_none_iff. intros a b m E Hm.
    destruct (gauge_match_unit _ _ Hm)
      as (h & g' & w' & s' & E' & Hg' & Hlen' & Hw' & Hs' & _).
    cbn [after] in E'. rewrite E' in E. clear E' Hm.
    destruct g' as [|d g']; [cbn in Hlen'; lia|].
    pose proof (Forall_inv Hg') as Hd. apply Forall_inv_tail in Hg'.
    assert (Htail : no_digit (w ++ s ++ post)).
    { apply Forall_app. split; [now apply spaces_no_digit|].
      apply Forall_app. split; [|exact Hpostd].
      destruct Hs as [Hs | Hs]; apply (any_case_no_digit _ _ Hs);
        repeat constructor. }
    assert (E2 : (a ++ h) ++ d :: (g' ++ w' ++ s' ++ after m)
                 = pre ++ g ++ w ++ s ++ post).
    { rewrite E, <- app_assoc. reflexivity. }
    destruct (digit_in_tail _ _ _ _ _ E2 Hd Hpre) as (t & E3).
    symmetry in E3.
    destruct (digit_inside_run _ _ _ _ _ E3 Hd Htail) as (g1 & g2 & -> & E4).
    apply Forall_app in Hg. destruct Hg as [_ Hg2]. apply Forall_inv_tail in Hg2.
    pose proof (kcmil_unit_head s Hs) as Hhead.
    assert (Hhead' : exists x t, s' = x :: t /\ is_digit x = false /\ is_space x = false).
    { destruct (any_case_head _ _ _ _ Hs' eq_refl) as (x & t' & -> & Hxd & Hxs).
      now exists x, t'. }
    assert (Eg : g' = g2).
    { apply (digit_run_unique g' g2 _ _ E4 Hg' Hg2).
      - apply after_number_no_digit; [exact Hw' | now apply head_no_digit].
      - apply after_number_no_digit; [exact Hw | now apply head_no_digit]. }
    subst g'. apply app_inv_head in E4.
    assert (E5 : s' ++ after m = s ++ post).
    { apply (space_run_unique w' w _ _ E4 Hw' Hw); now apply head_app. }
    destruct Hhead as (x & s1 & -> & _). destruct Hhead' as (x' & s1' & -> & _).
    cbn in E5. injection E5 as -> _.
    unfold any_case in Hs', Hs. cbn in Hs', Hs.
    destruct Hs as [Hs | Hs]; congruence. }
  rewrite Hnone.
  destruct (number_unit_search 2 4 _ _ pre g w s post kcmil_unit
              (fun s Hs => head_no_digit s (kcmil_unit_head s Hs))
              (kcmil_unit_matched s Hs) Hs (kcmil_unit_is_word s Hs))
    as (m & Hsearch & Hgrp); auto; try lia.
  unfold KCMIL_PATTERN. rewrite Hsearch.
  now rewrite (int_of_group m g Hgrp Hg) by lia.
Qed.

Lemma parse_awg_reads_kcmil_witness :
  parse_awg (text "XHHW-" ++ text "250" ++ text " " ++ text "kcmil"
             ++ text " aluminum")
  = Ok (Some 250).
Proof.
  apply (parse_awg_reads_kcmil (text "XHHW-") (text "250") (text " ")
           (text "kcmil") (text " aluminum")).
  - repeat constructor.
  - repeat constructor.
  - cbn. lia.
  - repeat constructor.
  - now left.
  - reflexivity.
  - repeat constructor.
Defined.

(** ** Sold by the foot *)

Lemma plus_space_matched (ic : bool) (sp : str) :
  spaces sp -> sp <> [] ->
  forall bef rest gr,
    Matches ic (plus Space) (mkpos bef (sp ++ rest) gr)
      (mkpos (rev sp ++ bef) rest gr).
Proof.
  intros Hsp Hne bef rest gr. destruct sp as [|c sp]; [congruence|].
  inversion Hsp as [|? ? Hc Hsp']; subst. unfold plus. cbn [Matches].
  exists (mkpos (c :: bef) (sp ++ rest) gr). split.
  - now apply (Step_char _ (mkpos bef (c :: sp ++ rest) gr) c (sp ++ rest)).
  - cbn [rev]. rewrite <- app_assoc. now apply spaces_matched.
Qed.

Lemma phrase_step (w : string) (r : regex) (s sp p' : str) :
  text w <> [] -> any_case (text w) s -> spaces sp -> sp <> [] ->
  (forall bef rest gr,
     Matches true r (mkpos bef (p' ++ rest) gr) (mkpos (rev p' ++ bef) rest gr)) ->
  forall bef rest gr,
    Matches true (Cat (word (text w)) (Cat (plus Space) r))
      (mkpos bef ((s ++ sp ++ p') ++ rest) gr)
      (mkpos (rev (s ++ sp ++ p') ++ bef) rest gr).
Proof.
  intros Hne Hs Hsp Hspne Hr bef rest gr.
  rewrite !rev_app_distr, <- !app_assoc.
  change (Matches true (Cat (word (text w)) (Cat (plus Space) r)))
    with (fun p m => exists q, Matches true (word (text w)) p q /\
                     exists q', Matches true (plus Space) q q' /\
                                Matches true r q' m).
  cbv beta.
  exists (mkpos (rev s ++ bef) (sp ++ p' ++ rest) gr). split.
  - now apply word_matched.
  - exists (mkpos (rev sp ++ rev s ++ bef) (p' ++ rest) gr). split.
    + now apply plus_space_matched.
    + apply Hr.
Qed.

Lemma phrase_ends (words : list string) :
  Forall (fun w => text w <> [] /\ Forall (fun c => is_word c = true) (text w))
         words ->
  words <> [] ->
  forall p rest, phrase words p ->
                 word_at (p ++ rest) = true /\ word_at (rev p ++ rest) = true.
Proof.
  induction words as [|w ws IH]; [congruence|]. intros Hgood _ p rest Hp.
  inversion Hgood as [|? ? [Hne Hw] Hgood']; subst.
  destruct ws as [|w2 ws].
  - cbn in Hp.
    pose proof (any_case_nonempty _ _ Hp Hne).
    pose proof (any_case_is_word _ _ Hp Hw).
    split; [now apply word_at_app | now apply word_at_rev_app].
  - destruct Hp as (s & sp & p' & -> & Hs & Hsp & Hspne & Hp').
    pose proof (any_case_nonempty _ _ Hs Hne).
    pose proof (any_case_is_word _ _ Hs Hw).
    split.
    + rewrite <- app_assoc. now apply word_at_app.
    + rewrite !rev_app_distr, <- !app_assoc.
      apply (IH Hgood' ltac:(discriminate) p'). exact Hp'.
Qed.

Lemma per_foot_matched (p : str) :
  per_foot_phrase p ->
  forall bef rest gr,
    Matches true
      (Alt (Cat (word (text "per")) (Cat (plus Space) (word (text "foot"))))
           (Alt (Cat (word (text "by"))
                     (Cat (plus Space)
                          (Cat (word (text "the"))
                               (Cat (plus Space) (word (text "foot"))))))
                (Cat (word (text "sold"))
                     (Cat (plus Space)
                          (Cat (word (text "by"))
                               (Cat (plus Space) (word (text "foot"))))))))
      (mkpos bef (p ++ rest) gr) (mkpos (rev p ++ bef) rest gr).
Proof.
  intros [Hp | [Hp | Hp]] bef rest gr.
  - destruct Hp as (s & sp & p' & -> & Hs & Hsp & Hspne & Hp').
    left. apply phrase_step; auto; [discriminate|].
    intros. apply word_matched; [discriminate | exact Hp'].
  - destruct Hp as (s & sp & p' & -> & Hs & Hsp & Hspne
                    & s2 & sp2 & p2 & -> & Hs2 & Hsp2 & Hspne2 & Hp2).
    right. left. apply phrase_step; auto; [discriminate|].
    intros. apply phrase_step; auto; [discriminate|].
    intros. apply word_matched; [discriminate | exact Hp2].
  - destruct Hp as (s & sp & p' & -> & Hs & Hsp & Hspne
                    & s2 & sp2 & p2 & -> & Hs2 & Hsp2 & Hspne2 & Hp2).
    right. right. apply phrase_step; auto; [discriminate|].
    intros. apply phrase_step; auto; [discriminate|].
    intros. apply word_matched; [discriminate | exact Hp2].
Qed.

Lemma per_foot_ends (p rest : str) :
  per_foot_phrase p ->
  word_at (p ++ rest) = true /\ word_at (rev p ++ rest) = true.
Proof.
  intros [Hp | [Hp | Hp]];
    (refine (phrase_ends _ _ _ p rest Hp); [|discriminate]);
    repeat (apply Forall_cons; [split; [discriminate | repeat constructor]|]);
    apply Forall_nil.
Qed.

Lemma pack_length_not_found (txt : str) :
  no_digit txt -> search true PACK_LENGTH_PATTERN txt = None.
Proof.
  intros Hno. apply search_none_iff. intros a b m -> Hm.
  destruct (number_unit_shape _ _ _ _ _ _ feet_unit Hm)
    as (g & w & s & E & Hg & Hlen & _).
  cbn [after] in E. destruct g as [|d g]; [cbn in Hlen; lia|].
  apply Forall_inv in Hg. subst b.
  apply Forall_app in Hno. destruct Hno as [_ Hno].
  apply Forall_inv in Hno. congruence.
Qed.

(** X19: for a text without digits in which one of the phrases "per foot",
    "by the foot", "sold by foot" occurs as whole words (any letter case, any
    whitespace between the words), [parse_pack_length] returns
    (1, "ft_each"); with no override the handler then shows the
    sold-by-the-foot message and no plan, whatever the total. *)
Theorem sold_by_the_foot_detected {F : Type} `{PyFloat F} `{PyFloatRound F}
    (a p b : str) (total_cable_feet : F) :
  no_digit (a ++ p ++ b) -> per_foot_phrase p ->
  word_at (rev a) = false -> word_ends_before b ->
  parse_pack_length (a ++ p ++ b) = Ok (Some 1, Some "ft_each"%string) /\
  (detected <- parse_pack_length (a ++ p ++ b) ;;
   packaging [] (fst detected) (snd detected) total_cable_feet)
  = Ok (mkPackaging [SoldByTheFoot] []).
Proof.
  intros Hno Hp Ha Hb.
  assert (Hparse : parse_pack_length (a ++ p ++ b)
                   = Ok (Some 1, Some "ft_each"%string)).
  { unfold parse_pack_length.
    destruct (per_foot_ends p b Hp) as [Hfirst Hlast].
    assert (Htruthy : truthy (a ++ p ++ b) = true).
    { destruct p as [|c p]; [|apply truthy_app].
      unfold word_ends_before in Hb. cbn in Hfirst. congruence. }
    rewrite Htruthy, (pack_length_not_found _ Hno). cbn [negb].
    destruct (proj2 (search_some_iff true PER_FOOT_PATTERN (a ++ p ++ b)))
      as (m & ->); [|reflexivity].
    exists a, (p ++ b). eexists. split; [reflexivity|].
    unfold PER_FOOT_PATTERN. cbn [Matches].
    eexists. split.
    - split; [|reflexivity]. unfold at_boundary. cbn [before after].
      now rewrite Ha, Hfirst.
    - eexists. split.
      + eexists. split; [apply (per_foot_matched p Hp) | reflexivity].
      + split; [|reflexivity]. unfold at_boundary. cbn [before after].
        destruct (per_foot_ends p (rev a) Hp) as [_ Hlast'].
        now rewrite Hlast', Hb. }
  split; [exact Hparse|]. now rewrite Hparse.
Qed.

Lemma sold_by_the_foot_detected_witness :
  parse_pack_length (text "THHN wire, " ++ text "Sold  By Foot" ++ text ".")
  = Ok (Some 1, Some "ft_each"%string) /\
  (detected <- parse_pack_length
                 (text "THHN wire, " ++ text "Sold  By Foot" ++ text ".") ;;
   packaging (F := Q) [] (fst detected) (snd detected) 1200%Q)
  = Ok (mkPackaging [SoldByTheFoot] []).
Proof.
  apply (sold_by_the_foot_detected (text "THHN wire, ") (text "Sold  By Foot")
           (text ".") 1200%Q).
  - repeat constructor.
  - right. right. exists (text "Sold"), (text "  "), (text "By Foot").
    repeat split; try discriminate; try (repeat constructor).
    exists (text "By"), (text " "), (text "Foot").
    repeat split; try discriminate; repeat constructor.
  - reflexivity.
  - reflexivity.
Defined.

(** ** Whitespace normalisation *)

Lemma space_run (s : str) :
  exists w rest, s = w ++ rest /\ spaces w /\ space_at rest = false.
Proof.
  induction s as [|c s (w & rest & -> & Hw & Hrest)].
  - exists [], []. repeat split. constructor.
  - destruct (is_space c) eqn:Hc.
    + exists (c :: w), rest. repeat split; [now constructor | exact Hrest].
    + exists [], (c :: w ++ rest). repeat split; [constructor | exact Hc].
Qed.

Lemma step_space_none (bef aft : str) (gr : option str) :
  space_at aft = false -> step is_space (mkpos bef aft gr) = [].
Proof.
  unfold step. cbn [after]. destruct aft as [|x aft]; [reflexivity|].
  cbn [space_at]. now intros ->.
Qed.

Lemma step_space_one (bef aft : str) (gr : option str) (x : ascii) :
  is_space x = true ->
  step is_space (mkpos bef (x :: aft) gr) = [mkpos (x :: bef) aft gr].
Proof. unfold step. cbn [after before grp1]. now intros ->. Qed.

(** The greedy star takes the whole run of whitespace first. *)
Lemma star_spaces_head (ic : bool) (w rest : str) :
  spaces w -> space_at rest = false ->
  forall fuel bef gr,
    (List.length w <= fuel)%nat ->
    exists tl,
      star_iter (matches ic Space) fuel (mkpos bef (w ++ rest) gr)
      = mkpos (rev w ++ bef) rest gr :: tl.
Proof.
  intros Hw Hrest. induction Hw as [|x w Hx _ IH]; intros fuel bef gr Hfuel.
  - exists []. cbn [app rev]. change (matches ic Space) with (step is_space).
    destruct fuel as [|fuel]; [reflexivity|]. cbn [star_iter].
    now rewrite (step_space_none _ _ _ Hrest).
  - destruct fuel as [|fuel]; [cbn in Hfuel; lia|].
    destruct (IH fuel (x :: bef) gr) as (tl & Htl); [cbn in Hfuel; lia|].
    change (matches ic Space) with (step is_space) in *.
    cbn [star_iter app]. rewrite (step_space_one _ _ _ _ Hx).
    cbn [flat_map after].
    replace (List.length (w ++ rest) <? List.length (x :: w ++ rest))%nat
      with true by (symmetry; apply Nat.ltb_lt; cbn; lia).
    rewrite Htl. cbn [rev].
    replace ((rev w ++ [x]) ++ bef) with (rev w ++ x :: bef)
      by (now rewrite <- app_assoc).
    cbn [app]. eexists. reflexivity.
Qed.

Lemma plus_space_head (ic : bool) (c : ascii) (w rest bef : str)
    (gr : option str) :
  is_space c = true -> spaces w -> space_at rest = false ->
  exists tl,
    matches ic (plus Space) (mkpos bef (c :: w ++ rest) gr)
    = mkpos (rev w ++ c :: bef) rest gr :: tl.
Proof.
  intros Hc Hw Hrest.
  destruct (star_spaces_head ic w rest Hw Hrest (List.length (w ++ rest))
              (c :: bef) gr) as (tl & Htl); [rewrite length_app; lia|].
  unfold plus.
  change (matches ic (Cat Space (Star Space)) (mkpos bef (c :: w ++ rest) gr))
    with (flat_map (fun q => star_iter (matches ic Space)
                               (List.length (after q)) q)
            (step is_space (mkpos bef (c :: w ++ rest) gr))).
  rewrite (step_space_one _ _ _ _ Hc). cbn [flat_map after].
  rewrite Htl. eexists. reflexivity.
Qed.

Lemma plus_space_none (ic : bool) (bef aft : str) (gr : option str) :
  space_at aft = false -> matches ic (plus Space) (mkpos bef aft gr) = [].
Proof.
  intros Haft. unfold plus.
  change (matches ic (Cat Space (Star Space)) (mkpos bef aft gr))
    with (flat_map (fun q => star_iter (matches ic Space)
                               (List.length (after q)) q)
            (step is_space (mkpos bef aft gr))).
  now rewrite (step_space_none _ _ _ Haft).
Qed.

Lemma squeeze_run (w rest : str) :
  spaces w -> space_at rest = false ->
  forall c, is_space c = true ->
            squeeze (c :: w ++ rest) = " "%char :: squeeze rest.
Proof.
  intros Hw Hrest. induction Hw as [|x w Hx _ IH]; intros c Hc.
  - cbn [app squeeze]. now rewrite Hc, Hrest.
  - cbn [app]. cbn [squeeze] in *. rewrite Hc. cbn [space_at]. rewrite Hx.
    specialize (IH x Hx). now rewrite Hx in IH.
Qed.

(** [re.sub] of runs of whitespace by one space is [squeeze]. *)
Lemma sub_spaces_squeeze (ic : bool) (fuel : nat) :
  forall bef aft,
    (List.length aft < fuel)%nat ->
    sub_from ic (plus Space) (text " ") fuel bef aft = squeeze aft.
Proof.
  induction fuel as [|fuel IH]; intros bef aft Hfuel; [lia|].
  cbn [sub_from]. destruct aft as [|c aft].
  - now rewrite plus_space_none.
  - cbn [List.length] in Hfuel. destruct (is_space c) eqn:Hc.
    + destruct (space_run aft) as (w & rest & -> & Hw & Hrest).
      destruct (plus_space_head ic c w rest bef None Hc Hw Hrest) as (tl & ->).
      cbn [after before].
      replace (List.length rest <? List.length (c :: w ++ rest))%nat
        with true
        by (symmetry; apply Nat.ltb_lt; cbn; rewrite length_app; lia).
      rewrite IH by (rewrite length_app in Hfuel; lia).
      now rewrite (squeeze_run w rest Hw Hrest c Hc).
    + rewrite plus_space_none by (cbn; exact Hc).
      rewrite IH by lia. cbn [squeeze]. now rewrite Hc.
Qed.

Lemma normalize_space_squeeze (s : str) :
  normalize_space (Some s) = strip (squeeze s).
Proof.
  unfold normalize_space, sub. now rewrite sub_spaces_squeeze by lia.
Qed.

Lemma space_at_squeeze (s : str) : space_at (squeeze s) = space_at s.
Proof.
  induction s as [|c s IH]; [reflexivity|]. cbn [squeeze space_at].
  destruct (is_space c) eqn:Hc; [|cbn; exact Hc].
  destruct (space_at s) eqn:Hs; [now rewrite IH | reflexivity].
Qed.

(** In the squeezed text every whitespace character is a space, and the
    next character, if any, is not whitespace. *)
Lemma squeeze_single (s : str) :
  forall a c b,
    squeeze s = a ++ c :: b -> is_space c = true ->
    c = " "%char /\ space_at b = false.
Proof.
  induction s as [|c0 s IH]; intros a c b E Hc; cbn [squeeze] in E.
  - now destruct a.
  - destruct (is_space c0) eqn:Hc0; [destruct (space_at s) eqn:Hs|].
    + now apply (IH a).
    + destruct a as [|x a]; cbn in E; injection E as Ex E.
      * subst c b. split; [reflexivity|]. now rewrite space_at_squeeze.
      * now apply (IH a).
    + destruct a as [|x a]; cbn in E; injection E as Ex E.
      * congruence.
      * now apply (IH a).
Qed.

Lemma lstrip_split (s : str) :
  exists l, s = l ++ lstrip_of is_space s /\ spaces l /\
            space_at (lstrip_of is_space s) = false.
Proof.
  induction s as [|c s (l & E & Hl & Hs)].
  - exists []. repeat split. constructor.
  - cbn [lstrip_of]. destruct (is_space c) eqn:Hc.
    + exists (c :: l). repeat split; [cbn; now f_equal | now constructor | exact Hs].
    + exists []. repeat split; [constructor | exact Hc].
Qed.

(** [strip] removes whitespace at both ends, and nothing else. *)
Lemma strip_split (s : str) :
  exists l r,
    s = l ++ strip s ++ r /\ spaces l /\ spaces r /\
    space_at (strip s) = false /\ space_at (rev (strip s)) = false.
Proof.
  unfold strip, strip_of.
  destruct (lstrip_split s) as (l & El & Hl & Hfirst).
  set (t := lstrip_of is_space s) in *.
  destruct (lstrip_split (rev t)) as (r & Er & Hr & Hlast).
  set (u := lstrip_of is_space (rev t)) in *.
  assert (Et : t = rev u ++ rev r).
  { rewrite <- (rev_involutive t), Er. apply rev_app_distr. }
  exists l, (rev r). split; [now rewrite <- Et|].
  split; [exact Hl|]. split; [now apply Forall_rev|]. split.
  - rewrite Et in Hfirst. destruct (rev u); [reflexivity | exact Hfirst].
  - now rewrite rev_involutive.
Qed.

Lemma strip_fixed (t : str) :
  space_at t = false -> space_at (rev t) = false -> strip t = t.
Proof.
  assert (Hl : forall s, space_at s = false -> lstrip_of is_space s = s).
  { intros [|c s]; [reflexivity|]. cbn. now intros ->. }
  intros Hfirst Hlast. unfold strip, strip_of.
  now rewrite (Hl t Hfirst), (Hl (rev t) Hlast), rev_involutive.
Qed.

Lemma squeeze_fixed (t : str) :
  (forall a c b, t = a ++ c :: b -> is_space c = true ->
                 c = " "%char /\ space_at b = false) ->
  squeeze t = t.
Proof.
  induction t as [|c t IH]; intros Hsingle; [reflexivity|].
  cbn [squeeze]. rewrite IH.
  - destruct (is_space c) eqn:Hc; [|reflexivity].
    destruct (Hsingle [] c t eq_refl Hc) as [-> ->]. reflexivity.
  - intros a x b -> Hx. now apply (Hsingle (c :: a) x b).
Qed.

Lemma space_at_app (b r : str) : space_at (b ++ r) = false -> space_at b = false.
Proof. now destruct b. Qed.

(** The result of [normalize_space], as a part of the squeezed text. *)
Lemma normalize_space_single (s : str) :
  let out := normalize_space (Some s) in
  space_at out = false /\ space_at (rev out) = false /\
  forall a c b, out = a ++ c :: b -> is_space c = true ->
                c = " "%char /\ space_at b = false.
Proof.
  cbn zeta. rewrite normalize_space_squeeze.
  destruct (strip_split (squeeze s)) as (l & r & E & _ & _ & Hfirst & Hlast).
  split; [exact Hfirst|]. split; [exact Hlast|].
  intros a c b Eout Hc. rewrite Eout in E.
  destruct (squeeze_single s (l ++ a) c (b ++ r)) as [-> Hb]; auto.
  - now rewrite E, <- !app_assoc.
  - split; [reflexivity | now apply (space_at_app b r)].
Qed.

(** X20: in the result of [normalize_space] every whitespace character is a
    space that stands between two characters that are not whitespace: no
    tab or line break is left, no run of two, and none at either end. *)
Theorem normalize_space_single_spaced (s : option str) (a b : str) (c : ascii) :
  normalize_space s = a ++ c :: b -> is_space c = true ->
  c = " "%char /\
  (exists a' x, a = a' ++ [x] /\ is_space x = false) /\
  (exists y b', b = y :: b' /\ is_space y = false).
Proof.
  assert (Hsome : exists s', normalize_space s = normalize_space (Some s')).
  { destruct s as [s'|]; [now exists s' | now exists []]. }
  destruct Hsome as (s' & ->). intros E Hc.
  destruct (normalize_space_single s') as (Hfirst & Hlast & Hsingle).
  cbn zeta in *. rewrite E in Hfirst, Hlast.
  destruct (Hsingle a c b E Hc) as [-> Hb]. split; [reflexivity|]. split.
  - destruct (exists_last (l := a)) as (a' & x & ->).
    { intros ->. cbn in Hfirst. congruence. }
    exists a', x. split; [reflexivity|].
    destruct (is_space x) eqn:Hx; [|reflexivity].
    rewrite <- app_assoc in E. cbn [app] in E.
    destruct (Hsingle a' x (" "%char :: b) E Hx) as [_ Hnext].
    cbn in Hnext. discriminate.
  - destruct b as [|y b']; [|now exists y, b'].
    rewrite rev_app_distr in Hlast. cbn in Hlast. discriminate.
Qed.

Lemma normalize_space_single_spaced_witness :
  " "%char = " "%char /\
  (exists a' x, text "12 AWG" = a' ++ [x] /\ is_space x = false) /\
  (exists y b', text "THHN" = y :: b' /\ is_space y = false).
Proof.
  apply (normalize_space_single_spaced
           (Some [" "; "1"; "2"; " "; "009"; "A"; "W"; "G"; "010"; "013"; " ";
                  "T"; "H"; "H"; "N"; "010"]%char)
           (text "12 AWG") (text "THHN") " "%char);
    reflexivity.
Defined.

(** X21: [normalize_space] changes nothing in a text it has returned. *)
Theorem normalize_space_idempotent (s : option str) :
  normalize_space (Some (normalize_space s)) = normalize_space s.
Proof.
  assert (Hsome : exists s', normalize_space s = normalize_space (Some s')).
  { destruct s as [s'|]; [now exists s' | now exists []]. }
  destruct Hsome as (s' & ->).
  destruct (normalize_space_single s') as (Hfirst & Hlast & Hsingle).
  cbn zeta in *. rewrite normalize_space_squeeze at 1.
  rewrite (squeeze_fixed _ Hsingle). now apply strip_fixed.
Qed.

Lemma non_space_spaces (w : str) : spaces w -> non_space w = [].
Proof.
  unfold non_space. induction 1 as [|c w Hc _ IH]; [reflexivity|].
  cbn [filter]. now rewrite Hc.
Qed.

Lemma non_space_squeeze (s : str) : non_space (squeeze s) = non_space s.
Proof.
  unfold non_space. induction s as [|c s IH]; [reflexivity|].
  cbn [squeeze filter]. destruct (is_space c) eqn:Hc; cbn [negb].
  - destruct (space_at s); [exact IH | cbn; exact IH].
  - cbn [filter]. rewrite Hc. cbn [negb]. now f_equal.
Qed.

(** X22: [normalize_space] keeps every character that is not whitespace, in
    the same order: it only removes or replaces whitespace. *)
Theorem normalize_space_keeps_other_characters (s : str) :
  non_space (normalize_space (Some s)) = non_space s.
Proof.
  rewrite normalize_space_squeeze, <- (non_space_squeeze s).
  destruct (strip_split (squeeze s)) as (l & r & E & Hl & Hr & _).
  rewrite E at 2. unfold non_space. rewrite !filter_app.
  fold (non_space l) (non_space r).
  now rewrite (non_space_spaces l Hl), (non_space_spaces r Hr), app_nil_r.
Qed.

(** ** The page scrape and what the handler does with it *)

Lemma parse_awg_range (txt : str) :
  exists d, parse_awg txt = Ok d /\ forall n, d = Some n -> 0 <= n <= 9999.
Proof.
  destruct (parse_awg_cases txt)
    as [Hnone | (a & g & w & s & b & _ & Hg & _ & Hu & Hp)].
  - exists None. split; [exact Hnone | discriminate].
  - exists (Some (decimal g)). split; [exact Hp|]. intros n [= <-].
    apply (decimal_below g 4 Hg). destruct Hu as [[Hlen _] | [Hlen _]]; lia.
Qed.

Lemma parse_pack_length_range (txt : str) :
  exists len unit,
    parse_pack_length txt = Ok (len, unit) /\
    (forall n, len = Some n -> 0 <= n <= 99999) /\
    (len = None <-> unit = None).
Proof.
  destruct (parse_pack_length_cases txt)
    as [Hnone | [Heach | (a & g & w & s & b & _ & Hg & Hlen & _ & _ & Hp)]].
  - exists None, None. split; [exact Hnone|]. split; [discriminate | tauto].
  - exists (Some 1), (Some "ft_each"%string). split; [exact Heach|].
    split; [intros n [= <-]; lia | split; discriminate].
  - exists (Some (decimal g)), (Some "ft"%string). split; [exact Hp|]. split.
    + intros n [= <-]. apply (decimal_below g 5 Hg). lia.
    + split; discriminate.
Qed.

(** X23: [generic_scrape] raises nothing, whatever the text of the page.  Its
    preview is the first characters of the normalised text, at most 4000;
    a detected gauge is between 0 and 9999, a detected pack length between 0
    and 99999, and the pack length is blank exactly when the pack unit is. *)
Theorem generic_scrape_never_raises (page_text : str) :
  exists specs,
    generic_scrape page_text = Ok specs /\
    (List.length (page_text_preview specs) <= 4000)%nat /\
    (exists rest,
       normalize_space (Some page_text) = page_text_preview specs ++ rest) /\
    (forall n, detected_awg specs = Some n -> 0 <= n <= 9999) /\
    (forall n, pack_length_ft specs = Some n -> 0 <= n <= 99999) /\
    (pack_length_ft specs = None <-> pack_unit specs = None).
Proof.
  unfold generic_scrape. set (txt := normalize_space (Some page_text)).
  destruct (parse_awg_range txt) as (d & -> & Hd).
  destruct (parse_pack_length_range txt) as (len & unit & -> & Hlen & Hunit).
  cbn [bind fst snd]. eexists. split; [reflexivity|].
  cbn [page_text_preview detected_awg pack_length_ft pack_unit].
  split; [unfold slice_to; rewrite length_firstn; lia|].
  split; [exists (skipn 4000 txt); unfold slice_to; now rewrite firstn_skipn|].
  auto.
Qed.

(** X24: for a gauge that [parse_awg] has read from a text, the ampacity
    block names a quick-reference ampacity only when the material is copper
    and the number is a size code of the ampacity table between 0 and 14; the
    ampacity it names is between 20 and 150 A.  The table's entries for 2/0,
    3/0 and 4/0 AWG are never used. *)
Theorem ampacity_note_only_for_codes_0_to_14 {F : Type} `{PyFloat F}
    (txt : str) (mat : string) (amps : F) (detected : option Z)
    (awg ampacity : Z) :
  parse_awg txt = Ok detected ->
  ampacity_sanity detected mat amps = Some (MayBeUndersized awg ampacity) \/
  ampacity_sanity detected mat amps = Some (QuickCheck awg ampacity) ->
  mat = "copper"%string /\ detected = Some awg /\
  In (awg, ampacity) COPPER_AMPACITY_75C /\
  0 <= awg <= 14 /\ 20 <= ampacity <= 150.
Proof.
  intros Hp Hnote.
  destruct (parse_awg_range txt) as (d & Hd & Hrange).
  rewrite Hp in Hd. injection Hd as <-.
  destruct detected as [n|]; [|destruct Hnote; discriminate].
  specialize (Hrange n eq_refl).
  unfold ampacity_sanity in Hnote.
  destruct (String.eqb mat "copper") eqn:Hmat; [|destruct Hnote; discriminate].
  apply String.eqb_eq in Hmat. unfold get in Hnote.
  destruct (getitem COPPER_AMPACITY_75C n) as [a|e] eqn:Hget;
    [|destruct Hnote; discriminate].
  apply getitem_is_item in Hget.
  assert (Hout : awg = n /\ ampacity = a).
  { destruct (negb (a =? 0)); [destruct (fltb (of_int a) amps)|];
      destruct Hnote as [Hn | Hn]; try discriminate; now injection Hn. }
  destruct Hout as [-> ->].
  split; [exact Hmat|]. split; [reflexivity|]. split; [exact Hget|].
  cbn in Hget.
  repeat (destruct Hget as [Hget | Hget]; [injection Hget as <- <-; lia|]).
  contradiction.
Qed.

Lemma ampacity_note_only_for_codes_0_to_14_witness :
  "copper"%string = "copper"%string /\ Some 12 = Some 12 /\
  In (12, 25) COPPER_AMPACITY_75C /\ 0 <= 12 <= 14 /\ 20 <= 25 <= 150.
Proof.
  apply (ampacity_note_only_for_codes_0_to_14 (F := float)
           (text "THHN 12 AWG copper") "copper" 30%float (Some 12) 12 25).
  - reflexivity.
  - left. reflexivity.
Defined.

(** X25: with the material set to auto-detect, the handler assumes copper
    or aluminum, and aluminum exactly when the detection text has one of the
    aluminum words and none of the copper words: copper is what it assumes
    when nothing is detected. *)
Theorem assumed_material_auto_detect (txt : str) :
  let mat := assumed_material "auto-detect" (detect_material txt) in
  (mat = "copper"%string \/ mat = "aluminum"%string) /\
  (mat = "aluminum"%string <->
   ~ (occurs_as_word "copper" txt \/ occurs_as_word "cu" txt) /\
   (occurs_as_word "aluminum" txt \/ occurs_as_word "alum" txt \/
    occurs_as_word "al" txt)).
Proof.
  cbn zeta. rewrite <- copper_found, <- aluminum_found.
  unfold assumed_material, detect_material. cbn [String.eqb Ascii.eqb negb].
  destruct (truthy txt) eqn:Ht; cbn [negb].
  - destruct (search true COPPER_WORDS txt) as [m|].
    + cbn. split; [now left|]. split; [discriminate|].
      intros (Hno & _). destruct Hno. now exists m.
    + destruct (search true ALUMINUM_WORDS txt) as [m|].
      * cbn. split; [now right|]. split; [|reflexivity].
        intros _. split; [|now exists m]. intros (m' & Hm'). discriminate.
      * cbn. split; [now left|]. split; [discriminate|].
        intros (_ & m & Hm). discriminate.
  - cbn. split; [now left|]. split; [discriminate|].
    destruct txt; [|discriminate]. intros (_ & m & Hm). discriminate.
Qed.
